(** * The card engines of card-engine-ts: model and verified properties

    Shallow embedding of [src/core/cards.ts], [src/core/nerts.ts], the bot
    loop of [src/web/NertsView.tsx] and [src/core/blackjack.ts].

    - JavaScript arrays are lists kept in the source's order: the top of a
      pile is the LAST element.
    - An index carried by an action is an integer; reading an array at a
      negative or too large index gives [undefined], here [None].
    - Scores are integers, added as the source's numbers are: exactly up
      to 2^53 in magnitude, rounded to the nearest double beyond
      ([numberAdd]).
    - The reducer clones the players and the foundation pool and updates
      the clone of the acting player in place; here the updated record is
      passed along and stored back at the player's index by [finalize].
      The one place where two names alias one array, a run moved onto its
      own column, is written out as the source evaluates it.
    - Every read of a property on a value that may be [undefined] is
      guarded in the source ([if (!top) return state], [length > 0], ...);
      guard and read are one [match] here, so the model is total, as the
      source is free of thrown errors on well-typed input.
    - [Math.random] and [Date.now] are inputs: a shuffle oracle and a
      clock value.
    - The blackjack engine throws; its functions return a [Result].  Its
      two automatic players loop for as long as the state asks for, so
      their models take the number of rounds allowed and return [None]
      when that is used up. *)

From Stdlib Require Import ZArith Lia.
From stdpp Require Import base decidable option list strings pretty.

Open Scope Z_scope.

(** ** cards.ts *)

Inductive Suit := Spades | Hearts | Diamonds | Clubs.

Inductive Rank :=
  | RA | R2 | R3 | R4 | R5 | R6 | R7 | R8 | R9 | R10 | RJ | RQ | RK.

#[global] Instance Suit_eq_dec : EqDecision Suit.
Proof. solve_decision. Defined.

#[global] Instance Rank_eq_dec : EqDecision Rank.
Proof. solve_decision. Defined.

Record Card := mkCard { csuit : Suit; crank : Rank }.

Definition suits : list Suit := [Spades; Hearts; Diamonds; Clubs].

Definition ranks : list Rank :=
  [RA; R2; R3; R4; R5; R6; R7; R8; R9; R10; RJ; RQ; RK].

(** [createDeck]: suit-major, rank-minor. *)
Definition createDeck : list Card :=
  s ← suits; r ← ranks; [mkCard s r].

(** [shuffle]: the loop [for (i = copy.length - 1; i > 0; i--)].  The draw
    [Math.floor(Math.random() * (i + 1))] of iteration [i] is supplied by
    the oracle [rnd]; it lies in [0, i].  The guard [!ci || !cj] skips the
    swap when an index reads [undefined]. *)
Fixpoint shuffle_loop (rnd : nat → nat) (i : nat) (copy : list Card) : list Card :=
  match i with
  | O => copy
  | S i' =>
      let j := (rnd i `mod` (i + 1))%nat in
      match copy !! i, copy !! j with
      | Some ci, Some cj => shuffle_loop rnd i' (<[j := ci]> (<[i := cj]> copy))
      | _, _ => shuffle_loop rnd i' copy
      end
  end.

Definition shuffle (rnd : nat → nat) (deck : list Card) : list Card :=
  shuffle_loop rnd (length deck - 1)%nat deck.

(** ** nerts.ts: data model *)

Definition PlayerId := string.

(** [NertsCard]; the fields [id] and [suit] exist on several interfaces of
    the source, so each record prefixes them. *)
Record NertsCard := mkNertsCard {
  suit : Suit;
  rank : Rank;
  cid : string;
  ownerId : PlayerId;
  faceUp : bool
}.

Record NertsPlayerState := mkPlayer {
  pid : PlayerId;
  nertsPile : list NertsCard;
  tableau : list (list NertsCard);
  stock : list NertsCard;
  waste : list NertsCard;
  score : Z
}.

Record NertsFoundationPile := mkFoundation {
  fsuit : option Suit;
  cards : list NertsCard
}.

Record NertsConfig := mkConfig { playerIds : list PlayerId }.

Record NertsState := mkState {
  players : list NertsPlayerState;
  foundations : list NertsFoundationPile;
  startedAt : Z;
  finished : bool;
  winnerId : option PlayerId
}.

#[global] Instance NertsCard_eq_dec : EqDecision NertsCard.
Proof. solve_decision. Defined.

#[global] Instance NertsPlayerState_eq_dec : EqDecision NertsPlayerState.
Proof. solve_decision. Defined.

#[global] Instance NertsFoundationPile_eq_dec : EqDecision NertsFoundationPile.
Proof. solve_decision. Defined.

#[global] Instance NertsState_eq_dec : EqDecision NertsState.
Proof. solve_decision. Defined.

(** ** Array primitives of the source *)

(** [arr[i]] for a number [i] coming from an action. *)
Definition at_index {A} (l : list A) (i : Z) : option A :=
  if i <? 0 then None else l !! Z.to_nat i.

(** [arr[arr.length - 1]]. *)
Definition top {A} (l : list A) : option A := last l.

(** The array left by [arr.pop()]. *)
Definition popped {A} (l : list A) : list A := take (length l - 1)%nat l.

(** [arr.pop()]: the removed element and what is left. *)
Definition pop {A} (l : list A) : option (A * list A) :=
  match last l with
  | Some x => Some (x, popped l)
  | None => None
  end.

(** [arr.findIndex(pred)]. *)
Definition findIndex {A} (P : A → bool) (l : list A) : option nat :=
  fst <$> list_find (λ x, P x = true) l.

(** ** Rank / color helpers *)

Definition rankOrder : list Rank := ranks.

Fixpoint indexOf (r : Rank) (l : list Rank) : option nat :=
  match l with
  | [] => None
  | x :: l' => if decide (x = r) then Some O else S <$> indexOf r l'
  end.

Definition getRankValue (r : Rank) : Z :=
  match indexOf r rankOrder with
  | None => 0
  | Some idx => Z.of_nat idx + 1
  end.

Definition isRedSuit (s : Suit) : bool :=
  bool_decide (s = Hearts) || bool_decide (s = Diamonds).

Definition makeFaceUp (c : NertsCard) : NertsCard :=
  {| suit := suit c; rank := rank c; cid := cid c; ownerId := ownerId c;
     faceUp := true |}.

(** [{ ...c, faceUp: false }], written inline where the waste is recycled. *)
Definition makeFaceDown (c : NertsCard) : NertsCard :=
  {| suit := suit c; rank := rank c; cid := cid c; ownerId := ownerId c;
     faceUp := false |}.

Definition clonePlayer (p : NertsPlayerState) : NertsPlayerState :=
  {| pid := pid p;
     nertsPile := nertsPile p;
     tableau := (λ col, col) <$> tableau p;
     stock := stock p;
     waste := waste p;
     score := score p |}.

Definition cloneFoundations (fs : list NertsFoundationPile) : list NertsFoundationPile :=
  (λ f, {| fsuit := fsuit f; cards := cards f |}) <$> fs.

(** ** Init *)

Definition rankString (r : Rank) : string :=
  match r with
  | RA => "A" | R2 => "2" | R3 => "3" | R4 => "4" | R5 => "5" | R6 => "6"
  | R7 => "7" | R8 => "8" | R9 => "9" | R10 => "10" | RJ => "J" | RQ => "Q"
  | RK => "K"
  end.

Definition suitString (s : Suit) : string :=
  match s with
  | Spades => "♠" | Hearts => "♥" | Diamonds => "♦" | Clubs => "♣"
  end.

(** The card an index past the end of the dealt deck would read; the deck
    always has 52 cards ([length_tagDeck]), so it is never dealt. *)
#[global] Instance NertsCard_inhabited : Inhabited NertsCard :=
  populate (mkNertsCard Spades RA EmptyString EmptyString false).

(** [baseDeck.map((c, idx) => ({...c, id, ownerId, faceUp: false}))]. *)
Definition tagDeck (playerId : PlayerId) (baseDeck : list Card) : list NertsCard :=
  imap (λ idx c,
    {| suit := csuit c; rank := crank c;
       cid := playerId +:+ "-" +:+ rankString (crank c) +:+ suitString (csuit c)
                +:+ "-" +:+ pretty idx;
       ownerId := playerId;
       faceUp := false |}) baseDeck.

Definition dealPlayer (rnd : nat → nat) (playerId : PlayerId) : NertsPlayerState :=
  let baseDeck := shuffle rnd createDeck in
  let all := tagDeck playerId baseDeck in
  let rawNerts := take 13 all in
  let nertsPile :=
    imap (λ i card,
      if decide (i = (length rawNerts - 1)%nat) then makeFaceUp card else card)
      rawNerts in
  let t0 := makeFaceUp (all !!! 13%nat) in
  let t1 := makeFaceUp (all !!! 14%nat) in
  let t2 := makeFaceUp (all !!! 15%nat) in
  let t3 := makeFaceUp (all !!! 16%nat) in
  {| pid := playerId;
     nertsPile := nertsPile;
     tableau := [[t0]; [t1]; [t2]; [t3]];
     stock := drop 17 all;
     waste := [];
     score := 0 |}.

(** [initNerts].  [rnd k] is the shuffle oracle of the [k]-th player and
    [now] the value of [Date.now()]. *)
Definition initNerts (config : NertsConfig) (rnd : nat → nat → nat) (now : Z) : NertsState :=
  {| players := imap (λ k playerId, dealPlayer (rnd k) playerId) (playerIds config);
     foundations :=
       replicate (length (playerIds config) * 4)%nat {| fsuit := None; cards := [] |};
     startedAt := now;
     finished := false;
     winnerId := None |}.

(** ** Actions *)

Inductive NertsAction :=
  | stock_draw (playerId : PlayerId)
  | waste_to_tableau (playerId : PlayerId) (tableauIndex : Z)
  | waste_to_foundation (playerId : PlayerId) (foundationIndex : Z)
  | tableau_to_tableau (playerId : PlayerId) (fromIndex toIndex : Z) (cardId : string)
  | tableau_to_foundation (playerId : PlayerId) (fromIndex foundationIndex : Z)
  | nerts_to_tableau (playerId : PlayerId) (tableauIndex : Z)
  | nerts_to_foundation (playerId : PlayerId) (foundationIndex : Z).

Definition playerId (a : NertsAction) : PlayerId :=
  match a with
  | stock_draw p | waste_to_tableau p _ | waste_to_foundation p _
  | tableau_to_tableau p _ _ _ | tableau_to_foundation p _ _
  | nerts_to_tableau p _ | nerts_to_foundation p _ => p
  end.

Definition isNertsFinished (state : NertsState) : bool := finished state.

(** ** Rule helpers *)

Definition canPlaceOnTableau (destTop : option NertsCard) (card : NertsCard)
    (allowAnyOnEmpty : bool) : bool :=
  let cRank := getRankValue (rank card) in
  let cRed := isRedSuit (suit card) in
  match destTop with
  | None => if allowAnyOnEmpty then true else cRank =? 13
  | Some destTop =>
      let dRank := getRankValue (rank destTop) in
      let dRed := isRedSuit (suit destTop) in
      negb (eqb cRed dRed) && (cRank =? dRank - 1)
  end.

(** [pile.cards.length === 0] is the [None] case of reading the top. *)
Definition canPlaceOnFoundation (pile : NertsFoundationPile) (card : NertsCard) : bool :=
  let cRank := getRankValue (rank card) in
  match top (cards pile) with
  | None => cRank =? 1
  | Some t =>
      if negb (bool_decide (suit t = suit card)) then false
      else cRank =? getRankValue (rank t) + 1
  end.

(** ** Main reducer *)

(** "Flip new top if needed": [if (pile.length > 0) { ... if (!c.faceUp)
    pile[pile.length - 1] = makeFaceUp(c) }]. *)
Definition flipTop (pile : list NertsCard) : list NertsCard :=
  match top pile with
  | Some c =>
      if negb (faceUp c) then <[(length pile - 1)%nat := makeFaceUp c]> pile
      else pile
  | None => pile
  end.

(** [f.cards.push(top); if (f.suit === null) f.suit = top.suit]. *)
Definition pushFoundation (f : NertsFoundationPile) (c : NertsCard) : NertsFoundationPile :=
  {| fsuit := match fsuit f with None => Some (suit c) | Some s => Some s end;
     cards := cards f ++ [c] |}.

(** The [stock_draw] loop: [drawCount] rounds of
    [c = stock.pop(); if (!c) break; waste.push(makeFaceUp(c))]. *)
Fixpoint drawLoop (drawCount : nat) (stock waste : list NertsCard)
    : list NertsCard * list NertsCard :=
  match drawCount with
  | O => (stock, waste)
  | S n =>
      match pop stock with
      | None => (stock, waste)
      | Some (c, stock') => drawLoop n stock' (waste ++ [makeFaceUp c])
      end
  end.

(** JavaScript numbers are IEEE doubles.  Every integer of magnitude up to
    2^53 is a double; beyond, the doubles between [2^k] and [2^(k+1)] are
    the multiples of [2^(k-52)].  [roundNumber z] is the double nearest to
    the integer [z], a tie going to the even multiple, as the arithmetic of
    the source rounds (for magnitudes below 2^1024, where doubles end). *)
Definition roundNumber (z : Z) : Z :=
  if Z.abs z <=? 2 ^ 53 then z
  else
    let u := 2 ^ (Z.log2 (Z.abs z) - 52) in
    let q := Z.abs z / u in
    let r := Z.abs z mod u in
    let m :=
      if 2 * r <? u then q * u
      else if u <? 2 * r then (q + 1) * u
      else if Z.even q then q * u else (q + 1) * u in
    Z.sgn z * m.

(** [x + d] on numbers holding integers.  Adding 0 leaves every number as
    it is; this is also said of the integers of the model that are no
    doubles, which no number of the source holds. *)
Definition numberAdd (x d : Z) : Z :=
  if d =? 0 then x else roundNumber (x + d).

(** The closure [finalize]; [player] is the reducer's cloned and updated
    record of the acting player, stored back at [playerIndex];
    [player.score += scoreDelta] is an addition of numbers. *)
Definition finalize (state : NertsState) (playerIndex : nat)
    (player : NertsPlayerState) (foundations : list NertsFoundationPile)
    (scoreDelta : Z) (used : bool) : NertsState :=
  if negb used then state
  else
    let player :=
      {| pid := pid player; nertsPile := nertsPile player;
         tableau := tableau player; stock := stock player;
         waste := waste player;
         score := numberAdd (score player) scoreDelta |} in
    let win :=
      negb (finished state) && bool_decide (length (nertsPile player) = 0%nat) in
    {| players := <[playerIndex := player]> (clonePlayer <$> players state);
       foundations := foundations;
       startedAt := startedAt state;
       finished := if win then true else finished state;
       winnerId := if win then Some (pid player) else winnerId state |}.

Definition applyNertsAction (state : NertsState) (action : NertsAction) : NertsState :=
  if finished state then state
  else
    match findIndex (λ p, bool_decide (pid p = playerId action)) (players state) with
    | None => state
    | Some playerIndex =>
        let players := clonePlayer <$> players state in
        let foundations := cloneFoundations (foundations state) in
        match players !! playerIndex with
        | None => state
        | Some player =>
            match action with
            | stock_draw _ =>
                if bool_decide (0 < length (stock player))%nat then
                  let drawCount := Nat.min 3 (length (stock player)) in
                  let '(stock', waste') :=
                    drawLoop drawCount (stock player) (waste player) in
                  finalize state playerIndex
                    {| pid := pid player; nertsPile := nertsPile player;
                       tableau := tableau player; stock := stock';
                       waste := waste'; score := score player |}
                    foundations 0 true
                else if bool_decide (0 < length (waste player))%nat then
                  let recycled := makeFaceDown <$> reverse (waste player) in
                  finalize state playerIndex
                    {| pid := pid player; nertsPile := nertsPile player;
                       tableau := tableau player; stock := recycled;
                       waste := []; score := score player |}
                    foundations 0 true
                else finalize state playerIndex player foundations 0 false
            | waste_to_tableau _ tableauIndex =>
                match at_index (tableau player) tableauIndex with
                | None => state
                | Some dest =>
                    match top (waste player) with
                    | None => state
                    | Some t =>
                        if negb (canPlaceOnTableau (top dest) t false) then state
                        else
                          finalize state playerIndex
                            {| pid := pid player; nertsPile := nertsPile player;
                               tableau :=
                                 <[Z.to_nat tableauIndex := dest ++ [t]]> (tableau player);
                               stock := stock player;
                               waste := popped (waste player);
                               score := score player |}
                            foundations 0 true
                    end
                end
            | waste_to_foundation _ foundationIndex =>
                match at_index foundations foundationIndex with
                | None => state
                | Some f =>
                    match top (waste player) with
                    | None => state
                    | Some t =>
                        if negb (canPlaceOnFoundation f t) then state
                        else
                          finalize state playerIndex
                            {| pid := pid player; nertsPile := nertsPile player;
                               tableau := tableau player; stock := stock player;
                               waste := popped (waste player);
                               score := score player |}
                            (<[Z.to_nat foundationIndex := pushFoundation f t]> foundations)
                            1 true
                    end
                end
            | tableau_to_tableau _ fromIndex toIndex cardId =>
                match at_index (tableau player) fromIndex,
                      at_index (tableau player) toIndex with
                | Some fromPile, Some toPile =>
                    match findIndex (λ c, bool_decide (cid c = cardId)) fromPile with
                    | None => state
                    | Some idx =>
                        let moving := drop idx fromPile in
                        match moving with
                        | [] => state
                        | moving0 :: _ =>
                            if negb (faceUp moving0) then state
                            else
                              let destTop := top toPile in
                              if negb (canPlaceOnTableau destTop moving0 false) then state
                              else
                                let newFrom := flipTop (take idx fromPile) in
                                let tableau1 :=
                                  <[Z.to_nat fromIndex := newFrom]> (tableau player) in
                                let tableau2 :=
                                  <[Z.to_nat toIndex := toPile ++ moving]> tableau1 in
                                finalize state playerIndex
                                  {| pid := pid player; nertsPile := nertsPile player;
                                     tableau := tableau2; stock := stock player;
                                     waste := waste player; score := score player |}
                                  foundations 0 true
                        end
                    end
                | _, _ => state
                end
            | tableau_to_foundation _ fromIndex foundationIndex =>
                match at_index (tableau player) fromIndex,
                      at_index foundations foundationIndex with
                | Some fromPile, Some f =>
                    match top fromPile with
                    | None => state
                    | Some t =>
                        if negb (faceUp t) then state
                        else if negb (canPlaceOnFoundation f t) then state
                        else
                          finalize state playerIndex
                            {| pid := pid player; nertsPile := nertsPile player;
                               tableau :=
                                 <[Z.to_nat fromIndex := flipTop (popped fromPile)]>
                                   (tableau player);
                               stock := stock player; waste := waste player;
                               score := score player |}
                            (<[Z.to_nat foundationIndex := pushFoundation f t]> foundations)
                            1 true
                    end
                | _, _ => state
                end
            | nerts_to_tableau _ tableauIndex =>
                match at_index (tableau player) tableauIndex with
                | None => state
                | Some dest =>
                    match top (nertsPile player) with
                    | None => state
                    | Some t =>
                        if negb (faceUp t) then state
                        else if negb (canPlaceOnTableau (top dest) t true) then state
                        else
                          finalize state playerIndex
                            {| pid := pid player;
                               nertsPile := flipTop (popped (nertsPile player));
                               tableau :=
                                 <[Z.to_nat tableauIndex := dest ++ [t]]> (tableau player);
                               stock := stock player; waste := waste player;
                               score := score player |}
                            foundations 0 true
                    end
                end
            | nerts_to_foundation _ foundationIndex =>
                match at_index foundations foundationIndex with
                | None => state
                | Some f =>
                    match top (nertsPile player) with
                    | None => state
                    | Some t =>
                        if negb (faceUp t) then state
                        else if negb (canPlaceOnFoundation f t) then state
                        else
                          finalize state playerIndex
                            {| pid := pid player;
                               nertsPile := flipTop (popped (nertsPile player));
                               tableau := tableau player;
                               stock := stock player; waste := waste player;
                               score := score player |}
                            (<[Z.to_nat foundationIndex := pushFoundation f t]> foundations)
                            2 true
                    end
                end
            end
        end
    end.

(** ** Bot logic *)

(** [for (let i = 0; i < arr.length; i++) { ... return ...; }  return null]:
    the first index, counted from [i], whose body returns an action. *)
Fixpoint forFirst {A B} (body : nat → A → option B) (i : nat) (arr : list A) : option B :=
  match arr with
  | [] => None
  | x :: arr' =>
      match body i x with
      | Some b => Some b
      | None => forFirst body (S i) arr'
      end
  end.

Definition findNertsToFoundation (state : NertsState) (player : NertsPlayerState)
    : option NertsAction :=
  match top (nertsPile player) with
  | None => None
  | Some t =>
      if negb (faceUp t) then None
      else
        forFirst (λ i f,
          if canPlaceOnFoundation f t
          then Some (nerts_to_foundation (pid player) (Z.of_nat i))
          else None) 0 (foundations state)
  end.

Definition findNertsToTableau (state : NertsState) (player : NertsPlayerState)
    : option NertsAction :=
  match top (nertsPile player) with
  | None => None
  | Some t =>
      if negb (faceUp t) then None
      else
        forFirst (λ i dest,
          if canPlaceOnTableau (top dest) t true
          then Some (nerts_to_tableau (pid player) (Z.of_nat i))
          else None) 0 (tableau player)
  end.

Definition findTableauToFoundation (state : NertsState) (player : NertsPlayerState)
    : option NertsAction :=
  forFirst (λ t pile,
    match top pile with
    | None => None
    | Some c =>
        if negb (faceUp c) then None
        else
          forFirst (λ fIdx f,
            if canPlaceOnFoundation f c
            then Some (tableau_to_foundation (pid player) (Z.of_nat t) (Z.of_nat fIdx))
            else None) 0 (foundations state)
    end) 0 (tableau player).

Definition findWasteToFoundation (state : NertsState) (player : NertsPlayerState)
    : option NertsAction :=
  match top (waste player) with
  | None => None
  | Some t =>
      forFirst (λ fIdx f,
        if canPlaceOnFoundation f t
        then Some (waste_to_foundation (pid player) (Z.of_nat fIdx))
        else None) 0 (foundations state)
  end.

Definition findWasteToTableau (state : NertsState) (player : NertsPlayerState)
    : option NertsAction :=
  match top (waste player) with
  | None => None
  | Some t =>
      forFirst (λ i dest,
        if canPlaceOnTableau (top dest) t false
        then Some (waste_to_tableau (pid player) (Z.of_nat i))
        else None) 0 (tableau player)
  end.

Definition findTableauToTableau (state : NertsState) (player : NertsPlayerState)
    : option NertsAction :=
  forFirst (λ from pile,
    forFirst (λ idx card,
      if negb (faceUp card) then None
      else
        let cardBefore := if bool_decide (0 < idx)%nat then pile !! (idx - 1)%nat else None in
        match cardBefore with
        | None => None
        | Some cb =>
            if faceUp cb then None
            else
              forFirst (λ to dest,
                if bool_decide (to = from) then None
                else if canPlaceOnTableau (top dest) card false
                then Some (tableau_to_tableau (pid player)
                             (Z.of_nat from) (Z.of_nat to) (cid card))
                else None) 0 (tableau player)
        end) 0 pile) 0 (tableau player).

(** [a ?? b]. *)
Definition orElse {A} (a b : option A) : option A :=
  match a with Some x => Some x | None => b end.

Definition chooseAction (state : NertsState) (player : NertsPlayerState)
    (botId : PlayerId) : NertsAction :=
  default (stock_draw botId)
    (orElse (findNertsToFoundation state player)
    (orElse (findTableauToFoundation state player)
    (orElse (findWasteToFoundation state player)
    (orElse (findNertsToTableau state player)
    (orElse (findTableauToTableau state player)
            (findWasteToTableau state player)))))).

Definition botStep (state : NertsState) (botId : PlayerId) : NertsState :=
  if finished state then state
  else
    match list_find (λ p, pid p = botId) (players state) with
    | None => state
    | Some (_, player) => applyNertsAction state (chooseAction state player botId)
    end.

(** ** Derived notions used by the statements *)

(** Total number of cards held by a player, a foundation pool, a state. *)
Definition playerCards (p : NertsPlayerState) : nat :=
  (length (nertsPile p) + sum_list (length <$> tableau p)
   + length (stock p) + length (waste p))%nat.

Definition foundationCards (fs : list NertsFoundationPile) : nat :=
  sum_list ((λ f, length (cards f)) <$> fs).

Definition totalCards (s : NertsState) : nat :=
  (sum_list (playerCards <$> players s) + foundationCards (foundations s))%nat.

(** States of a game: [initNerts] followed by reducer steps. *)
Inductive reachable (config : NertsConfig) : NertsState → Prop :=
  | reachable_init rnd now : reachable config (initNerts config rnd now)
  | reachable_step s a :
      reachable config s → reachable config (applyNertsAction s a).

(** The state after a sequence of actions. *)
Definition applyAll (s : NertsState) (acts : list NertsAction) : NertsState :=
  foldl applyNertsAction s acts.

(** ** Small states for the examples *)

Definition card (o : PlayerId) (s : Suit) (r : Rank) (i : string) (up : bool)
    : NertsCard :=
  {| suit := s; rank := r; cid := i; ownerId := o; faceUp := up |}.

Definition emptyFoundation : NertsFoundationPile := {| fsuit := None; cards := [] |}.

Definition exA : NertsPlayerState :=
  {| pid := "a";
     nertsPile := [card "a" Hearts R5 "a1" false; card "a" Spades RA "a2" true];
     tableau := [[card "a" Spades RK "a3" true]; [card "a" Hearts RQ "a4" true];
                 []; [card "a" Clubs R7 "a5" true]];
     stock := [card "a" Diamonds R9 "a6" false; card "a" Clubs R2 "a7" false;
               card "a" Clubs R3 "a8" false; card "a" Diamonds R4 "a9" false];
     waste := [card "a" Spades RJ "a10" true];
     score := 0 |}.

Definition exB : NertsPlayerState :=
  {| pid := "b";
     nertsPile := [card "b" Hearts RA "b1" true];
     tableau := [[]; []; []; []];
     stock := [];
     waste := [];
     score := 3 |}.

Definition exState : NertsState :=
  {| players := [exA; exB];
     foundations := replicate 8 emptyFoundation;
     startedAt := 0;
     finished := false;
     winnerId := None |}.

(** The acting player's record with new piles (the score is settled by
    [finalize]). *)
Definition withPiles (p : NertsPlayerState) (n : list NertsCard)
    (t : list (list NertsCard)) (st w : list NertsCard) : NertsPlayerState :=
  {| pid := pid p; nertsPile := n; tableau := t; stock := st; waste := w;
     score := score p |}.

(** The player an action resolves to: [players[findIndex(p => p.id === id)]]. *)
Definition actingIndex (s : NertsState) (a : NertsAction) : option nat :=
  findIndex (λ p, bool_decide (pid p = playerId a)) (players s).

Definition actingPlayer (s : NertsState) (a : NertsAction) : option NertsPlayerState :=
  i ← actingIndex s a; players s !! i.

(** An action is accepted when the reducer returns a state other than its
    input. *)
Definition accepted (s : NertsState) (a : NertsAction) : Prop :=
  applyNertsAction s a ≠ s.

(** ** The specification's words

    The preconditions of the action table and the placement rules, written
    from the documentation, to be compared with the reducer. *)

(** "empty column accepts only rank=King; non-empty column accepts a card
    whose color differs from the current top's color and whose rank is
    exactly one less than the top's rank". *)
Definition tableauRule (destTop : option NertsCard) (c : NertsCard) : Prop :=
  match destTop with
  | None => rank c = RK
  | Some d =>
      isRedSuit (suit c) ≠ isRedSuit (suit d) ∧
      getRankValue (rank c) = getRankValue (rank d) - 1
  end.

(** "empty slot accepts only rank=Ace; non-empty slot accepts only the same
    suit ... and rank = current top's rank + 1". *)
Definition foundationRule (f : NertsFoundationPile) (c : NertsCard) : Prop :=
  match top (cards f) with
  | None => rank c = RA
  | Some t =>
      suit c = suit t ∧ getRankValue (rank c) = getRankValue (rank t) + 1
  end.

(** The precondition column of the action table, for the acting player
    [p]; indices out of range leave it unmet. *)
Definition playerCan (s : NertsState) (p : NertsPlayerState) (a : NertsAction) : bool :=
  match a with
  | stock_draw _ =>
      negb (bool_decide (stock p = [])) || negb (bool_decide (waste p = []))
  | waste_to_tableau _ ti =>
      match at_index (tableau p) ti, top (waste p) with
      | Some dest, Some c => canPlaceOnTableau (top dest) c false
      | _, _ => false
      end
  | waste_to_foundation _ fi =>
      match at_index (foundations s) fi, top (waste p) with
      | Some f, Some c => canPlaceOnFoundation f c
      | _, _ => false
      end
  | tableau_to_tableau _ from to cardId =>
      match at_index (tableau p) from, at_index (tableau p) to with
      | Some fromPile, Some toPile =>
          match findIndex (λ c, bool_decide (cid c = cardId)) fromPile with
          | Some idx =>
              match fromPile !! idx with
              | Some c => faceUp c && canPlaceOnTableau (top toPile) c false
              | None => false
              end
          | None => false
          end
      | _, _ => false
      end
  | tableau_to_foundation _ from fi =>
      match at_index (tableau p) from, at_index (foundations s) fi with
      | Some fromPile, Some f =>
          match top fromPile with
          | Some c => faceUp c && canPlaceOnFoundation f c
          | None => false
          end
      | _, _ => false
      end
  | nerts_to_tableau _ ti =>
      match at_index (tableau p) ti, top (nertsPile p) with
      | Some dest, Some c => faceUp c && canPlaceOnTableau (top dest) c true
      | _, _ => false
      end
  | nerts_to_foundation _ fi =>
      match at_index (foundations s) fi, top (nertsPile p) with
      | Some f, Some c => faceUp c && canPlaceOnFoundation f c
      | _, _ => false
      end
  end.

(** An action's precondition: the game is in progress, the player is
    known, and the table's condition holds for that player. *)
Definition precondition (s : NertsState) (a : NertsAction) : bool :=
  negb (finished s) &&
  match actingPlayer s a with
  | None => false
  | Some p => playerCan s p a
  end.

(** The score column of the action table. *)
Definition scoreDelta (a : NertsAction) : Z :=
  match a with
  | waste_to_foundation _ _ | tableau_to_foundation _ _ _ => 1
  | nerts_to_foundation _ _ => 2
  | stock_draw _ | waste_to_tableau _ _ | tableau_to_tableau _ _ _ _
  | nerts_to_tableau _ _ => 0
  end.

(** ** Invariants of a game *)

(** Ranks go down by one from each card of a column to the card on it. *)
Definition descending (col : list NertsCard) : Prop :=
  ∀ i d c, col !! i = Some d → col !! S i = Some c →
           getRankValue (rank c) = getRankValue (rank d) - 1.

Definition allUp (l : list NertsCard) : Prop := Forall (λ c, faceUp c = true) l.

(** No face-down card lies above a face-up card. *)
Definition upSuffix (col : list NertsCard) : Prop :=
  ∀ i j ci cj, col !! i = Some ci → col !! j = Some cj → (i ≤ j)%nat →
               faceUp ci = true → faceUp cj = true.

Definition playerOk (p : NertsPlayerState) : Prop :=
  Forall descending (tableau p) ∧ Forall allUp (tableau p) ∧ allUp (waste p).

(** A slot reads A, 2, ..., n in the suit recorded for it. *)
Definition foundationOk (f : NertsFoundationPile) : Prop :=
  (∀ i c, cards f !! i = Some c →
          getRankValue (rank c) = Z.of_nat i + 1 ∧ fsuit f = Some (suit c)) ∧
  (cards f = [] → fsuit f = None).

Definition stateOk (s : NertsState) : Prop :=
  Forall playerOk (players s) ∧ Forall foundationOk (foundations s).

(** A state outside any game: a face-down card lies on a face-up one. *)
Definition exCovered : NertsState :=
  {| players :=
       [ {| pid := "a";
            nertsPile := [card "a" Hearts R5 "a1" true];
            tableau := [[card "a" Hearts RQ "x1" true; card "a" Clubs R5 "x2" false];
                        [card "a" Spades RK "x3" true]; []; []];
            stock := [];
            waste := [];
            score := 0 |} ];
     foundations := replicate 4 emptyFoundation;
     startedAt := 0;
     finished := false;
     winnerId := None |}.

(** ** The bot's priority cascade, from the documentation *)

Inductive Category :=
  | NertsToFoundation | TableauToFoundation | WasteToFoundation
  | NertsToTableau | TableauToTableau | WasteToTableau | StockDraw.

Definition priority (k : Category) : nat :=
  match k with
  | NertsToFoundation => 1 | TableauToFoundation => 2 | WasteToFoundation => 3
  | NertsToTableau => 4 | TableauToTableau => 5 | WasteToTableau => 6
  | StockDraw => 7
  end.

(** "only if moving it would expose a currently face-down card": the
    card immediately beneath the named card is face-down. *)
Definition exposes (p : NertsPlayerState) (from : Z) (cardId : string) : Prop :=
  ∃ pile idx cb,
    at_index (tableau p) from = Some pile ∧
    findIndex (λ c, bool_decide (cid c = cardId)) pile = Some (S idx) ∧
    pile !! idx = Some cb ∧ faceUp cb = false.

(** The actions of player [p] that step [k] of the cascade considers. *)
Definition inCategory (p : NertsPlayerState) (k : Category) (a : NertsAction) : Prop :=
  playerId a = pid p ∧
  match k, a with
  | NertsToFoundation, nerts_to_foundation _ _ => True
  | TableauToFoundation, tableau_to_foundation _ _ _ => True
  | WasteToFoundation, waste_to_foundation _ _ => True
  | NertsToTableau, nerts_to_tableau _ _ => True
  | TableauToTableau, tableau_to_tableau _ from to cardId =>
      from ≠ to ∧ exposes p from cardId
  | WasteToTableau, waste_to_tableau _ _ => True
  | StockDraw, stock_draw _ => True
  | _, _ => False
  end.

(** [a] is an action of the first step of the cascade that has a feasible
    action; the last step, drawing, is taken when no other has one. *)
Definition firstFeasible (s : NertsState) (p : NertsPlayerState) (a : NertsAction) : Prop :=
  ∃ k, inCategory p k a ∧
       (k = StockDraw ∨ precondition s a = true) ∧
       ∀ k' a', (priority k' < priority k)%nat → inCategory p k' a' →
                precondition s a' = false.

(** Card ids are distinct within each tableau column of the player. *)
Definition wellTagged (p : NertsPlayerState) : Prop :=
  Forall (λ col, NoDup (cid <$> col)) (tableau p).

(** The player [botStep] resolves: [state.players.find(p => p.id === botId)]. *)
Definition resolvePlayer (s : NertsState) (botId : PlayerId) : option NertsPlayerState :=
  snd <$> list_find (λ p, pid p = botId) (players s).

(** A state in which only step 5 of the cascade (and a draw) is feasible. *)
Definition exBotPlayer : NertsPlayerState :=
  {| pid := "a";
     nertsPile := [card "a" Hearts R5 "n1" true];
     tableau := [[card "a" Clubs R9 "t1" false; card "a" Hearts RQ "t2" true];
                 [card "a" Spades RK "t3" true];
                 [card "a" Diamonds R2 "t4" true];
                 [card "a" Hearts R2 "t5" true]];
     stock := [card "a" Clubs R3 "k1" false];
     waste := [];
     score := 0 |}.

Definition exBot : NertsState :=
  {| players := [exBotPlayer];
     foundations := replicate 4 emptyFoundation;
     startedAt := 0;
     finished := false;
     winnerId := None |}.

(** The same with the two cards of the first column sharing an id. *)
Definition exTwinsPlayer : NertsPlayerState :=
  {| pid := "a";
     nertsPile := [card "a" Hearts R5 "n1" true];
     tableau := [[card "a" Clubs R9 "t2" false; card "a" Hearts RQ "t2" true];
                 [card "a" Spades RK "t3" true];
                 [card "a" Diamonds R2 "t4" true];
                 [card "a" Hearts R2 "t5" true]];
     stock := [card "a" Clubs R3 "k1" false];
     waste := [];
     score := 0 |}.

Definition exTwins : NertsState :=
  {| players := [exTwinsPlayer];
     foundations := replicate 4 emptyFoundation;
     startedAt := 0;
     finished := false;
     winnerId := None |}.

(** ** The reducer as a step relation

    [moves p fs a p' fs' d]: on the acting player's record [p] and the
    foundation pool [fs], action [a] passes every guard of its [case] and
    leaves the record [p'], the pool [fs'] and the score delta [d]. *)

Inductive moves (p : NertsPlayerState) (fs : list NertsFoundationPile)
    : NertsAction → NertsPlayerState → list NertsFoundationPile → Z → Prop :=
  | moves_draw id :
      stock p ≠ [] →
      let k := Nat.min 3 (length (stock p)) in
      moves p fs (stock_draw id)
        (withPiles p (nertsPile p) (tableau p)
           (take (length (stock p) - k) (stock p))
           (waste p ++ (makeFaceUp <$> reverse (drop (length (stock p) - k) (stock p)))))
        fs 0
  | moves_recycle id :
      stock p = [] → waste p ≠ [] →
      moves p fs (stock_draw id)
        (withPiles p (nertsPile p) (tableau p)
           (makeFaceDown <$> reverse (waste p)) [])
        fs 0
  | moves_waste_to_tableau id ti dest w c :
      at_index (tableau p) ti = Some dest →
      waste p = w ++ [c] →
      canPlaceOnTableau (top dest) c false = true →
      moves p fs (waste_to_tableau id ti)
        (withPiles p (nertsPile p) (<[Z.to_nat ti := dest ++ [c]]> (tableau p))
           (stock p) w)
        fs 0
  | moves_waste_to_foundation id fi f w c :
      at_index fs fi = Some f →
      waste p = w ++ [c] →
      canPlaceOnFoundation f c = true →
      moves p fs (waste_to_foundation id fi)
        (withPiles p (nertsPile p) (tableau p) (stock p) w)
        (<[Z.to_nat fi := pushFoundation f c]> fs) 1
  | moves_tableau_to_tableau id from to cardId toPile keep c run :
      at_index (tableau p) from = Some (keep ++ c :: run) →
      at_index (tableau p) to = Some toPile →
      findIndex (λ x, bool_decide (cid x = cardId)) (keep ++ c :: run)
        = Some (length keep) →
      faceUp c = true →
      canPlaceOnTableau (top toPile) c false = true →
      moves p fs (tableau_to_tableau id from to cardId)
        (withPiles p (nertsPile p)
           (<[Z.to_nat to := toPile ++ c :: run]>
              (<[Z.to_nat from := flipTop keep]> (tableau p)))
           (stock p) (waste p))
        fs 0
  | moves_tableau_to_foundation id from fi f keep c :
      at_index (tableau p) from = Some (keep ++ [c]) →
      at_index fs fi = Some f →
      faceUp c = true →
      canPlaceOnFoundation f c = true →
      moves p fs (tableau_to_foundation id from fi)
        (withPiles p (nertsPile p)
           (<[Z.to_nat from := flipTop keep]> (tableau p)) (stock p) (waste p))
        (<[Z.to_nat fi := pushFoundation f c]> fs) 1
  | moves_nerts_to_tableau id ti dest n c :
      at_index (tableau p) ti = Some dest →
      nertsPile p = n ++ [c] →
      faceUp c = true →
      canPlaceOnTableau (top dest) c true = true →
      moves p fs (nerts_to_tableau id ti)
        (withPiles p (flipTop n) (<[Z.to_nat ti := dest ++ [c]]> (tableau p))
           (stock p) (waste p))
        fs 0
  | moves_nerts_to_foundation id fi f n c :
      at_index fs fi = Some f →
      nertsPile p = n ++ [c] →
      faceUp c = true →
      canPlaceOnFoundation f c = true →
      moves p fs (nerts_to_foundation id fi)
        (withPiles p (flipTop n) (tableau p) (stock p) (waste p))
        (<[Z.to_nat fi := pushFoundation f c]> fs) 2.

(** ** Weighing the cards of a state

    [totalWeight w s] adds [w c] over every card [c] of every container.
    With [w] constantly 1 it counts the cards; with the indicator of one
    card it counts how often that card occurs. *)

Definition weigh (w : NertsCard → nat) (l : list NertsCard) : nat :=
  sum_list (w <$> l).

Definition playerWeight (w : NertsCard → nat) (p : NertsPlayerState) : nat :=
  (weigh w (nertsPile p) + sum_list (weigh w <$> tableau p)
   + weigh w (stock p) + weigh w (waste p))%nat.

Definition foundationWeight (w : NertsCard → nat) (fs : list NertsFoundationPile) : nat :=
  sum_list ((λ f, weigh w (cards f)) <$> fs).

Definition totalWeight (w : NertsCard → nat) (s : NertsState) : nat :=
  (sum_list (playerWeight w <$> players s) + foundationWeight w (foundations s))%nat.

(** A weight that does not see which side of a card is up. *)
Definition faceBlind (w : NertsCard → nat) : Prop :=
  ∀ c, w (makeFaceUp c) = w c ∧ w (makeFaceDown c) = w c.

(** The same dealt card, whichever side is up. *)
Definition sameCard (k c : NertsCard) : bool :=
  bool_decide (makeFaceDown c = makeFaceDown k).

(** In how many places of the state the card [k] lies. *)
Definition occurrences (k : NertsCard) (s : NertsState) : nat :=
  totalWeight (λ c, if sameCard k c then 1%nat else 0%nat) s.

(** ** Notions for the further properties *)

#[global] Instance Card_eq_dec : EqDecision Card.
Proof. solve_decision. Defined.

(** The plain card under a tagged one. *)
Definition cardOf (c : NertsCard) : Card := mkCard (suit c) (rank c).

(** All cards a player holds, pile after pile. *)
Definition playerCardList (p : NertsPlayerState) : list NertsCard :=
  nertsPile p ++ concat (tableau p) ++ stock p ++ waste p.

Definition allDown (l : list NertsCard) : Prop := Forall (λ c, faceUp c = false) l.

(** Exactly the top card of the pile is face-up. *)
Definition onlyTopUp (l : list NertsCard) : Prop :=
  ∀ i c, l !! i = Some c → faceUp c = bool_decide (S i = length l).

(** How the faces lie in a game. *)
Definition facesOk (p : NertsPlayerState) : Prop :=
  onlyTopUp (nertsPile p) ∧ Forall allUp (tableau p) ∧
  allDown (stock p) ∧ allUp (waste p).

(** The sum of all players' scores. *)
Definition totalScore (s : NertsState) : Z :=
  foldr Z.add 0 (score <$> players s).

(** The state after the player at index [i], whose record in [s] is [p]
    with an empty waste, has drawn [k] cards of the stock. *)
Definition drawnState (s : NertsState) (i : nat) (p : NertsPlayerState) (k : nat)
    : NertsState :=
  {| players :=
       <[i := withPiles p (nertsPile p) (tableau p)
                (take (length (stock p) - k) (stock p))
                (makeFaceUp <$> reverse (drop (length (stock p) - k) (stock p)))]>
         (players s);
     foundations := foundations s;
     startedAt := startedAt s;
     finished := finished s;
     winnerId := winnerId s |}.

(** A player with four face-down stock cards and an empty waste. *)
Definition exCycle : NertsState :=
  {| players :=
       [ {| pid := "a";
            nertsPile := [card "a" Hearts R5 "n1" true];
            tableau := [[]; []; []; []];
            stock := [card "a" Diamonds R9 "k1" false; card "a" Clubs R2 "k2" false;
                      card "a" Clubs R3 "k3" false; card "a" Diamonds R4 "k4" false];
            waste := [];
            score := 0 |} ];
     foundations := replicate 4 emptyFoundation;
     startedAt := 0;
     finished := false;
     winnerId := None |}.

(** In a game a player's score is at most two for each of the 52 cards
    the player holds no longer. *)
Definition scoreOk (p : NertsPlayerState) : Prop :=
  0 ≤ score p ∧ score p + 2 * Z.of_nat (playerCards p) ≤ 104.

(** The first example with the first player's score at 2^54. *)
Definition exRich : NertsState :=
  {| players :=
       [ {| pid := pid exA; nertsPile := nertsPile exA; tableau := tableau exA;
            stock := stock exA; waste := waste exA; score := 2 ^ 54 |};
         exB ];
     foundations := replicate 8 emptyFoundation;
     startedAt := 0;
     finished := false;
     winnerId := None |}.

(** ** Games for the examples *)

(** Shuffle draws that leave the deck as [createDeck] made it but for its
    first thirteen cards, the spades, which they reverse: the Nerts pile
    dealt from it has the ace on top and the spades in order under it. *)
Definition rndSpades (i : nat) : nat :=
  if bool_decide (7 ≤ i ≤ 12)%nat then (12 - i)%nat else i.

(** Two players, both dealt from that deck. *)
Definition exDeal : NertsState :=
  initNerts (mkConfig ["a"; "b"]) (λ _, rndSpades) 0.

(** Player "a" has played twelve spades from the Nerts pile to the first
    foundation slot, player "b" the ace of hearts from the tableau to the
    second. *)
Definition exLate : NertsState :=
  applyAll exDeal
    (replicate 12 (nerts_to_foundation "a" 0) ++ [tableau_to_foundation "b" 0 1]).

(** Player "a" has played the king as well, and won. *)
Definition exWon : NertsState :=
  applyNertsAction exLate (nerts_to_foundation "a" 0).

(** Player "a" has drawn the whole stock onto the waste. *)
Definition exDrawn : NertsState :=
  applyAll exDeal (replicate 12 (stock_draw "a")).

(** Shuffle draws that bring the seven of spades, the six of hearts and the
    eight of diamonds to places 13, 14 and 15 of the deck, the first three
    tableau columns. *)
Definition rndRun (i : nat) : nat :=
  match i with
  | 33 => 15 | 18 => 14 | 13 => 6 | _ => i
  end%nat.

(** A game in which player "a" has put the six on the seven. *)
Definition exRun : NertsState :=
  applyNertsAction (initNerts (mkConfig ["a"; "b"]) (λ _, rndRun) 0)
    (tableau_to_tableau "a" 1 0 "a-6♥-14").

(** ** NertsView.tsx: the bot loop

    The state updater of one timer tick.  [skip k] tells whether the draw
    [Math.random() > botSkill] made for the [k]-th player came out true.
    The loop runs over the players of the state the tick started from. *)

Definition HUMAN_ID : PlayerId := "you".

Definition botTick (skip : nat → bool) (prev : NertsState) : NertsState :=
  if finished prev then prev
  else
    foldl (λ s kp,
             if bool_decide (pid kp.2 ≠ HUMAN_ID) then
               if skip kp.1 then s else botStep s (pid kp.2)
             else s)
          prev (imap pair (players prev)).

(** The indicator weight of the cards that carry [x] under [key]: with it
    [playerWeight] counts how many of a player's cards carry [x]. *)
Definition keyWeight {K} `{EqDecision K} (key : NertsCard → K) (x : K)
    (c : NertsCard) : nat :=
  if decide (key c = x) then 1%nat else 0%nat.

(** * blackjack.ts

    The blackjack engine shares [createDeck] and [shuffle] with Nerts.  Its
    functions throw, so they return a [Result].  A deck is an array whose
    top is its last element ([dealOne] pops).  Seat numbers are array
    indices counted up by the engine, hence natural numbers; head counts of
    a configuration are integers. *)

Module Blackjack.

(** What the engine throws:
    [`Invalid player index: ${index}`],
    ["Tried to deal from an empty deck"],
    ["numHumans and numBots must be >= 0"]. *)
Inductive Error :=
  | InvalidPlayerIndex (index : nat)
  | EmptyDeck
  | NegativeCount.

Inductive Result (A : Type) :=
  | Ok (a : A)
  | Throw (e : Error).
Arguments Ok {A} a.
Arguments Throw {A} e.

#[global] Instance Result_bind : MBind Result := λ A B f r,
  match r with
  | Ok a => f a
  | Throw e => Throw e
  end.

#[global] Instance Result_ret : MRet Result := λ A a, Ok a.

(** [numBots], [humanNames], [botNames] and [dealerName] are optional. *)
Record BlackjackConfig := mkConfig {
  numHumans : Z;
  numBots : option Z;
  humanNames : option (list string);
  botNames : option (list string);
  dealerName : option string
}.

Record BlackjackPlayer := mkPlayer {
  pid : string;
  hand : list Card;
  isDealer : bool;
  isBot : bool;
  standing : bool;
  busted : bool;
  isBlackjack : bool;
  hasTwentyOne : bool
}.

Record BlackjackState := mkState {
  deck : list Card;
  players : list BlackjackPlayer;
  currentPlayerIndex : nat;
  finished : bool
}.

(** [cards.ts], [dealOne]: the popped card and the deck it leaves. *)
Definition dealOne (deck : list Card) : Result (Card * list Card) :=
  match pop deck with
  | Some (card, deck') => Ok (card, deck')
  | None => Throw EmptyDeck
  end.

Definition getPlayer (players : list BlackjackPlayer) (index : nat)
    : Result BlackjackPlayer :=
  match players !! index with
  | Some p => Ok p
  | None => Throw (InvalidPlayerIndex index)
  end.

(** [cardValue]; the last line is [parseInt(card.rank, 10)]. *)
Definition cardValue (card : Card) : list Z :=
  match crank card with
  | RA => [1; 11]
  | RJ | RQ | RK => [10]
  | R2 => [2] | R3 => [3] | R4 => [4] | R5 => [5] | R6 => [6]
  | R7 => [7] | R8 => [8] | R9 => [9] | R10 => [10]
  end.

(** [Array.from(new Set(xs))]: first occurrences, in insertion order. *)
Definition fromSet (xs : list Z) : list Z :=
  foldl (λ acc x, if decide (x ∈ acc) then acc else acc ++ [x]) [] xs.

(** One round of the outer loop of [handScore]. *)
Definition nextTotals (totals : list Z) (card : Card) : list Z :=
  fromSet (t ← totals; v ← cardValue card; [t + v]).

Definition handTotals (hand : list Card) : list Z := foldl nextTotals [0] hand.

(** [Math.max(x, ...xs)] and [Math.min(x, ...xs)]. *)
Definition mathMax (x : Z) (xs : list Z) : Z := foldl Z.max x xs.
Definition mathMin (x : Z) (xs : list Z) : Z := foldl Z.min x xs.

(** [handScore].  [totals] is never empty ([handTotals_nonempty]), so the
    last case, where [Math.min()] would be [Infinity], is never taken. *)
Definition handScore (hand : list Card) : Z :=
  let totals := handTotals hand in
  match filter (λ t, t ≤ 21) totals, totals with
  | v :: vs, _ => mathMax v vs
  | [], t :: ts => mathMin t ts
  | [], [] => 0
  end.

Definition isBusted (hand : list Card) : bool := bool_decide (21 < handScore hand).

Definition isNaturalBlackjack (hand : list Card) : bool :=
  bool_decide (length hand = 2%nat) && bool_decide (handScore hand = 21).

Definition isPlayerDone (p : BlackjackPlayer) : bool :=
  busted p || standing p || hasTwentyOne p || isBlackjack p.

(** The record pushed for a seat by [initBlackjack]. *)
Definition newPlayer (name : string) (dealer bot : bool) (hand : list Card)
    : BlackjackPlayer :=
  let score := handScore hand in
  let natural := isNaturalBlackjack hand in
  let has21 := bool_decide (score = 21) in
  {| pid := name; hand := hand; isDealer := dealer; isBot := bot;
     standing := has21; busted := false;
     isBlackjack := natural; hasTwentyOne := has21 |}.

(** [[dealOne(deck), dealOne(deck)]]. *)
Definition dealTwo (deck : list Card) : Result (list Card * list Card) :=
  '(c1, deck) ← dealOne deck;
  '(c2, deck) ← dealOne deck;
  mret ([c1; c2], deck).

(** The loops [for (let i = 0; i < n; i++)] that seat the humans and the
    bots: [count] rounds are left, [i] is the loop variable. *)
Fixpoint seatLoop (bot : bool) (names : list string) (prefix : string)
    (count i : nat) (deck : list Card) (players : list BlackjackPlayer)
    : Result (list Card * list BlackjackPlayer) :=
  match count with
  | O => Ok (deck, players)
  | S count =>
      '(hand, deck) ← dealTwo deck;
      let name := default (prefix +:+ pretty (i + 1)%nat) (names !! i) in
      seatLoop bot names prefix count (S i) deck
        (players ++ [newPlayer name false bot hand])
  end.

(** [initBlackjack]; [rnd] is the shuffle oracle. *)
Definition initBlackjack (rnd : nat → nat) (config : BlackjackConfig)
    : Result BlackjackState :=
  let numHumans := numHumans config in
  let numBots := default 0 (numBots config) in
  let humanNames := default [] (humanNames config) in
  let botNames := default [] (botNames config) in
  let dealerName := default "Dealer" (dealerName config) in
  if bool_decide (numHumans < 0 ∨ numBots < 0) then Throw NegativeCount
  else
    let totalPlayers := numHumans + numBots in
    let deck := shuffle rnd createDeck in
    '(dealerHand, deck) ← dealTwo deck;
    let players := [newPlayer dealerName true false dealerHand] in
    '(deck, players) ← seatLoop false humanNames "H" (Z.to_nat numHumans) 0 deck players;
    '(deck, players) ← seatLoop true botNames "B" (Z.to_nat numBots) 0 deck players;
    Ok {| deck := deck; players := players;
          currentPlayerIndex := if bool_decide (0 < totalPlayers) then 1%nat else 0%nat;
          finished := false |}.

(** What [hit] writes to the record of the current player, who takes
    [card]. *)
Definition takeCard (current : BlackjackPlayer) (card : Card) : BlackjackPlayer :=
  let hand' := hand current ++ [card] in
  let busted' := isBusted hand' in
  if busted' then
    {| pid := pid current; hand := hand'; isDealer := isDealer current;
       isBot := isBot current; standing := standing current;
       busted := true; isBlackjack := isBlackjack current;
       hasTwentyOne := hasTwentyOne current |}
  else
    let score := handScore hand' in
    let natural := isNaturalBlackjack hand' in
    let has21 := bool_decide (score = 21) in
    {| pid := pid current; hand := hand'; isDealer := isDealer current;
       isBot := isBot current;
       standing := if has21 then true else standing current;
       busted := false;
       isBlackjack := isBlackjack current || natural;
       hasTwentyOne := has21 |}.

(** What [stand] writes to the record of the current player. *)
Definition stood (current : BlackjackPlayer) : BlackjackPlayer :=
  {| pid := pid current; hand := hand current; isDealer := isDealer current;
     isBot := isBot current; standing := true; busted := busted current;
     isBlackjack := isBlackjack current;
     hasTwentyOne := hasTwentyOne current |}.

(** [hit]: the current player, when not done, takes the top card.  The
    player is looked up before anything else, the deck is popped last. *)
Definition hit (prev : BlackjackState) : Result BlackjackState :=
  if finished prev then Ok prev
  else
    current ← getPlayer (players prev) (currentPlayerIndex prev);
    if isPlayerDone current then Ok prev
    else
      '(card, deck) ← dealOne (deck prev);
      Ok {| deck := deck;
            players :=
              <[currentPlayerIndex prev := takeCard current card]> (players prev);
            currentPlayerIndex := currentPlayerIndex prev;
            finished := finished prev |}.

(** [stand]. *)
Definition stand (prev : BlackjackState) : Result BlackjackState :=
  if finished prev then Ok prev
  else
    current ← getPlayer (players prev) (currentPlayerIndex prev);
    if isPlayerDone current then Ok prev
    else
      Ok {| deck := deck prev;
            players :=
              <[currentPlayerIndex prev := stood current]> (players prev);
            currentPlayerIndex := currentPlayerIndex prev;
            finished := finished prev |}.

Definition withCurrent (s : BlackjackState) (idx : nat) : BlackjackState :=
  {| deck := deck s; players := players s; currentPlayerIndex := idx;
     finished := finished s |}.

Definition withFinished (s : BlackjackState) : BlackjackState :=
  {| deck := deck s; players := players s;
     currentPlayerIndex := currentPlayerIndex s; finished := true |}.

(** The loop [while (true)] of [nextPlayer], entered with [idx]; [fuel]
    bounds the number of rounds, and [None] means it ran out. *)
Fixpoint nextPlayerLoop (fuel : nat) (prev : BlackjackState) (idx : nat)
    : option BlackjackState :=
  match fuel with
  | O => None
  | S fuel =>
      let idx := S idx in
      if bool_decide (length (players prev) ≤ idx)%nat then
        if bool_decide (currentPlayerIndex prev = 0%nat)
        then Some (withFinished prev)
        else Some (withCurrent prev 0)
      else
        match players prev !! idx with
        | None => nextPlayerLoop fuel prev idx
        | Some p =>
            if negb (isPlayerDone p) then Some (withCurrent prev idx)
            else nextPlayerLoop fuel prev idx
        end
  end.

Definition nextPlayer (fuel : nat) (prev : BlackjackState) : option BlackjackState :=
  if finished prev then Some prev
  else nextPlayerLoop fuel prev (currentPlayerIndex prev).

(** [allNonDealerDone]: [state.players.slice(1).every(isPlayerDone)]. *)
Definition allNonDealerDone (state : BlackjackState) : bool :=
  forallb isPlayerDone (drop 1 (players state)).

(** The loop of [dealerAutoPlay]; [None] when the fuel runs out. *)
Fixpoint dealerLoop (fuel : nat) (s : BlackjackState) (dealer : BlackjackPlayer)
    : option (Result (BlackjackState * BlackjackPlayer)) :=
  match fuel with
  | O => None
  | S fuel =>
      if negb (busted dealer) && bool_decide (handScore (hand dealer) < 17) then
        match hit s with
        | Throw e => Some (Throw e)
        | Ok s' =>
            match getPlayer (players s') 0 with
            | Throw e => Some (Throw e)
            | Ok dealer' => dealerLoop fuel s' dealer'
            end
        end
      else Some (Ok (s, dealer))
  end.

(** What [dealerAutoPlay] writes to the dealer's record after its loop,
    [score] being the score read just before. *)
Definition settled (dealer : BlackjackPlayer) (score : Z) : BlackjackPlayer :=
  {| pid := pid dealer; hand := hand dealer;
     isDealer := isDealer dealer; isBot := isBot dealer;
     standing := true; busted := busted dealer;
     isBlackjack := isBlackjack dealer || isNaturalBlackjack (hand dealer);
     hasTwentyOne := hasTwentyOne dealer || bool_decide (score = 21) |}.

(** [dealerAutoPlay].  The flags set after the loop are written to the
    record at seat 0 of the array the returned state holds. *)
Definition dealerAutoPlay (fuel : nat) (state : BlackjackState)
    : option (Result BlackjackState) :=
  match getPlayer (players state) 0 with
  | Throw e => Some (Throw e)
  | Ok dealer =>
      if isPlayerDone dealer then Some (Ok (withFinished state))
      else
        match dealerLoop fuel state dealer with
        | None => None
        | Some (Throw e) => Some (Throw e)
        | Some (Ok (s, dealer)) =>
            if negb (busted dealer) then
              let score := handScore (hand dealer) in
              match getPlayer (players s) 0 with
              | Throw e => Some (Throw e)
              | Ok dealer =>
                  Some (Ok (withFinished
                              {| deck := deck s;
                                 players :=
                                   <[0%nat := settled dealer score]> (players s);
                                 currentPlayerIndex := currentPlayerIndex s;
                                 finished := finished s |}))
              end
            else Some (Ok (withFinished s))
        end
  end.

(** The loop of [botAutoPlay]. *)
Fixpoint botLoop (fuel : nat) (s : BlackjackState) (current : BlackjackPlayer)
    : option (Result BlackjackState) :=
  match fuel with
  | O => None
  | S fuel =>
      if negb (isPlayerDone current) then
        let score := handScore (hand current) in
        match (if bool_decide (score < 16) then hit s else stand s) with
        | Throw e => Some (Throw e)
        | Ok s' =>
            match getPlayer (players s') (currentPlayerIndex s') with
            | Throw e => Some (Throw e)
            | Ok current' => botLoop fuel s' current'
            end
        end
      else Some (Ok s)
  end.

Definition botAutoPlay (fuel : nat) (state : BlackjackState)
    : option (Result BlackjackState) :=
  match getPlayer (players state) (currentPlayerIndex state) with
  | Throw e => Some (Throw e)
  | Ok current =>
      if negb (isBot current) || isDealer current then Some (Ok state)
      else botLoop fuel state current
  end.

(** ** BlackjackView.tsx: [advanceNonHumanTurns]

    The view's driver: it lets bots and dealer play until a human has to
    act or the round is over.  [fuel] bounds the rounds of its own loop,
    [inner] those of the loops of the engine functions it calls. *)
Fixpoint advanceNonHumanTurns (fuel inner : nat) (s : BlackjackState)
    : option (Result BlackjackState) :=
  match fuel with
  | O => None
  | S fuel =>
      if finished s then Some (Ok s)
      else if allNonDealerDone s then dealerAutoPlay inner s
      else
        match players s !! currentPlayerIndex s with
        | None => Some (Ok s)
        | Some current =>
            if isDealer current then dealerAutoPlay inner s
            else
              let done :=
                busted current || standing current || hasTwentyOne current
                || isBlackjack current in
              if negb (isBot current) then
                if done then
                  match nextPlayer inner s with
                  | None => None
                  | Some s' => advanceNonHumanTurns fuel inner s'
                  end
                else Some (Ok s)
              else if done then
                match nextPlayer inner s with
                | None => None
                | Some s' => advanceNonHumanTurns fuel inner s'
                end
              else
                match botAutoPlay inner s with
                | None => None
                | Some (Throw e) => Some (Throw e)
                | Some (Ok s1) =>
                    match nextPlayer inner s1 with
                    | None => None
                    | Some s2 => advanceNonHumanTurns fuel inner s2
                    end
                end
        end
  end.

(** ** Notions for the properties of the blackjack engine *)

(** The value of a card with an ace counted as 1. *)
Definition hardValue (card : Card) : Z :=
  match crank card with
  | RA => 1
  | R2 => 2 | R3 => 3 | R4 => 4 | R5 => 5 | R6 => 6 | R7 => 7 | R8 => 8
  | R9 => 9 | R10 | RJ | RQ | RK => 10
  end.

Definition hardTotal (hand : list Card) : Z := foldr Z.add 0 (hardValue <$> hand).

Definition aces (hand : list Card) : nat :=
  length (filter (λ c, crank c = RA) hand).

Definition hasAce (hand : list Card) : bool := bool_decide (RA ∈ crank <$> hand).

(** The name [initBlackjack] gives seat [i] of the humans or of the bots:
    [names[i] ?? `${prefix}${i + 1}`]. *)
Definition seatName (prefix : string) (names : list string) (i : nat) : string :=
  default (prefix +:+ pretty (i + 1)%nat) (names !! i).

(** Every card of a state: the deck and the hands. *)
Definition cardsOf (s : BlackjackState) : list Card :=
  deck s ++ concat (hand <$> players s).

(** The flags of a seat say what its hand says. *)
Definition flagsOk (p : BlackjackPlayer) : Prop :=
  busted p = isBusted (hand p) ∧
  hasTwentyOne p = bool_decide (handScore (hand p) = 21) ∧
  isBlackjack p = isNaturalBlackjack (hand p) ∧
  (hasTwentyOne p = true → standing p = true) ∧
  (2 ≤ length (hand p))%nat.

(** What holds of every state of a round: the 52 cards are all there, the
    flags agree with the hands, and the dealer sits at seat 0 and nowhere
    else. *)
Definition roundOk (s : BlackjackState) : Prop :=
  cardsOf s ≡ₚ createDeck ∧
  Forall flagsOk (players s) ∧
  isDealer <$> players s = true :: replicate (length (players s) - 1) false.

(** Uses of [hit] and [stand], one after the other. *)
Inductive plays : BlackjackState → BlackjackState → Prop :=
  | plays_refl s : plays s s
  | plays_hit s s1 s2 : hit s = Ok s1 → plays s1 s2 → plays s s2
  | plays_stand s s1 s2 : stand s = Ok s1 → plays s1 s2 → plays s s2.

(** The turn is in order: every seat before the current one, the dealer's
    apart, is done; and the turn is the dealer's only when every other seat
    is done. *)
Definition turnOk (s : BlackjackState) : Prop :=
  (∀ i p, (1 ≤ i < currentPlayerIndex s)%nat → players s !! i = Some p →
          isPlayerDone p = true) ∧
  (currentPlayerIndex s = 0%nat → allNonDealerDone s = true).

(** One use of the engine on a state. *)
Inductive step : BlackjackState → BlackjackState → Prop :=
  | step_hit s s' : hit s = Ok s' → step s s'
  | step_stand s s' : stand s = Ok s' → step s s'
  | step_next fuel s s' : nextPlayer fuel s = Some s' → step s s'
  | step_dealer fuel s s' : dealerAutoPlay fuel s = Some (Ok s') → step s s'
  | step_bot fuel s s' : botAutoPlay fuel s = Some (Ok s') → step s s'.

(** Uses of the engine, one after the other. *)
Inductive steps : BlackjackState → BlackjackState → Prop :=
  | steps_refl s : steps s s
  | steps_step s s1 s2 : steps s s1 → step s1 s2 → steps s s2.

(** The states of a round: dealt by [initBlackjack] and played on with the
    engine's operations. *)
Inductive played : BlackjackState → Prop :=
  | played_init rnd config s : initBlackjack rnd config = Ok s → played s
  | played_step s s' : played s → step s s' → played s'.

(** [s'] comes after [s]: nothing of what was played is taken back. *)
Definition extends (s s' : BlackjackState) : Prop :=
  deck s' `prefix_of` deck s ∧
  length (players s') = length (players s) ∧
  (finished s = true → finished s' = true) ∧
  ∀ i p, players s !! i = Some p →
    ∃ p', players s' !! i = Some p' ∧
          pid p' = pid p ∧ isDealer p' = isDealer p ∧ isBot p' = isBot p ∧
          hand p `prefix_of` hand p' ∧
          (isPlayerDone p = true → hand p' = hand p ∧ isPlayerDone p' = true).

(** ** Example rounds *)

Definition fromOk (r : Result BlackjackState) : BlackjackState :=
  match r with
  | Ok s => s
  | Throw _ =>
      {| deck := []; players := []; currentPlayerIndex := 0; finished := true |}
  end.

(** One human and one bot against the dealer, just dealt. *)
Definition exRound : BlackjackState :=
  fromOk (initBlackjack (λ i, (i * 7)%nat) (mkConfig 1 (Some 1) None None None)).

(** The same round after the human took a card. *)
Definition exRoundHit : BlackjackState := fromOk (hit exRound).

(** The same round when the human has stood and the bot is to play. *)
Definition exBotTurn : BlackjackState :=
  default exRound (nextPlayer 4 (fromOk (stand exRound))).

(** The dealer alone at the table, to play. *)
Definition exDealerTurn : BlackjackState :=
  fromOk (initBlackjack (λ i, (i * 7)%nat) (mkConfig 0 None None None None)).

(** A round closed by [nextPlayer] before the dealer has played. *)
Definition exClosedEarly : BlackjackState :=
  default exDealerTurn (nextPlayer 2 exDealerTurn).

(** A table where the only player is dealt an ace and a king and the dealer
    a five and a six: the shuffle draws pick these four cards for the top
    of the deck and leave the rest in place. *)
Definition exAllTwentyOne : BlackjackState :=
  fromOk (initBlackjack
            (λ i, match i with
                  | 51 => 4 | 50 => 5 | 49 => 0 | 48 => 12 | _ => i
                  end%nat)
            (mkConfig 1 None None None None)).

(** A shuffle that leaves a three and a two at the bottom of the deck and
    puts a four and a five, then a two and a three, on top of it. *)
Definition rndLow (i : nat) : nat :=
  match i with
  | 51 => 3 | 50 => 4 | 49 => 14 | 48 => 15 | 2 => 0 | _ => i
  end%nat.

(** Twenty-four bots against the dealer, just dealt: two cards are left in
    the deck and the first bot holds five. *)
Definition exFullTable : BlackjackState :=
  fromOk (initBlackjack rndLow (mkConfig 0 (Some 24) None None None)).

(** Twenty-four humans against the dealer.  Three of them hold 21 from the
    deal, the other twenty-one have stood in turn: the dealer, who holds
    nine, is to play with two cards left in the deck. *)
Definition exAllStood : BlackjackState :=
  Nat.iter 21 (λ s, default s (nextPlayer 30 (fromOk (stand s))))
    (fromOk (initBlackjack rndLow (mkConfig 24 None None None None))).

End Blackjack.

(** * Basic facts about the array primitives *)

Section Arrays.
Context {A : Type}.
Implicit Types l : list A.

Lemma top_snoc l x : top (l ++ [x]) = Some x.
Proof. apply last_snoc. Qed.

Lemma popped_snoc l x : popped (l ++ [x]) = l.
Proof.
  unfold popped. rewrite length_app. simpl.
  replace (length l + 1 - 1)%nat with (length l) by lia.
  by rewrite take_app_length.
Qed.

Lemma top_Some l x : top l = Some x → l = popped l ++ [x].
Proof.
  intros [l' ->]%last_Some. by rewrite popped_snoc.
Qed.

Lemma top_None l : top l = None ↔ l = [].
Proof. apply last_None. Qed.

Lemma pop_Some l x l' : pop l = Some (x, l') ↔ l = l' ++ [x].
Proof.
  unfold pop. split.
  - destruct (last l) as [y|] eqn:E; [|done].
    intros [= <- <-]. by apply top_Some.
  - intros ->. by rewrite last_snoc, popped_snoc.
Qed.

Lemma pop_None l : pop l = None ↔ l = [].
Proof.
  unfold pop. destruct (last l) eqn:E.
  - split; [done|]. intros ->. done.
  - split; [|done]. intros _. by apply last_None.
Qed.

Lemma at_index_Some l i x :
  at_index l i = Some x ↔ 0 ≤ i ∧ l !! Z.to_nat i = Some x.
Proof.
  unfold at_index. destruct (Z.ltb_spec i 0).
  - split; [done | intros [? _]; lia].
  - split; [intros ?; split; [lia | done] | by intros [_ ?]].
Qed.

Lemma at_index_None l i :
  at_index l i = None ↔ i < 0 ∨ Z.of_nat (length l) ≤ i.
Proof.
  unfold at_index. destruct (Z.ltb_spec i 0).
  - split; [by left | done].
  - rewrite lookup_ge_None. split; [intros; right; lia | intros [|]; lia].
Qed.

Lemma at_index_of_nat l (i : nat) : at_index l (Z.of_nat i) = l !! i.
Proof.
  unfold at_index. destruct (Z.ltb_spec (Z.of_nat i) 0); [lia|].
  by rewrite Nat2Z.id.
Qed.

Lemma findIndex_Some (P : A → bool) l i :
  findIndex P l = Some i ↔
  ∃ x, l !! i = Some x ∧ P x = true ∧
       ∀ j y, l !! j = Some y → (j < i)%nat → P y ≠ true.
Proof.
  unfold findIndex. split.
  - destruct (list_find _ l) as [[k x]|] eqn:E; [|done].
    simpl. intros [= ->]. apply list_find_Some in E as (Hk & HP & Hlt).
    exists x. split_and!; [done|done|]. intros j y Hj Hji. by eapply Hlt.
  - intros (x & Hx & HP & Hlt).
    assert (list_find (λ x, P x = true) l = Some (i, x)) as ->; [|done].
    apply list_find_Some. split_and!; [done|done|].
    intros j y Hj Hji. by eapply Hlt.
Qed.

Lemma findIndex_None (P : A → bool) l :
  findIndex P l = None ↔ ∀ x, x ∈ l → P x ≠ true.
Proof.
  unfold findIndex. destruct (list_find _ l) as [[k x]|] eqn:E; simpl.
  - split; [done|]. intros H. apply list_find_Some in E as (Hk & HP & _).
    exfalso. eapply H; [|done]. by eapply list_elem_of_lookup_2.
  - split; [|done]. intros _. rewrite list_find_None in E.
    by apply Forall_forall.
Qed.
End Arrays.

Lemma clonePlayer_id p : clonePlayer p = p.
Proof. destruct p. unfold clonePlayer. simpl. by rewrite list_fmap_id. Qed.

Lemma clonePlayers_id (ps : list NertsPlayerState) : clonePlayer <$> ps = ps.
Proof.
  induction ps as [|p ps IH]; [done|].
  rewrite fmap_cons, clonePlayer_id. by f_equal.
Qed.

Lemma cloneFoundations_id fs : cloneFoundations fs = fs.
Proof.
  unfold cloneFoundations. induction fs as [|[] fs IH]; [done|].
  rewrite fmap_cons. simpl. by f_equal.
Qed.

(** The draw loop in closed form: the last [k] cards of the stock go to
    the waste, the top of the stock first. *)
Lemma drawLoop_spec k st w :
  (k ≤ length st)%nat →
  drawLoop k st w =
    (take (length st - k) st,
     w ++ (makeFaceUp <$> reverse (drop (length st - k) st))).
Proof.
  revert st w. induction k as [|k IH]; intros st w Hk; simpl.
  - rewrite Nat.sub_0_r, firstn_all, drop_all. simpl. by rewrite app_nil_r.
  - destruct (pop st) as [[c st']|] eqn:E.
    + apply pop_Some in E as ->. rewrite length_app in *. simpl in *.
      rewrite IH by lia.
      replace (length st' + 1 - S k)%nat with (length st' - k)%nat by lia.
      rewrite take_app_le, drop_app_le by lia.
      rewrite reverse_app, fmap_app. simpl. by rewrite <- app_assoc.
    + apply pop_None in E as ->. simpl in Hk. lia.
Qed.

(** * The reducer and its step relation *)

(** Every run of the reducer either returns its input or finalizes a move. *)
Lemma applyNertsAction_cases s a :
  applyNertsAction s a = s ∨
  ∃ i p p' fs' d,
    finished s = false ∧ actingIndex s a = Some i ∧ players s !! i = Some p ∧
    moves p (foundations s) a p' fs' d ∧
    applyNertsAction s a = finalize s i p' fs' d true.
Proof.
  unfold applyNertsAction, actingIndex.
  destruct (finished s) eqn:Hfin; [by left|].
  destruct (findIndex _ (players s)) as [i|] eqn:Hi; [|by left].
  rewrite clonePlayers_id, cloneFoundations_id.
  destruct (players s !! i) as [p|] eqn:Hp; [|by left].
  destruct a as [id|id ti|id fi|id from to cardId|id from fi|id ti|id fi].
  - case_bool_decide as Hst.
    + rewrite drawLoop_spec by lia. right.
      exists i, p. eexists _, _, _. split_and!; [done|done|done| |reflexivity].
      apply moves_draw. intros E. rewrite E in Hst. simpl in Hst. lia.
    + case_bool_decide as Hw; [|by left]. right.
      exists i, p. eexists _, _, _. split_and!; [done|done|done| |reflexivity].
      apply moves_recycle.
      * destruct (stock p); [done | simpl in Hst; lia].
      * intros E. rewrite E in Hw. simpl in Hw. lia.
  - destruct (at_index (tableau p) ti) as [dest|] eqn:Hd; [|by left].
    destruct (top (waste p)) as [c|] eqn:Ht; [|by left].
    destruct (canPlaceOnTableau _ _ _) eqn:Hc; [|by left]. right.
    exists i, p. eexists _, _, _. split_and!; [done|done|done| |reflexivity].
    eapply moves_waste_to_tableau; eauto using top_Some.
  - destruct (at_index (foundations s) fi) as [f|] eqn:Hf; [|by left].
    destruct (top (waste p)) as [c|] eqn:Ht; [|by left].
    destruct (canPlaceOnFoundation _ _) eqn:Hc; [|by left]. right.
    exists i, p. eexists _, _, _. split_and!; [done|done|done| |reflexivity].
    eapply moves_waste_to_foundation; eauto using top_Some.
  - destruct (at_index (tableau p) from) as [fromPile|] eqn:Hfrom; [|by left].
    destruct (at_index (tableau p) to) as [toPile|] eqn:Hto; [|by left].
    destruct (findIndex _ fromPile) as [idx|] eqn:Hidx; [|by left].
    destruct (drop idx fromPile) as [|c run] eqn:Hdrop; [by left|].
    destruct (faceUp c) eqn:Hup; [|by left].
    destruct (canPlaceOnTableau _ _ _) eqn:Hc; [|by left]. right.
    assert (fromPile = take idx fromPile ++ c :: run) as Hsplit.
    { by rewrite <- Hdrop, take_drop. }
    assert (length (take idx fromPile) = idx) as Hlen.
    { apply findIndex_Some in Hidx as (x & Hx & _).
      apply lookup_lt_Some in Hx. rewrite length_take. lia. }
    exists i, p. eexists _, _, _. split_and!; [done|done|done| |reflexivity].
    simpl. eapply moves_tableau_to_tableau; eauto; congruence.
  - destruct (at_index (tableau p) from) as [fromPile|] eqn:Hfrom; [|by left].
    destruct (at_index (foundations s) fi) as [f|] eqn:Hf; [|by left].
    destruct (top fromPile) as [c|] eqn:Ht; [|by left].
    destruct (faceUp c) eqn:Hup; [|by left].
    destruct (canPlaceOnFoundation _ _) eqn:Hc; [|by left]. right.
    exists i, p. eexists _, _, _. split_and!; [done|done|done| |reflexivity].
    simpl. eapply moves_tableau_to_foundation; eauto.
    apply top_Some in Ht. congruence.
  - destruct (at_index (tableau p) ti) as [dest|] eqn:Hd; [|by left].
    destruct (top (nertsPile p)) as [c|] eqn:Ht; [|by left].
    destruct (faceUp c) eqn:Hup; [|by left].
    destruct (canPlaceOnTableau _ _ _) eqn:Hc; [|by left]. right.
    exists i, p. eexists _, _, _. split_and!; [done|done|done| |reflexivity].
    simpl. eapply moves_nerts_to_tableau; eauto using top_Some.
  - destruct (at_index (foundations s) fi) as [f|] eqn:Hf; [|by left].
    destruct (top (nertsPile p)) as [c|] eqn:Ht; [|by left].
    destruct (faceUp c) eqn:Hup; [|by left].
    destruct (canPlaceOnFoundation _ _) eqn:Hc; [|by left]. right.
    exists i, p. eexists _, _, _. split_and!; [done|done|done| |reflexivity].
    simpl. eapply moves_nerts_to_foundation; eauto using top_Some.
Qed.

Lemma length_flipTop pile : length (flipTop pile) = length pile.
Proof.
  unfold flipTop. destruct (top pile) as [c|]; [|done].
  destruct (faceUp c); simpl; [done|]. by rewrite length_insert.
Qed.

Lemma flipTop_snoc l c :
  flipTop (l ++ [c]) = l ++ [if faceUp c then c else makeFaceUp c].
Proof.
  unfold flipTop. rewrite top_snoc.
  destruct (faceUp c); simpl; [done|].
  rewrite length_app. simpl.
  replace (length l + 1 - 1)%nat with (length l + 0)%nat by lia.
  by rewrite insert_app_r.
Qed.

(** The converse of [applyNertsAction_cases]: a move is what the reducer
    finalizes. *)
Lemma moves_apply s a i p p' fs' d :
  finished s = false → actingIndex s a = Some i → players s !! i = Some p →
  moves p (foundations s) a p' fs' d →
  applyNertsAction s a = finalize s i p' fs' d true.
Proof.
  intros Hfin Hi Hp Hm. unfold applyNertsAction. unfold actingIndex in Hi.
  rewrite Hfin, Hi, clonePlayers_id, cloneFoundations_id, Hp.
  destruct Hm as [id Hst k|id Hst Hw|id ti dest w c Hd Hw Hc|id fi f w c Hf Hw Hc
                 |id from to cardId toPile keep c run Hfrom Hto Hidx Hup Hc
                 |id from fi f keep c Hfrom Hf Hup Hc
                 |id ti dest n c Hd Hn Hup Hc|id fi f n c Hf Hn Hup Hc].
  - rewrite bool_decide_eq_true_2 by (destruct (stock p); [done | simpl; lia]).
    rewrite drawLoop_spec by lia. done.
  - rewrite Hst. simpl.
    rewrite bool_decide_eq_true_2 by (destruct (waste p); [done | simpl; lia]).
    done.
  - rewrite Hd, Hw, top_snoc, Hc, popped_snoc. done.
  - rewrite Hf, Hw, top_snoc, Hc, popped_snoc. done.
  - rewrite Hfrom, Hto, Hidx, drop_app_length, Hup, Hc, take_app_length. done.
  - rewrite Hfrom, Hf, top_snoc, Hup, Hc, popped_snoc. done.
  - rewrite Hd, Hn, top_snoc, Hup, Hc, popped_snoc. done.
  - rewrite Hf, Hn, top_snoc, Hup, Hc, popped_snoc. done.
Qed.

(** A move changes one of the acting player's piles. *)
Lemma moves_changes_piles p fs a p' fs' d :
  moves p fs a p' fs' d →
  nertsPile p' ≠ nertsPile p ∨ tableau p' ≠ tableau p ∨
  stock p' ≠ stock p ∨ waste p' ≠ waste p.
Proof.
  intros Hm.
  destruct Hm as [id Hst k|id Hst Hw|id ti dest w c Hd Hw Hc|id fi f w c Hf Hw Hc
                 |id from to cardId toPile keep c run Hfrom Hto Hidx Hup Hc
                 |id from fi f keep c Hfrom Hf Hup Hc
                 |id ti dest n c Hd Hn Hup Hc|id fi f n c Hf Hn Hup Hc]; simpl.
  - right; right; left. intros E%(f_equal length).
    rewrite length_take in E. subst k.
    destruct (stock p); [done | simpl in E; lia].
  - right; right; right. congruence.
  - right; right; right. rewrite Hw. intros E%(f_equal length).
    rewrite length_app in E. simpl in E. lia.
  - right; right; right. rewrite Hw. intros E%(f_equal length).
    rewrite length_app in E. simpl in E. lia.
  - right; left. intros E.
    apply at_index_Some in Hto as [_ Hto].
    assert (tableau p !! Z.to_nat to = Some (toPile ++ c :: run)) as Hto'.
    { rewrite <- E. apply list_lookup_insert_eq.
      rewrite length_insert. by eapply lookup_lt_Some. }
    rewrite Hto in Hto'. injection Hto' as E'%(f_equal length).
    rewrite length_app in E'. simpl in E'. lia.
  - right; left. intros E.
    apply at_index_Some in Hfrom as [_ Hfrom].
    assert (tableau p !! Z.to_nat from = Some (flipTop keep)) as Hfrom'.
    { rewrite <- E. apply list_lookup_insert_eq. by eapply lookup_lt_Some. }
    rewrite Hfrom in Hfrom'. injection Hfrom' as E'%(f_equal length).
    rewrite length_flipTop, length_app in E'. simpl in E'. lia.
  - left. rewrite Hn. intros E%(f_equal length).
    rewrite length_flipTop, length_app in E. simpl in E. lia.
  - left. rewrite Hn. intros E%(f_equal length).
    rewrite length_flipTop, length_app in E. simpl in E. lia.
Qed.

Lemma finalize_lookup s i p p' fs' d :
  players s !! i = Some p →
  players (finalize s i p' fs' d true) !! i =
    Some {| pid := pid p'; nertsPile := nertsPile p'; tableau := tableau p';
            stock := stock p'; waste := waste p'; score := numberAdd (score p') d |}.
Proof.
  intros Hp. unfold finalize. simpl. rewrite clonePlayers_id.
  apply list_lookup_insert_eq. by eapply lookup_lt_Some.
Qed.

Lemma moves_changes_state s i p a p' fs' d :
  players s !! i = Some p →
  moves p (foundations s) a p' fs' d →
  finalize s i p' fs' d true ≠ s.
Proof.
  intros Hp Hm E.
  pose proof (finalize_lookup s i p p' fs' d Hp) as Hl.
  rewrite E, Hp in Hl. injection Hl as ->.
  apply moves_changes_piles in Hm. simpl in Hm.
  destruct Hm as [H|[H|[H|H]]]; by apply H.
Qed.

(** Acceptance, as an observable change of state, is the existence of a
    move. *)
Lemma accepted_moves s a :
  accepted s a ↔
  ∃ i p p' fs' d,
    finished s = false ∧ actingIndex s a = Some i ∧ players s !! i = Some p ∧
    moves p (foundations s) a p' fs' d ∧
    applyNertsAction s a = finalize s i p' fs' d true.
Proof.
  unfold accepted. split.
  - intros Hne. by destruct (applyNertsAction_cases s a) as [?|?].
  - intros (i & p & p' & fs' & d & _ & _ & Hp & Hm & ->).
    by eapply moves_changes_state.
Qed.

Lemma actingPlayer_Some s a p :
  actingPlayer s a = Some p ↔
  ∃ i, actingIndex s a = Some i ∧ players s !! i = Some p.
Proof.
  unfold actingPlayer. destruct (actingIndex s a) as [i|]; simpl.
  - split; [by exists i | by intros (? & [= <-] & ?)].
  - split; [done | by intros (? & ? & _)].
Qed.

Lemma nonempty_length {A} (l : list A) : l ≠ [] ↔ (0 < length l)%nat.
Proof. destruct l; simpl; split; (done || lia). Qed.

(** The table's precondition holds exactly when the reducer has a move. *)
Lemma precondition_moves s a :
  precondition s a = true ↔
  ∃ i p p' fs' d,
    finished s = false ∧ actingIndex s a = Some i ∧ players s !! i = Some p ∧
    moves p (foundations s) a p' fs' d.
Proof.
  split.
  - unfold precondition, playerCan. destruct (finished s) eqn:Hfin; [done|]. simpl.
    destruct (actingPlayer s a) as [p|] eqn:Hact; [|done].
    apply actingPlayer_Some in Hact as (i & Hi & Hp).
    intros Hpre. exists i, p.
    enough (∃ p' fs' d, moves p (foundations s) a p' fs' d) as (p' & fs' & d & Hm).
    { by exists p', fs', d. }
    destruct a as [id|id ti|id fi|id from to cardId|id from fi|id ti|id fi].
    + destruct (decide (stock p = [])) as [Hst|Hst].
      * rewrite (bool_decide_eq_true_2 _ Hst) in Hpre. simpl in Hpre.
        apply negb_true_iff, bool_decide_eq_false in Hpre.
        eexists _, _, _. by apply moves_recycle.
      * eexists _, _, _. by apply moves_draw.
    + destruct (at_index (tableau p) ti) as [dest|] eqn:Hd; [|done].
      destruct (top (waste p)) as [c|] eqn:Ht; [|done].
      eexists _, _, _. eapply moves_waste_to_tableau; eauto using top_Some.
    + destruct (at_index (foundations s) fi) as [f|] eqn:Hf; [|done].
      destruct (top (waste p)) as [c|] eqn:Ht; [|done].
      eexists _, _, _. eapply moves_waste_to_foundation; eauto using top_Some.
    + destruct (at_index (tableau p) from) as [fromPile|] eqn:Hfrom; [|done].
      destruct (at_index (tableau p) to) as [toPile|] eqn:Hto; [|done].
      destruct (findIndex _ fromPile) as [idx|] eqn:Hidx; [|done].
      destruct (fromPile !! idx) as [c|] eqn:Hc; [|done].
      apply andb_true_iff in Hpre as [Hup Hpl].
      assert (fromPile = take idx fromPile ++ c :: drop (S idx) fromPile) as Hsplit.
      { by rewrite take_drop_middle. }
      assert (length (take idx fromPile) = idx) as Hlen.
      { apply lookup_lt_Some in Hc. rewrite length_take. lia. }
      eexists _, _, _.
      eapply moves_tableau_to_tableau with (keep := take idx fromPile)
        (c := c) (run := drop (S idx) fromPile); [congruence|done| |done|done].
      rewrite <- Hsplit, Hlen. exact Hidx.
    + destruct (at_index (tableau p) from) as [fromPile|] eqn:Hfrom; [|done].
      destruct (at_index (foundations s) fi) as [f|] eqn:Hf; [|done].
      destruct (top fromPile) as [c|] eqn:Ht; [|done].
      apply andb_true_iff in Hpre as [Hup Hpl].
      apply top_Some in Ht.
      eexists _, _, _.
      eapply moves_tableau_to_foundation with (keep := popped fromPile) (c := c);
        eauto; congruence.
    + destruct (at_index (tableau p) ti) as [dest|] eqn:Hd; [|done].
      destruct (top (nertsPile p)) as [c|] eqn:Ht; [|done].
      apply andb_true_iff in Hpre as [Hup Hpl].
      eexists _, _, _. eapply moves_nerts_to_tableau; eauto using top_Some.
    + destruct (at_index (foundations s) fi) as [f|] eqn:Hf; [|done].
      destruct (top (nertsPile p)) as [c|] eqn:Ht; [|done].
      apply andb_true_iff in Hpre as [Hup Hpl].
      eexists _, _, _. eapply moves_nerts_to_foundation; eauto using top_Some.
  - intros (i & p & p' & fs' & d & Hfin & Hi & Hp & Hm).
    unfold precondition, playerCan, actingPlayer. rewrite Hfin, Hi. simpl. rewrite Hp.
    destruct Hm as [id Hst k|id Hst Hw|id ti dest w c Hd Hw Hc|id fi f w c Hf Hw Hc
                   |id from to cardId toPile keep c run Hfrom Hto Hidx Hup Hc
                   |id from fi f keep c Hfrom Hf Hup Hc
                   |id ti dest n c Hd Hn Hup Hc|id fi f n c Hf Hn Hup Hc].
    + by rewrite (bool_decide_eq_false_2 (stock p = [])).
    + rewrite (bool_decide_eq_false_2 (waste p = [])) by done.
      by rewrite orb_true_r.
    + by rewrite Hd, Hw, top_snoc.
    + by rewrite Hf, Hw, top_snoc.
    + rewrite Hfrom, Hto, Hidx, list_lookup_middle by done. by rewrite Hup, Hc.
    + by rewrite Hfrom, Hf, top_snoc, Hup, Hc.
    + by rewrite Hd, Hn, top_snoc, Hup, Hc.
    + by rewrite Hf, Hn, top_snoc, Hup, Hc.
Qed.

(** The table's precondition is the observable acceptance. *)
Lemma precondition_accepted s a : precondition s a = true ↔ accepted s a.
Proof.
  rewrite precondition_moves, accepted_moves. split.
  - intros (i & p & p' & fs' & d & Hfin & Hi & Hp & Hm).
    exists i, p, p', fs', d. split_and!; try done. by apply moves_apply with p.
  - intros (i & p & p' & fs' & d & Hfin & Hi & Hp & Hm & _).
    by exists i, p, p', fs', d.
Qed.

(** * Consequences of the step relation *)

Lemma numberAdd_0 x : numberAdd x 0 = x.
Proof. done. Qed.

(** Up to 2^53 the addition of numbers is the addition of integers. *)
Lemma numberAdd_exact x d : Z.abs (x + d) ≤ 2 ^ 53 → numberAdd x d = x + d.
Proof.
  intros Hle. unfold numberAdd, roundNumber.
  destruct (Z.eqb_spec d 0) as [->|_]; [lia|].
  by rewrite (proj2 (Z.leb_le _ _) Hle).
Qed.

Lemma moves_pid_score p fs a p' fs' d :
  moves p fs a p' fs' d →
  pid p' = pid p ∧ score p' = score p ∧ d = scoreDelta a.
Proof. by destruct 1. Qed.

Lemma scoreDelta_nonneg a : 0 ≤ scoreDelta a.
Proof. destruct a; simpl; lia. Qed.

Lemma finalize_lookup_ne s i j p' fs' d :
  i ≠ j → players (finalize s i p' fs' d true) !! j = players s !! j.
Proof.
  intros Hne. unfold finalize. simpl. rewrite clonePlayers_id.
  by apply list_lookup_insert_ne.
Qed.

Lemma finalize_length s i p' fs' d u :
  length (players (finalize s i p' fs' d u)) = length (players s).
Proof.
  unfold finalize. destruct u; simpl; [|done].
  by rewrite length_insert, clonePlayers_id.
Qed.

Lemma finalize_startedAt s i p' fs' d u :
  startedAt (finalize s i p' fs' d u) = startedAt s.
Proof. unfold finalize. by destruct u. Qed.

Lemma applyNertsAction_finished s a :
  finished s = true → applyNertsAction s a = s.
Proof. intros H. unfold applyNertsAction. by rewrite H. Qed.

Lemma applyAll_finished s acts : finished s = true → applyAll s acts = s.
Proof.
  intros H. induction acts as [|a acts IH]; [done|].
  unfold applyAll in *. simpl. by rewrite applyNertsAction_finished.
Qed.

Lemma applyAll_app s acts1 acts2 :
  applyAll s (acts1 ++ acts2) = applyAll (applyAll s acts1) acts2.
Proof. apply foldl_app. Qed.

Lemma applyAll_snoc s acts a :
  applyAll s (acts ++ [a]) = applyNertsAction (applyAll s acts) a.
Proof. by rewrite applyAll_app. Qed.

(** ** C1 *)

(** The situations the documentation lists leave the precondition unmet. *)
Lemma precondition_finished s a : finished s = true → precondition s a = false.
Proof. intros H. unfold precondition. by rewrite H. Qed.

Lemma precondition_unknown_player s a :
  (∀ p, p ∈ players s → pid p ≠ playerId a) → precondition s a = false.
Proof.
  intros H. unfold precondition, actingPlayer, actingIndex.
  assert (findIndex (λ p, bool_decide (pid p = playerId a)) (players s) = None) as ->.
  { apply findIndex_None. intros p Hp E%bool_decide_eq_true. by eapply H. }
  simpl. apply andb_false_r.
Qed.

Lemma precondition_tableau_range s a p ti :
  actingPlayer s a = Some p →
  ti < 0 ∨ Z.of_nat (length (tableau p)) ≤ ti →
  (∃ id, a = waste_to_tableau id ti ∨ a = nerts_to_tableau id ti) ∨
  (∃ id j c, a = tableau_to_tableau id ti j c ∨ a = tableau_to_tableau id j ti c) ∨
  (∃ id fi, a = tableau_to_foundation id ti fi) →
  precondition s a = false.
Proof.
  intros Hp Hr%at_index_None Ha. unfold precondition, playerCan. rewrite Hp.
  destruct Ha as [(id & [-> | ->]) | [(id & j & c & [-> | ->]) | (id & fi & ->)]];
    rewrite Hr; rewrite ?andb_false_r; try done.
  destruct (at_index (tableau p) j); by rewrite andb_false_r.
Qed.

Lemma precondition_foundation_range s a fi :
  fi < 0 ∨ Z.of_nat (length (foundations s)) ≤ fi →
  (∃ id, a = waste_to_foundation id fi ∨ a = nerts_to_foundation id fi) ∨
  (∃ id from, a = tableau_to_foundation id from fi) →
  precondition s a = false.
Proof.
  intros Hr%at_index_None Ha. unfold precondition, playerCan.
  destruct (actingPlayer s a) as [p|]; [|apply andb_false_r].
  destruct Ha as [(id & [-> | ->]) | (id & from & ->)];
    rewrite Hr; rewrite ?andb_false_r; try done.
  destruct (at_index (tableau p) from); by rewrite andb_false_r.
Qed.

(** C1. An action whose precondition in the action table is unmet (game
    finished, unknown player, index out of range, illegal placement, nothing
    to draw) is a no-op: the reducer, a total function with no error path,
    returns exactly its input state. *)
Theorem illegal_action_is_noop s a :
  precondition s a = false → applyNertsAction s a = s.
Proof.
  intros Hpre.
  destruct (applyNertsAction_cases s a)
    as [E|(i & p & p' & fs' & d & Hfin & Hi & Hp & Hm & _)]; [done|].
  assert (precondition s a = true) as Htrue.
  { apply precondition_moves. by exists i, p, p', fs', d. }
  congruence.
Qed.

Lemma illegal_action_is_noop_witness :
  applyNertsAction exState (waste_to_tableau "a" 7) = exState.
Proof. apply illegal_action_is_noop. reflexivity. Defined.

(** ** C10 *)

(** C10. Every player record other than the one the action resolves to is
    returned as it was, the list of players keeps its length, and
    [startedAt] is unchanged. *)
Theorem other_players_untouched s a j p :
  players s !! j = Some p →
  actingIndex s a ≠ Some j →
  players (applyNertsAction s a) !! j = Some p ∧
  length (players (applyNertsAction s a)) = length (players s) ∧
  startedAt (applyNertsAction s a) = startedAt s.
Proof.
  intros Hj Hne.
  destruct (applyNertsAction_cases s a)
    as [->|(i & q & q' & fs' & d & _ & Hi & _ & _ & ->)]; [done|].
  rewrite finalize_lookup_ne, finalize_length, finalize_startedAt; [done|].
  congruence.
Qed.

Lemma other_players_untouched_witness :
  players (applyNertsAction exState (nerts_to_foundation "a" 0)) !! 1%nat = Some exB ∧
  length (players (applyNertsAction exState (nerts_to_foundation "a" 0))) = 2%nat ∧
  startedAt (applyNertsAction exState (nerts_to_foundation "a" 0)) = 0.
Proof.
  apply (other_players_untouched exState (nerts_to_foundation "a" 0) 1 exB).
  - reflexivity.
  - vm_compute. discriminate.
Defined.

(** A player whose id differs from the action's is not the acting player. *)
Lemma actingIndex_pid s a i p :
  actingIndex s a = Some i → players s !! i = Some p → pid p = playerId a.
Proof.
  intros (x & Hx & HP & _)%findIndex_Some Hp.
  rewrite Hp in Hx. injection Hx as <-. by apply bool_decide_eq_true in HP.
Qed.

Lemma other_id_not_acting s a j p :
  players s !! j = Some p → pid p ≠ playerId a → actingIndex s a ≠ Some j.
Proof. intros Hj Hne Hi. by apply Hne, (actingIndex_pid s a j p). Qed.

(** ** C2 *)

Lemma finalize_win s i p' fs' d :
  finished s = false → nertsPile p' = [] →
  finished (finalize s i p' fs' d true) = true ∧
  winnerId (finalize s i p' fs' d true) = Some (pid p').
Proof. intros Hfin Hn. unfold finalize. simpl. by rewrite Hfin, Hn. Qed.

(** In a game, a winner is recorded only in a finished state. *)
Lemma reachable_winner_finished config s :
  reachable config s → finished s = false → winnerId s = None.
Proof.
  induction 1 as [rnd now|s a Hr IH]; [done|].
  destruct (applyNertsAction_cases s a)
    as [->|(i & p & p' & fs' & d & Hfin & _ & _ & _ & ->)]; [done|].
  unfold finalize. simpl. rewrite Hfin. simpl.
  case_bool_decide; [done|]. auto.
Qed.

Lemma reachable_applyAll config s acts :
  reachable config s → reachable config (applyAll s acts).
Proof.
  intros Hr. induction acts as [|a acts IH] using rev_ind; [done|].
  rewrite applyAll_snoc. by constructor.
Qed.

(** C2. When an accepted action leaves the acting player's Nerts pile
    empty, the returned state is finished with that player as winner, in
    the same transition (and an accepted action that leaves cards in the
    pile finishes nothing); once a game has a winner, no later action
    changes the state, so no second winner is ever recorded. *)
Theorem win_is_atomic_and_exclusive config :
  (∀ s a i p',
     accepted s a → actingIndex s a = Some i →
     players (applyNertsAction s a) !! i = Some p' →
     (nertsPile p' = [] →
      finished (applyNertsAction s a) = true ∧
      winnerId (applyNertsAction s a) = Some (pid p') ∧
      pid p' = playerId a) ∧
     (nertsPile p' ≠ [] →
      finished (applyNertsAction s a) = false ∧
      winnerId (applyNertsAction s a) = winnerId s)) ∧
  (∀ s w acts,
     reachable config s → winnerId s = Some w →
     finished s = true ∧ applyAll s acts = s ∧
     winnerId (applyAll s acts) = Some w) ∧
  (∀ rnd now acts1 acts2 w1 w2,
     winnerId (applyAll (initNerts config rnd now) acts1) = Some w1 →
     winnerId (applyAll (initNerts config rnd now) (acts1 ++ acts2)) = Some w2 →
     w1 = w2).
Proof.
  assert (∀ s w acts,
     reachable config s → winnerId s = Some w →
     finished s = true ∧ applyAll s acts = s ∧
     winnerId (applyAll s acts) = Some w) as Hstay.
  { intros s w acts Hr Hw.
    assert (finished s = true) as Hfin.
    { destruct (finished s) eqn:E; [done|].
      rewrite (reachable_winner_finished config s Hr E) in Hw. done. }
    by rewrite applyAll_finished. }
  split_and!; [|done|].
  2:{ intros rnd now acts1 acts2 w1 w2 H1 H2. rewrite applyAll_app in H2.
      destruct (Hstay _ w1 acts2
                  (reachable_applyAll config _ acts1 (reachable_init config rnd now))
                  H1) as (_ & _ & H).
      congruence. }
  - intros s a i p' Hacc Hi Hp'.
    apply accepted_moves in Hacc
      as (i' & q & q' & fs' & d & Hfin & Hi' & Hq & Hm & E).
    assert (i' = i) as -> by congruence.
    rewrite E in *. rewrite (finalize_lookup _ _ _ _ _ _ Hq) in Hp'.
    injection Hp' as <-. cbn [nertsPile pid]. split.
    + intros Hn.
      destruct (finalize_win s i q' fs' d Hfin Hn) as [-> ->].
      split_and!; [done|done|].
      apply moves_pid_score in Hm as (-> & _). by eapply actingIndex_pid.
    + intros Hn. unfold finalize. cbn [finished winnerId nertsPile negb].
      rewrite Hfin. cbn [negb andb].
      rewrite bool_decide_eq_false_2; [done|].
      by destruct (nertsPile q').
Qed.

Lemma win_is_atomic_and_exclusive_witness :
  finished (applyNertsAction exState (nerts_to_foundation "b" 0)) = true ∧
  winnerId (applyNertsAction exState (nerts_to_foundation "b" 0)) = Some "b" ∧
  "b" = "b".
Proof.
  destruct (win_is_atomic_and_exclusive (mkConfig [])) as [H _].
  apply (H exState (nerts_to_foundation "b" 0) 1%nat
           (mkPlayer "b" [] [[]; []; []; []] [] [] 5)).
  - apply precondition_accepted. reflexivity.
  - reflexivity.
  - reflexivity.
  - reflexivity.
Defined.

(** ** C6 *)

(** C6 as worded fails in a finished game: the loser still holds a stock
    of 35 cards, and a [stock_draw] moves none of them. *)
Lemma stock_draw_finished_counterexample :
  reachable (mkConfig ["a"; "b"]) exWon ∧
  ∃ p, players exWon !! 1%nat = Some p ∧ pid p = "b" ∧
       length (stock p) = 35%nat ∧ waste p = [] ∧
       players (applyNertsAction exWon (stock_draw "b")) !! 1%nat = Some p.
Proof.
  split.
  - unfold exWon, exLate, exDeal.
    apply reachable_step, reachable_applyAll, reachable_init.
  - eexists. split_and!; [by vm_compute..|].
    rewrite applyNertsAction_finished by (by vm_compute). by vm_compute.
Qed.

(** C6, amended. For a known player, [stock_draw] in a finished game
    returns the state as it is.  In a game in progress it moves the top
    [min 3 (length stock)] cards of a non-empty stock onto the waste, top
    of stock first, each turned face-up; with an empty stock and a
    non-empty waste it turns the whole waste, reversed and each card
    face-down, into the stock and empties the waste; with both empty it
    returns the state unchanged. *)
Theorem stock_draw_behaviour s id i p :
  actingIndex s (stock_draw id) = Some i →
  players s !! i = Some p →
  let s' := applyNertsAction s (stock_draw id) in
  let k := Nat.min 3 (length (stock p)) in
  let turned (up : bool) (c : NertsCard) : NertsCard :=
    {| suit := suit c; rank := rank c; cid := cid c; ownerId := ownerId c;
       faceUp := up |} in
  (finished s = true → s' = s) ∧
  (finished s = false → stock p ≠ [] →
   ∃ p', players s' !! i = Some p' ∧
         stock p' = take (length (stock p) - k) (stock p) ∧
         waste p' =
           waste p
           ++ (turned true <$> reverse (drop (length (stock p) - k) (stock p))) ∧
         length (waste p') = (length (waste p) + k)%nat ∧
         allUp (drop (length (waste p)) (waste p')) ∧
         nertsPile p' = nertsPile p ∧ tableau p' = tableau p ∧
         score p' = score p ∧ foundations s' = foundations s) ∧
  (finished s = false → stock p = [] → waste p ≠ [] →
   ∃ p', players s' !! i = Some p' ∧
         stock p' = turned false <$> reverse (waste p) ∧
         allDown (stock p') ∧ waste p' = [] ∧
         nertsPile p' = nertsPile p ∧ tableau p' = tableau p ∧
         score p' = score p ∧ foundations s' = foundations s) ∧
  (stock p = [] → waste p = [] → s' = s).
Proof.
  intros Hi Hp s' k turned. subst s'. split_and!.
  - intros Hfin. by apply applyNertsAction_finished.
  - intros Hfin Hst.
    rewrite (moves_apply s _ i p _ _ _ Hfin Hi Hp (moves_draw p _ id Hst)).
    rewrite (finalize_lookup _ _ _ _ _ _ Hp). eexists. split; [done|].
    cbn [stock waste nertsPile tableau score withPiles foundations finalize negb].
    change makeFaceUp with (turned true). rewrite numberAdd_0.
    split_and!; try done.
    + rewrite length_app, length_fmap, length_reverse, length_drop.
      subst k. lia.
    + rewrite drop_app_length. apply Forall_fmap, Forall_forall. by intros c _.
  - intros Hfin Hst Hw.
    rewrite (moves_apply s _ i p _ _ _ Hfin Hi Hp (moves_recycle p _ id Hst Hw)).
    rewrite (finalize_lookup _ _ _ _ _ _ Hp). eexists. split; [done|].
    cbn [stock waste nertsPile tableau score withPiles foundations finalize negb].
    change makeFaceDown with (turned false). rewrite numberAdd_0.
    split_and!; try done.
    apply Forall_fmap, Forall_forall. by intros c _.
  - intros Hst Hw. destruct (finished s) eqn:Hfin;
      [by apply applyNertsAction_finished|].
    unfold applyNertsAction. unfold actingIndex in Hi.
    rewrite Hfin, Hi, clonePlayers_id, Hp, Hst, Hw. done.
Qed.

Lemma stock_draw_behaviour_witness :
  (∃ p', players (applyNertsAction exDeal (stock_draw "a")) !! 0%nat = Some p' ∧
         length (stock p') = 32%nat ∧ length (waste p') = 3%nat ∧
         allUp (waste p')) ∧
  (∃ p', players (applyNertsAction exDrawn (stock_draw "a")) !! 0%nat = Some p' ∧
         length (stock p') = 35%nat ∧ allDown (stock p') ∧ waste p' = []).
Proof.
  split.
  - edestruct (stock_draw_behaviour exDeal "a" 0%nat) as (_ & Hdraw & _);
      [by vm_compute..|].
    destruct Hdraw as (p' & Hp' & Hs & Hw & Hlen & Hup & _);
      [by vm_compute..|].
    exists p'. split_and!; [done| | |].
    + rewrite Hs. by vm_compute.
    + rewrite Hlen. by vm_compute.
    + by rewrite Hw in Hup |- *.
  - edestruct (stock_draw_behaviour exDrawn "a" 0%nat) as (_ & _ & Hrec & _);
      [by vm_compute..|].
    destruct Hrec as (p' & Hp' & Hs & Hdown & Hw & _); [by vm_compute..|].
    exists p'. split_and!; [done| |done..].
    rewrite Hs. by vm_compute.
Defined.

(** * The placement rules *)

Lemma getRankValue_range r : 1 ≤ getRankValue r ≤ 13.
Proof. destruct r; vm_compute; split; discriminate. Qed.

Lemma getRankValue_king r : getRankValue r = 13 ↔ r = RK.
Proof. destruct r; vm_compute; split; (done || discriminate). Qed.

Lemma getRankValue_ace r : getRankValue r = 1 ↔ r = RA.
Proof. destruct r; vm_compute; split; (done || discriminate). Qed.

Lemma canPlaceOnTableau_rule destTop c :
  canPlaceOnTableau destTop c false = true ↔ tableauRule destTop c.
Proof.
  unfold canPlaceOnTableau, tableauRule. destruct destTop as [d|].
  - rewrite andb_true_iff, negb_true_iff, eqb_false_iff, Z.eqb_eq. done.
  - by rewrite Z.eqb_eq, getRankValue_king.
Qed.

Lemma canPlaceOnTableau_any destTop c :
  canPlaceOnTableau destTop c true = true ↔
  destTop = None ∨ tableauRule destTop c.
Proof.
  destruct destTop as [d|].
  - rewrite <- canPlaceOnTableau_rule. simpl. split; [by right|].
    by intros [?|?].
  - simpl. split; [by left|done].
Qed.

Lemma canPlaceOnFoundation_rule f c :
  canPlaceOnFoundation f c = true ↔ foundationRule f c.
Proof.
  unfold canPlaceOnFoundation, foundationRule. destruct (top (cards f)) as [t|].
  - case_bool_decide as Hs; simpl.
    + rewrite Z.eqb_eq. split; [done|by intros [_ ?]].
    + split; [done|]. by intros [? _].
  - by rewrite Z.eqb_eq, getRankValue_ace.
Qed.

(** ** C5 *)

(** C5. A card accepted onto a tableau column from the waste or from
    another column obeys the general rule (King on an empty column, else
    opposite color and rank one less than the column's top); a card
    accepted from the Nerts pile obeys the same rule on a non-empty column,
    and on an empty column the face-up Nerts top of any rank is accepted. *)
Theorem tableau_placement_rules s :
  (∀ id ti,
     accepted s (waste_to_tableau id ti) →
     ∃ p dest c,
       actingPlayer s (waste_to_tableau id ti) = Some p ∧
       at_index (tableau p) ti = Some dest ∧ top (waste p) = Some c ∧
       tableauRule (top dest) c) ∧
  (∀ id from to cardId,
     accepted s (tableau_to_tableau id from to cardId) →
     ∃ p fromPile toPile idx c,
       actingPlayer s (tableau_to_tableau id from to cardId) = Some p ∧
       at_index (tableau p) from = Some fromPile ∧
       at_index (tableau p) to = Some toPile ∧
       findIndex (λ x, bool_decide (cid x = cardId)) fromPile = Some idx ∧
       fromPile !! idx = Some c ∧
       tableauRule (top toPile) c) ∧
  (∀ id ti,
     accepted s (nerts_to_tableau id ti) →
     ∃ p dest c,
       actingPlayer s (nerts_to_tableau id ti) = Some p ∧
       at_index (tableau p) ti = Some dest ∧ top (nertsPile p) = Some c ∧
       (dest ≠ [] → tableauRule (top dest) c)) ∧
  (∀ id ti p c,
     finished s = false →
     actingPlayer s (nerts_to_tableau id ti) = Some p →
     at_index (tableau p) ti = Some [] →
     top (nertsPile p) = Some c → faceUp c = true →
     accepted s (nerts_to_tableau id ti)).
Proof.
  split_and!.
  - intros id ti Hacc%precondition_accepted. revert Hacc.
    unfold precondition, playerCan. destruct (finished s); [done|]. simpl.
    destruct (actingPlayer s _) as [p|]; [|done].
    destruct (at_index (tableau p) ti) as [dest|] eqn:Hd; [|done].
    destruct (top (waste p)) as [c|] eqn:Ht; [|done].
    intros Hc%canPlaceOnTableau_rule. by exists p, dest, c.
  - intros id from to cardId Hacc%precondition_accepted. revert Hacc.
    unfold precondition, playerCan. destruct (finished s); [done|]. simpl.
    destruct (actingPlayer s _) as [p|]; [|done].
    destruct (at_index (tableau p) from) as [fromPile|] eqn:Hfrom; [|done].
    destruct (at_index (tableau p) to) as [toPile|] eqn:Hto; [|done].
    destruct (findIndex _ fromPile) as [idx|] eqn:Hidx; [|done].
    destruct (fromPile !! idx) as [c|] eqn:Hc; [|done].
    intros [_ Hpl%canPlaceOnTableau_rule]%andb_true_iff.
    by exists p, fromPile, toPile, idx, c.
  - intros id ti Hacc%precondition_accepted. revert Hacc.
    unfold precondition, playerCan. destruct (finished s); [done|]. simpl.
    destruct (actingPlayer s _) as [p|]; [|done].
    destruct (at_index (tableau p) ti) as [dest|] eqn:Hd; [|done].
    destruct (top (nertsPile p)) as [c|] eqn:Ht; [|done].
    intros [_ Hpl%canPlaceOnTableau_any]%andb_true_iff.
    exists p, dest, c. split_and!; try done.
    intros Hne. destruct Hpl as [Hnone%top_None|]; done.
  - intros id ti p c Hfin Hp Hd Ht Hup. apply precondition_accepted.
    unfold precondition, playerCan. by rewrite Hfin, Hp, Hd, Ht, Hup.
Qed.

Lemma tableau_placement_rules_witness :
  (∃ p dest c,
     actingPlayer exState (waste_to_tableau "a" 1) = Some p ∧
     at_index (tableau p) 1 = Some dest ∧ top (waste p) = Some c ∧
     tableauRule (top dest) c) ∧
  accepted exState (nerts_to_tableau "a" 2).
Proof.
  destruct (tableau_placement_rules exState) as (Hw & _ & _ & Hn). split.
  - apply (Hw "a" 1). apply precondition_accepted. reflexivity.
  - apply (Hn "a" 2 exA (card "a" Spades RA "a2" true)); reflexivity.
Defined.

(** * Invariants of tableau columns *)

Lemma flipTop_lookup pile i c' :
  flipTop pile !! i = Some c' →
  ∃ c, pile !! i = Some c ∧ rank c' = rank c ∧ suit c' = suit c ∧
       cid c' = cid c ∧ (faceUp c = true → faceUp c' = true).
Proof.
  destruct (decide (pile = [])) as [->|Hne].
  - done.
  - destruct (top pile) as [x|] eqn:Ht; [|by apply top_None in Ht].
    apply top_Some in Ht. rewrite Ht, flipTop_snoc. intros Hl.
    apply lookup_app_Some in Hl as [Hl|[Hlen Hl]].
    + exists c'. rewrite lookup_app_l by (by eapply lookup_lt_Some). done.
    + apply list_lookup_singleton_Some in Hl as [Hi <-].
      exists x. split.
      * apply list_lookup_middle. lia.
      * by destruct (faceUp x) eqn:E.
Qed.

Lemma flipTop_descending pile : descending pile → descending (flipTop pile).
Proof.
  intros Hd i d c Hi HSi.
  apply flipTop_lookup in Hi as (d0 & Hi & -> & _).
  apply flipTop_lookup in HSi as (c0 & HSi & -> & _).
  by eapply Hd.
Qed.

Lemma flipTop_allUp pile : allUp pile → allUp (flipTop pile).
Proof.
  unfold allUp. rewrite !Forall_lookup. intros H i c Hi.
  apply flipTop_lookup in Hi as (c0 & Hi & _ & _ & _ & Hup). eauto.
Qed.

Lemma descending_singleton c : descending [c].
Proof. intros i d c' _ Hi. by destruct i. Qed.

Lemma descending_take n col : descending col → descending (take n col).
Proof.
  intros Hd i d c Hi HSi.
  apply lookup_take_Some in Hi as [Hi _].
  apply lookup_take_Some in HSi as [HSi _]. by eapply Hd.
Qed.

Lemma descending_drop n col : descending col → descending (drop n col).
Proof.
  intros Hd i d c Hi HSi. rewrite lookup_drop in Hi, HSi.
  apply (Hd (n + i)%nat); [done|]. by rewrite <- Nat.add_succ_r.
Qed.

Lemma descending_app l1 l2 :
  descending l1 → descending l2 →
  (∀ d c, top l1 = Some d → head l2 = Some c →
          getRankValue (rank c) = getRankValue (rank d) - 1) →
  descending (l1 ++ l2).
Proof.
  intros H1 H2 Hlink i d c Hi HSi.
  apply lookup_app_Some in Hi as [Hi|[Hlen Hi]].
  - apply lookup_app_Some in HSi as [HSi|[Hlen HSi]].
    + by eapply H1.
    + apply lookup_lt_Some in Hi as Hlt.
      assert (S i = length l1) as Hlast by lia.
      apply Hlink.
      * unfold top. rewrite last_lookup.
        replace (Nat.pred (length l1)) with i by lia. done.
      * rewrite Hlast, Nat.sub_diag in HSi. by rewrite head_lookup.
  - rewrite lookup_app_r in HSi by lia.
    apply (H2 (i - length l1)%nat); [done|].
    by replace (S (i - length l1)) with (S i - length l1)%nat by lia.
Qed.

(** Along a descending column the rank falls by the distance climbed. *)
Lemma descending_rank col i j c d :
  descending col → col !! i = Some c → col !! (i + j)%nat = Some d →
  getRankValue (rank d) = getRankValue (rank c) - Z.of_nat j.
Proof.
  intros Hd Hi. revert d. induction j as [|j IH]; intros d Hj.
  - rewrite Nat.add_0_r in Hj. assert (c = d) as -> by congruence. lia.
  - assert (is_Some (col !! (i + j)%nat)) as [e He].
    { apply lookup_lt_is_Some. apply lookup_lt_Some in Hj. lia. }
    rewrite Nat.add_succ_r in Hj.
    rewrite (Hd _ _ _ He Hj), (IH _ He). lia.
Qed.

(** In a descending column no card can be placed on the column's own top:
    the reducer never accepts a move of a run onto its own column. *)
Lemma descending_no_self_move keep c run :
  descending (keep ++ c :: run) →
  canPlaceOnTableau (top (keep ++ c :: run)) c false = false.
Proof.
  intros Hd.
  destruct (top (keep ++ c :: run)) as [t|] eqn:Ht.
  - apply not_true_is_false. intros [_ Hr]%canPlaceOnTableau_rule.
    unfold top in Ht. rewrite last_lookup in Ht.
    assert (Nat.pred (length (keep ++ c :: run)) =
              (length keep + length run)%nat) as E.
    { rewrite length_app. simpl. lia. }
    rewrite E in Ht.
    pose proof (descending_rank _ (length keep) (length run) c t Hd
                  (list_lookup_middle _ _ _ _ eq_refl) Ht).
    lia.
  - apply top_None in Ht. by destruct keep.
Qed.

Lemma descending_app_inv l1 l2 :
  descending (l1 ++ l2) → descending l1 ∧ descending l2.
Proof.
  intros Hd. split.
  - rewrite <- (take_app_length l1 l2). by apply descending_take.
  - rewrite <- (drop_app_length l1 l2). by apply descending_drop.
Qed.

(** A card the tableau rule accepts on a column extends it downwards, with
    whatever run the card carries. *)
Lemma place_descending dest c run any :
  descending dest → descending (c :: run) →
  canPlaceOnTableau (top dest) c any = true →
  descending (dest ++ c :: run).
Proof.
  intros Hd Hr Hc. apply descending_app; [done|done|].
  intros d c' Ht [= <-]. rewrite Ht in Hc.
  unfold canPlaceOnTableau in Hc.
  apply andb_true_iff in Hc as [_ Hc]. by apply Z.eqb_eq in Hc.
Qed.

Lemma allUp_app l1 l2 : allUp (l1 ++ l2) ↔ allUp l1 ∧ allUp l2.
Proof. apply Forall_app. Qed.

Lemma allUp_makeFaceUp l : allUp (makeFaceUp <$> l).
Proof. apply Forall_fmap, Forall_forall. done. Qed.

Lemma tableau_lookup_ok p i col :
  playerOk p → tableau p !! i = Some col → descending col ∧ allUp col.
Proof.
  intros (Hd & Hu & _) Hi. split.
  - by eapply (Forall_lookup_1 _ _ _ _ Hd).
  - by eapply (Forall_lookup_1 _ _ _ _ Hu).
Qed.

(** The reducer keeps every column descending and face-up, and the waste
    face-up. *)
Lemma moves_playerOk p fs a p' fs' d :
  playerOk p → moves p fs a p' fs' d → playerOk p'.
Proof.
  intros Hok Hm. pose proof Hok as (Hd & Hu & Hw).
  destruct Hm as [id Hst k|id Hst Hwne|id ti dest w c Hdest Hwaste Hc
                 |id fi f w c Hf Hwaste Hc
                 |id from to cardId toPile keep c run Hfrom Hto Hidx Hup Hc
                 |id from fi f keep c Hfrom Hf Hup Hc
                 |id ti dest n c Hdest Hn Hup Hc|id fi f n c Hf Hn Hup Hc];
    unfold playerOk; simpl.
  - split_and!; [done|done|]. apply allUp_app. split; [done|].
    apply allUp_makeFaceUp.
  - split_and!; [done|done|]. constructor.
  - apply at_index_Some in Hdest as [_ Hdest].
    destruct (tableau_lookup_ok p _ _ Hok Hdest) as [Hdd Hdu].
    rewrite Hwaste in Hw. apply allUp_app in Hw as [Hw1 Hw2].
    split_and!; [| |done].
    + apply Forall_insert; [done|].
      apply place_descending with false; [done|apply descending_singleton|done].
    + apply Forall_insert; [done|]. by apply allUp_app.
  - rewrite Hwaste in Hw. by apply allUp_app in Hw as [Hw1 _].
  - apply at_index_Some in Hfrom as [_ Hfrom].
    apply at_index_Some in Hto as [_ Hto].
    destruct (tableau_lookup_ok p _ _ Hok Hfrom) as [Hfd Hfu].
    destruct (tableau_lookup_ok p _ _ Hok Hto) as [Htd Htu].
    apply descending_app_inv in Hfd as [Hkd Hrd].
    apply allUp_app in Hfu as [Hku Hru].
    split_and!; [| |done].
    + apply Forall_insert; [apply Forall_insert|]; [done| |].
      * by apply flipTop_descending.
      * by apply place_descending with false.
    + apply Forall_insert; [apply Forall_insert|]; [done| |].
      * by apply flipTop_allUp.
      * by apply allUp_app.
  - apply at_index_Some in Hfrom as [_ Hfrom].
    destruct (tableau_lookup_ok p _ _ Hok Hfrom) as [Hfd Hfu].
    apply descending_app_inv in Hfd as [Hkd _].
    apply allUp_app in Hfu as [Hku _].
    split_and!; [| |done].
    + apply Forall_insert; [done|]. by apply flipTop_descending.
    + apply Forall_insert; [done|]. by apply flipTop_allUp.
  - apply at_index_Some in Hdest as [_ Hdest].
    destruct (tableau_lookup_ok p _ _ Hok Hdest) as [Hdd Hdu].
    split_and!; [| |done].
    + apply Forall_insert; [done|].
      apply place_descending with true; [done|apply descending_singleton|done].
    + apply Forall_insert; [done|]. apply allUp_app. split; [done|].
      by repeat constructor.
  - done.
Qed.

(** * Counting cards *)

Lemma sum_list_insert {A} (f : A → nat) (l : list A) i x y :
  l !! i = Some x →
  (sum_list (f <$> <[i := y]> l) + f x = sum_list (f <$> l) + f y)%nat.
Proof.
  revert i. induction l as [|z l IH]; intros i Hi; [done|].
  destruct i as [|i]; simpl in *.
  - injection Hi as ->. lia.
  - specialize (IH i Hi). unfold fmap in IH. lia.
Qed.

Section Weights.
Context (w : NertsCard → nat) (Hw : faceBlind w).

Lemma weigh_app l1 l2 : weigh w (l1 ++ l2) = (weigh w l1 + weigh w l2)%nat.
Proof. unfold weigh. by rewrite fmap_app, sum_list_with_app. Qed.

Lemma weigh_snoc l c : weigh w (l ++ [c]) = (weigh w l + w c)%nat.
Proof. rewrite weigh_app. unfold weigh. simpl. lia. Qed.

Lemma weigh_cons c l : weigh w (c :: l) = (w c + weigh w l)%nat.
Proof. done. Qed.

Lemma weigh_reverse l : weigh w (reverse l) = weigh w l.
Proof.
  induction l as [|c l IH]; [done|].
  rewrite reverse_cons, weigh_snoc, weigh_cons, IH. lia.
Qed.

Lemma weigh_makeFaceUp l : weigh w (makeFaceUp <$> l) = weigh w l.
Proof.
  induction l as [|c l IH]; [done|].
  rewrite fmap_cons, !weigh_cons, IH. by destruct (Hw c) as [-> _].
Qed.

Lemma weigh_makeFaceDown l : weigh w (makeFaceDown <$> l) = weigh w l.
Proof.
  induction l as [|c l IH]; [done|].
  rewrite fmap_cons, !weigh_cons, IH. by destruct (Hw c) as [_ ->].
Qed.

Lemma weigh_take_drop n l :
  (weigh w (take n l) + weigh w (drop n l))%nat = weigh w l.
Proof. by rewrite <- weigh_app, take_drop. Qed.

Lemma weigh_flipTop l : weigh w (flipTop l) = weigh w l.
Proof.
  destruct (top l) as [c|] eqn:Ht.
  - apply top_Some in Ht. rewrite Ht, flipTop_snoc, !weigh_snoc.
    destruct (faceUp c); [done|]. by destruct (Hw c) as [-> _].
  - apply top_None in Ht. by rewrite Ht.
Qed.

Lemma foundationWeight_push fs i f c :
  fs !! i = Some f →
  foundationWeight w (<[i := pushFoundation f c]> fs)
    = (foundationWeight w fs + w c)%nat.
Proof.
  intros Hi. unfold foundationWeight.
  pose proof (sum_list_insert (λ f, weigh w (cards f)) fs i f
                (pushFoundation f c) Hi) as H.
  cbn [pushFoundation cards] in H. rewrite weigh_snoc in H. lia.
Qed.

(** A move keeps the weight held by the acting player and the foundation
    pool together: what leaves one pile arrives on another. *)
Lemma moves_weight p fs a p' fs' d :
  playerOk p → moves p fs a p' fs' d →
  (playerWeight w p' + foundationWeight w fs'
   = playerWeight w p + foundationWeight w fs)%nat.
Proof.
  intros Hok Hm. unfold playerWeight.
  destruct Hm as [id Hst k|id Hst Hwne|id ti dest wst c Hdest Hwaste Hc
                 |id fi f wst c Hf Hwaste Hc
                 |id from to cardId toPile keep c run Hfrom Hto Hidx Hup Hc
                 |id from fi f keep c Hfrom Hf Hup Hc
                 |id ti dest n c Hdest Hn Hup Hc|id fi f n c Hf Hn Hup Hc];
    cbn [withPiles nertsPile tableau stock waste].
  - rewrite weigh_app, weigh_makeFaceUp, weigh_reverse.
    pose proof (weigh_take_drop (length (stock p) - k) (stock p)). lia.
  - rewrite weigh_makeFaceDown, weigh_reverse, Hst. unfold weigh. simpl. lia.
  - apply at_index_Some in Hdest as [_ Hdest].
    pose proof (sum_list_insert (weigh w) (tableau p) _ dest (dest ++ [c]) Hdest) as H.
    rewrite weigh_snoc in H. rewrite Hwaste, weigh_snoc. lia.
  - apply at_index_Some in Hf as [_ Hf].
    rewrite (foundationWeight_push _ _ _ _ Hf), Hwaste, weigh_snoc. lia.
  - apply at_index_Some in Hfrom as [Hf0 Hfrom].
    apply at_index_Some in Hto as [Ht0 Hto].
    destruct (decide (Z.to_nat from = Z.to_nat to)) as [E|Hne].
    + exfalso. rewrite E, Hto in Hfrom. injection Hfrom as ->.
      destruct (tableau_lookup_ok p _ _ Hok Hto) as [Hdd _].
      rewrite (descending_no_self_move _ _ _ Hdd) in Hc. done.
    + pose proof (sum_list_insert (weigh w) (tableau p) _ _ (flipTop keep) Hfrom)
        as H1.
      assert (<[Z.to_nat from := flipTop keep]> (tableau p) !! Z.to_nat to
                = Some toPile) as Hto'.
      { by rewrite list_lookup_insert_ne. }
      pose proof (sum_list_insert (weigh w) _ _ _ (toPile ++ c :: run) Hto') as H2.
      rewrite weigh_flipTop in H1. rewrite !weigh_app in *. lia.
  - apply at_index_Some in Hfrom as [_ Hfrom].
    apply at_index_Some in Hf as [_ Hf].
    pose proof (sum_list_insert (weigh w) (tableau p) _ _ (flipTop keep) Hfrom)
      as H1.
    rewrite weigh_flipTop, weigh_snoc in H1.
    rewrite (foundationWeight_push _ _ _ _ Hf). lia.
  - apply at_index_Some in Hdest as [_ Hdest].
    pose proof (sum_list_insert (weigh w) (tableau p) _ dest (dest ++ [c]) Hdest) as H.
    rewrite weigh_snoc in H. rewrite Hn, weigh_flipTop, weigh_snoc. lia.
  - apply at_index_Some in Hf as [_ Hf].
    rewrite (foundationWeight_push _ _ _ _ Hf), Hn, weigh_flipTop, weigh_snoc.
    lia.
Qed.

Lemma finalize_totalWeight s i p p' fs' d :
  players s !! i = Some p →
  (playerWeight w p' + foundationWeight w fs'
   = playerWeight w p + foundationWeight w (foundations s))%nat →
  totalWeight w (finalize s i p' fs' d true) = totalWeight w s.
Proof.
  intros Hp Hcount. unfold totalWeight, finalize.
  cbn [negb players foundations]. rewrite clonePlayers_id.
  match goal with |- context [<[i := ?q]> _] =>
    pose proof (sum_list_insert (playerWeight w) (players s) i p q Hp) as H end.
  unfold playerWeight in *. cbn [nertsPile tableau stock waste] in *. lia.
Qed.

(** No step of a game changes the total weight. *)
Lemma step_totalWeight s a :
  stateOk s → totalWeight w (applyNertsAction s a) = totalWeight w s.
Proof.
  intros [Hps _].
  destruct (applyNertsAction_cases s a)
    as [->|(i & p & p' & fs' & d & _ & _ & Hp & Hm & ->)]; [done|].
  apply finalize_totalWeight with p; [done|].
  apply moves_weight with a d; [|done].
  by eapply (Forall_lookup_1 _ _ _ _ Hps).
Qed.

End Weights.

Lemma weigh_one l : weigh (λ _, 1%nat) l = length l.
Proof.
  induction l as [|c l IH]; [done|].
  change (weigh (λ _, 1%nat) (c :: l)) with (S (weigh (λ _, 1%nat) l)).
  by rewrite IH.
Qed.

Lemma totalCards_weight s : totalCards s = totalWeight (λ _, 1%nat) s.
Proof.
  unfold totalCards, totalWeight, foundationCards, foundationWeight.
  f_equal.
  - f_equal. apply list_fmap_ext. intros _ p _.
    unfold playerCards, playerWeight. rewrite !weigh_one. do 3 f_equal.
    f_equal. apply list_fmap_ext. intros _ col _. by rewrite weigh_one.
  - f_equal. apply list_fmap_ext. intros _ f _. by rewrite weigh_one.
Qed.

Lemma faceBlind_one : faceBlind (λ _, 1%nat).
Proof. done. Qed.

Lemma faceBlind_sameCard k : faceBlind (λ c, if sameCard k c then 1%nat else 0%nat).
Proof. intros c. by destruct c. Qed.

(** * Foundations *)

Lemma pushFoundation_ok f c :
  foundationOk f → canPlaceOnFoundation f c = true →
  foundationOk (pushFoundation f c).
Proof.
  intros [Hcards Hempty] Hc%canPlaceOnFoundation_rule.
  unfold foundationRule in Hc. split; simpl.
  - intros i x Hi. apply lookup_app_Some in Hi as [Hi|[Hlen Hi]].
    + destruct (Hcards i x Hi) as [Hr Hs]. by rewrite Hs.
    + apply list_lookup_singleton_Some in Hi as [Hi <-].
      assert (i = length (cards f)) as -> by lia. clear Hi Hlen.
      destruct (top (cards f)) as [t|] eqn:Ht.
      * destruct Hc as [Hsuit Hrank].
        unfold top in Ht. rewrite last_lookup in Ht.
        destruct (Hcards _ _ Ht) as [Hr Hs]. rewrite Hs, Hsuit.
        split; [|done]. apply lookup_lt_Some in Ht. lia.
      * apply top_None in Ht. rewrite (Hempty Ht), Ht. simpl.
        split; [|done]. by apply getRankValue_ace.
  - by destruct (cards f).
Qed.

Lemma moves_foundations p fs a p' fs' d :
  moves p fs a p' fs' d →
  fs' = fs ∨
  ∃ fi f c, fs !! fi = Some f ∧ canPlaceOnFoundation f c = true ∧
            fs' = <[fi := pushFoundation f c]> fs.
Proof.
  destruct 1 as [| | |id fi f w c Hf _ Hc| |id from fi f keep c _ Hf _ Hc|
                 |id fi f n c Hf _ _ Hc]; try by left.
  all: right; apply at_index_Some in Hf as [_ Hf];
       by exists (Z.to_nat fi), f, c.
Qed.

Lemma finalize_foundations s i p' fs' d :
  foundations (finalize s i p' fs' d true) = fs'.
Proof. done. Qed.

(** One step changes a slot only by pushing a card its rule accepts. *)
Lemma step_foundation s a i f :
  foundations s !! i = Some f →
  ∃ f', foundations (applyNertsAction s a) !! i = Some f' ∧
        (f' = f ∨
         ∃ c, canPlaceOnFoundation f c = true ∧ f' = pushFoundation f c).
Proof.
  intros Hi.
  destruct (applyNertsAction_cases s a)
    as [->|(k & p & p' & fs' & d & _ & _ & _ & Hm & ->)]; [by eauto|].
  rewrite finalize_foundations.
  destruct (moves_foundations _ _ _ _ _ _ Hm) as [->|(fi & g & c & Hg & Hc & ->)];
    [by eauto|].
  destruct (decide (fi = i)) as [->|Hne].
  - rewrite list_lookup_insert_eq by (by eapply lookup_lt_Some).
    assert (g = f) as -> by congruence.
    exists (pushFoundation f c). split; [done|]. right. by exists c.
  - rewrite list_lookup_insert_ne by done. eauto.
Qed.

Lemma pushFoundation_suit f c su :
  fsuit f = Some su → fsuit (pushFoundation f c) = Some su.
Proof. intros H. unfold pushFoundation. simpl. by rewrite H. Qed.

Lemma applyAll_foundation_suit s acts i f su :
  foundations s !! i = Some f → fsuit f = Some su →
  ∃ f', foundations (applyAll s acts) !! i = Some f' ∧ fsuit f' = Some su.
Proof.
  intros Hi Hsu. induction acts as [|a acts IH] using rev_ind; [by eauto|].
  destruct IH as (f1 & H1 & Hs1). rewrite applyAll_snoc.
  destruct (step_foundation (applyAll s acts) a i f1 H1)
    as (f2 & H2 & [->|(c & _ & ->)]); [by eauto|].
  exists (pushFoundation f1 c). split; [done|]. by apply pushFoundation_suit.
Qed.

(** * Invariants of states *)

Lemma step_stateOk s a : stateOk s → stateOk (applyNertsAction s a).
Proof.
  intros [Hps Hfs].
  destruct (applyNertsAction_cases s a)
    as [->|(i & p & p' & fs' & d & _ & _ & Hp & Hm & ->)]; [done|].
  split.
  - unfold finalize. simpl. rewrite clonePlayers_id.
    apply Forall_insert; [done|].
    pose proof (Forall_lookup_1 _ _ _ _ Hps Hp) as Hok.
    apply (moves_playerOk _ _ _ _ _ _ Hok) in Hm. apply Hm.
  - rewrite finalize_foundations.
    destruct (moves_foundations _ _ _ _ _ _ Hm) as [->|(fi & g & c & Hg & Hc & ->)];
      [done|].
    apply Forall_insert; [done|]. apply pushFoundation_ok; [|done].
    by eapply (Forall_lookup_1 _ _ _ _ Hfs).
Qed.

Lemma step_totalCards s a :
  stateOk s → totalCards (applyNertsAction s a) = totalCards s.
Proof.
  intros Hok. rewrite !totalCards_weight.
  by apply step_totalWeight; [apply faceBlind_one|].
Qed.

(** Along a game every dealt card keeps the number of places it lies in. *)
Lemma step_occurrences k s a :
  stateOk s → occurrences k (applyNertsAction s a) = occurrences k s.
Proof.
  intros Hok. by apply step_totalWeight; [apply faceBlind_sameCard|].
Qed.

Lemma step_length_players s a :
  length (players (applyNertsAction s a)) = length (players s).
Proof.
  destruct (applyNertsAction_cases s a)
    as [->|(i & p & p' & fs' & d & _ & _ & _ & _ & ->)]; [done|].
  apply finalize_length.
Qed.

Lemma step_length_foundations s a :
  length (foundations (applyNertsAction s a)) = length (foundations s).
Proof.
  destruct (applyNertsAction_cases s a)
    as [->|(i & p & p' & fs' & d & _ & _ & _ & Hm & ->)]; [done|].
  rewrite finalize_foundations.
  destruct (moves_foundations _ _ _ _ _ _ Hm) as [->|(fi & g & c & _ & _ & ->)];
    [done|]. by rewrite length_insert.
Qed.

(** * The initial deal *)

Lemma length_createDeck : length createDeck = 52%nat.
Proof. reflexivity. Qed.

Lemma length_shuffle_loop rnd i copy :
  length (shuffle_loop rnd i copy) = length copy.
Proof.
  revert copy. induction i as [|i IH]; intros copy; [done|].
  cbn [shuffle_loop].
  destruct (copy !! S i) as [ci|]; [|apply IH].
  destruct (copy !! _) as [cj|]; [|apply IH].
  by rewrite IH, !length_insert.
Qed.

Lemma length_shuffle rnd deck : length (shuffle rnd deck) = length deck.
Proof. apply length_shuffle_loop. Qed.

Lemma length_tagDeck id deck : length (tagDeck id deck) = length deck.
Proof. apply length_imap. Qed.

Lemma dealPlayer_cards rnd id : playerCards (dealPlayer rnd id) = 52%nat.
Proof.
  unfold playerCards, dealPlayer. cbn [nertsPile tableau stock waste].
  rewrite length_imap, length_take, length_drop, length_tagDeck,
    length_shuffle, length_createDeck.
  reflexivity.
Qed.

Lemma dealPlayer_piles rnd id :
  length (nertsPile (dealPlayer rnd id)) = 13%nat ∧
  length <$> tableau (dealPlayer rnd id) = [1; 1; 1; 1]%nat ∧
  length (stock (dealPlayer rnd id)) = 35%nat ∧
  waste (dealPlayer rnd id) = [].
Proof.
  unfold dealPlayer. cbn [nertsPile tableau stock waste].
  rewrite length_imap, length_take, length_drop, length_tagDeck,
    length_shuffle, length_createDeck.
  done.
Qed.

Lemma dealPlayer_ok rnd id : playerOk (dealPlayer rnd id).
Proof.
  unfold playerOk, dealPlayer. cbn [tableau waste]. split_and!.
  - repeat constructor; apply descending_singleton.
  - repeat constructor.
  - constructor.
Qed.

Lemma Forall_imap_intro {A B} (P : B → Prop) (f : nat → A → B) (l : list A) :
  (∀ k x, P (f k x)) → Forall P (imap f l).
Proof.
  intros H. revert f H. induction l as [|x l IH]; intros f H; [constructor|].
  simpl. constructor; [apply H|]. apply IH. intros k y. apply H.
Qed.

Lemma sum_list_imap_const {A B} (g : B → nat) (f : nat → A → B) (l : list A) n :
  (∀ k x, g (f k x) = n) → sum_list (g <$> imap f l) = (n * length l)%nat.
Proof.
  intros H. revert f H. induction l as [|x l IH]; intros f H; simpl; [lia|].
  rewrite H. specialize (IH (f ∘ S)). unfold fmap in IH. rewrite IH; [lia|].
  intros k y. apply H.
Qed.

Lemma foundationCards_empty n :
  foundationCards (replicate n {| fsuit := None; cards := [] |}) = 0%nat.
Proof. induction n as [|n IH]; [done|]. unfold foundationCards in *. simpl. done. Qed.

Lemma initNerts_totalCards config rnd now :
  totalCards (initNerts config rnd now) = (52 * length (playerIds config))%nat.
Proof.
  unfold totalCards, initNerts. cbn [players foundations].
  rewrite foundationCards_empty.
  rewrite (sum_list_imap_const playerCards _ _ 52); [lia|].
  intros k x. apply dealPlayer_cards.
Qed.

Lemma initNerts_ok config rnd now : stateOk (initNerts config rnd now).
Proof.
  split; cbn [initNerts players foundations].
  - apply Forall_imap_intro. intros k x. apply dealPlayer_ok.
  - apply Forall_replicate. split; [done|done].
Qed.

(** What every state of a game satisfies. *)
Lemma reachable_invariant config s :
  reachable config s →
  stateOk s ∧
  totalCards s = (52 * length (playerIds config))%nat ∧
  length (players s) = length (playerIds config) ∧
  length (foundations s) = (length (playerIds config) * 4)%nat.
Proof.
  induction 1 as [rnd now|s a Hr (Hok & Htot & Hlp & Hlf)].
  - split_and!.
    + apply initNerts_ok.
    + apply initNerts_totalCards.
    + cbn [initNerts players]. apply length_imap.
    + cbn [initNerts foundations]. apply length_replicate.
  - split_and!.
    + by apply step_stateOk.
    + by rewrite step_totalCards.
    + by rewrite step_length_players.
    + by rewrite step_length_foundations.
Qed.

(** ** C3 *)

(** C3. In every state of a game (reached from [initNerts] by reducer
    steps) the cards of all Nerts piles, tableau columns, stocks, wastes and
    foundation slots number 52 times the number of players; a further
    action leaves that number unchanged and neither duplicates nor drops a
    card: every card lies in as many places after the action as before. *)
Theorem card_conservation config s :
  reachable config s →
  totalCards s = (52 * length (players s))%nat ∧
  length (players s) = length (playerIds config) ∧
  (∀ a, totalCards (applyNertsAction s a) = totalCards s) ∧
  (∀ a k, occurrences k (applyNertsAction s a) = occurrences k s).
Proof.
  intros Hr.
  destruct (reachable_invariant config s Hr) as (Hok & Htot & Hlp & _).
  split_and!; [congruence|done| |].
  - intros a. by apply step_totalCards.
  - intros a k. by apply step_occurrences.
Qed.

Lemma card_conservation_witness :
  let s := applyAll (initNerts (mkConfig ["a"; "b"]) (λ k i, (i * 7 + k)%nat) 5)
             [stock_draw "a"; nerts_to_tableau "b" 2; stock_draw "zz"] in
  totalCards s = (52 * length (players s))%nat ∧
  length (players s) = 2%nat ∧
  (∀ a, totalCards (applyNertsAction s a) = totalCards s) ∧
  (∀ a k, occurrences k (applyNertsAction s a) = occurrences k s).
Proof.
  apply (card_conservation (mkConfig ["a"; "b"])).
  apply reachable_applyAll. constructor.
Defined.

(** Outside games the reducer can duplicate cards: a run accepted onto
    its own column is appended to the unsliced column.  Columns of a game
    descend in rank, which excludes the move ([descending_no_self_move]). *)
Example self_move_duplicates :
  let s := {| players :=
                [ {| pid := "a"; nertsPile := [card "a" Hearts R5 "n1" true];
                     tableau := [[card "a" Hearts R5 "x1" true;
                                  card "a" Spades R6 "x2" true]];
                     stock := []; waste := []; score := 0 |} ];
              foundations := []; startedAt := 0; finished := false;
              winnerId := None |} in
  totalCards s = 3%nat ∧
  totalCards (applyNertsAction s (tableau_to_tableau "a" 0 0 "x1")) = 5%nat.
Proof. split; reflexivity. Qed.

(** ** C4 *)

(** C4. In every state of a game, for every foundation slot: the slot
    accepts a card only under the foundation rule (an Ace when empty;
    otherwise the suit of the slot and of its top card, and the top's rank
    value plus one); a step changes the slot only by pushing such a card;
    a suit once set stays for the rest of the game; and the slot reads
    A, 2, ..., n in the suit recorded for it. *)
Theorem foundation_monotone config s i f :
  reachable config s →
  foundations s !! i = Some f →
  (∀ c, canPlaceOnFoundation f c = true →
        foundationRule f c ∧ (cards f ≠ [] → fsuit f = Some (suit c))) ∧
  (∀ a, ∃ f', foundations (applyNertsAction s a) !! i = Some f' ∧
              (f' = f ∨ ∃ c, foundationRule f c ∧ f' = pushFoundation f c)) ∧
  (∀ su acts, fsuit f = Some su →
        ∃ f', foundations (applyAll s acts) !! i = Some f' ∧ fsuit f' = Some su) ∧
  (∀ k c, cards f !! k = Some c →
        getRankValue (rank c) = Z.of_nat k + 1 ∧ fsuit f = Some (suit c)) ∧
  (cards f = [] → fsuit f = None).
Proof.
  intros Hr Hi.
  destruct (reachable_invariant config s Hr) as ((_ & Hfs) & _).
  pose proof (Forall_lookup_1 _ _ _ _ Hfs Hi) as [Hcards Hempty].
  split_and!; [| | |done|done].
  - intros c Hc. split; [by apply canPlaceOnFoundation_rule|].
    intros Hne. apply canPlaceOnFoundation_rule in Hc. unfold foundationRule in Hc.
    destruct (top (cards f)) as [t|] eqn:Ht; [|by apply top_None in Ht].
    destruct Hc as [-> _]. unfold top in Ht. rewrite last_lookup in Ht.
    by destruct (Hcards _ _ Ht).
  - intros a.
    destruct (step_foundation s a i f Hi) as (f' & Hf' & [->|(c & Hc & ->)]);
      [by eauto|].
    exists (pushFoundation f c). split; [done|]. right. exists c.
    by rewrite <- canPlaceOnFoundation_rule.
  - intros su acts Hsu. by apply applyAll_foundation_suit with f.
Qed.

Lemma foundation_monotone_witness :
  let s := applyAll (initNerts (mkConfig ["a"; "b"]) (λ k i, (i * 7 + k)%nat) 5)
             [stock_draw "a"; nerts_to_tableau "b" 2] in
  ((∀ c, canPlaceOnFoundation emptyFoundation c = true →
         foundationRule emptyFoundation c ∧
         (cards emptyFoundation ≠ [] → fsuit emptyFoundation = Some (suit c))) ∧
   (∀ a, ∃ f', foundations (applyNertsAction s a) !! 3%nat = Some f' ∧
               (f' = emptyFoundation ∨
                ∃ c, foundationRule emptyFoundation c ∧
                     f' = pushFoundation emptyFoundation c))) ∧
  ∃ f, foundations exLate !! 0%nat = Some f ∧
       length (cards f) = 12%nat ∧ fsuit f = Some Spades ∧
       (∀ c, canPlaceOnFoundation f c = true →
             foundationRule f c ∧ (cards f ≠ [] → fsuit f = Some (suit c))) ∧
       (∀ a, ∃ f', foundations (applyNertsAction exLate a) !! 0%nat = Some f' ∧
                   (f' = f ∨ ∃ c, foundationRule f c ∧ f' = pushFoundation f c)) ∧
       (∀ k c, cards f !! k = Some c →
               getRankValue (rank c) = Z.of_nat k + 1 ∧
               fsuit f = Some (suit c)).
Proof.
  intros s. split.
  - destruct (foundation_monotone (mkConfig ["a"; "b"]) s 3 emptyFoundation)
      as (H1 & H2 & _).
    + apply reachable_applyAll. constructor.
    + vm_compute. reflexivity.
    + split; [exact H1 | exact H2].
  - assert (reachable (mkConfig ["a"; "b"]) exLate) as Hr.
    { unfold exLate, exDeal. apply reachable_applyAll, reachable_init. }
    destruct (foundations exLate !! 0%nat) as [f|] eqn:Hf.
    2: { vm_compute in Hf. discriminate Hf. }
    pose proof Hf as Hf'. vm_compute in Hf'. injection Hf' as Hf'.
    destruct (foundation_monotone (mkConfig ["a"; "b"]) exLate 0 f Hr Hf)
      as (H1 & H2 & _ & H4 & _).
    exists f. split; [reflexivity|].
    split; [by rewrite <- Hf'|]. split; [by rewrite <- Hf'|].
    split; [exact H1|]. split; [exact H2 | exact H4].
Defined.

(** ** C7 *)

(** C7 as worded fails outside games: the reducer looks at the named card
    only, and here it moves the face-down card lying on it. *)
Lemma covered_run_counterexample :
  accepted exCovered (tableau_to_tableau "a" 0 1 "x1") ∧
  ∃ p fromPile idx,
    actingPlayer exCovered (tableau_to_tableau "a" 0 1 "x1") = Some p ∧
    at_index (tableau p) 0 = Some fromPile ∧
    findIndex (λ c, bool_decide (cid c = "x1")) fromPile = Some idx ∧
    ¬ Forall (λ c, faceUp c = true) (drop idx fromPile).
Proof.
  split.
  - apply precondition_accepted. reflexivity.
  - eexists _, _, _. split_and!; [reflexivity..|].
    intros H. apply Forall_cons in H as [_ H]. apply Forall_cons in H as [H _].
    discriminate H.
Qed.

(** C7, amended. For every state, an accepted [tableau_to_tableau] names
    a face-up card, the bottom card of the moved run; the cards above it are
    not inspected.  Where no face-down card lies above a face-up card in the
    source column, and so in every state of a game (there all tableau cards
    are face-up), every card of the moved run is face-up. *)
Theorem moved_run_face_up s id from to cardId p fromPile idx :
  accepted s (tableau_to_tableau id from to cardId) →
  actingPlayer s (tableau_to_tableau id from to cardId) = Some p →
  at_index (tableau p) from = Some fromPile →
  findIndex (λ c, bool_decide (cid c = cardId)) fromPile = Some idx →
  (∃ c, fromPile !! idx = Some c ∧ faceUp c = true) ∧
  (upSuffix fromPile → Forall (λ c, faceUp c = true) (drop idx fromPile)) ∧
  (∀ config, reachable config s →
     Forall (λ c, faceUp c = true) (drop idx fromPile)).
Proof.
  intros Hacc%precondition_accepted Hp Hfrom Hidx.
  assert (∃ c, fromPile !! idx = Some c ∧ faceUp c = true) as (c & Hc & Hup).
  { revert Hacc. unfold precondition, playerCan. rewrite Hp, Hfrom.
    destruct (finished s); [done|]. simpl.
    destruct (at_index (tableau p) to); [|done]. rewrite Hidx.
    destruct (fromPile !! idx) as [c|]; [|done].
    intros [Hup _]%andb_true_iff. by exists c. }
  split_and!.
  - by exists c.
  - intros Hsuf. apply Forall_lookup. intros j cj Hj.
    rewrite lookup_drop in Hj. apply (Hsuf idx (idx + j)%nat c cj); (done || lia).
  - intros config Hr.
    destruct (reachable_invariant config s Hr) as ((Hps & _) & _).
    apply actingPlayer_Some in Hp as (k & _ & Hk).
    pose proof (Forall_lookup_1 _ _ _ _ Hps Hk) as Hok.
    apply at_index_Some in Hfrom as [_ Hfrom].
    destruct (tableau_lookup_ok p _ _ Hok Hfrom) as [_ Hu].
    by apply Forall_drop.
Qed.

Lemma moved_run_face_up_witness :
  let run := [card "a" Spades R7 "a-7♠-13" true;
              card "a" Hearts R6 "a-6♥-14" true] in
  reachable (mkConfig ["a"; "b"]) exRun ∧
  accepted exRun (tableau_to_tableau "a" 0 2 "a-7♠-13") ∧
  (∃ c, run !! 0%nat = Some c ∧ faceUp c = true) ∧
  (upSuffix run → Forall (λ c, faceUp c = true) (drop 0 run)) ∧
  (∀ config, reachable config exRun →
     Forall (λ c, faceUp c = true) (drop 0 run)).
Proof.
  intros run.
  assert (accepted exRun (tableau_to_tableau "a" 0 2 "a-7♠-13")) as Hacc.
  { apply precondition_accepted. vm_compute. reflexivity. }
  split; [unfold exRun; apply reachable_step, reachable_init|].
  split; [exact Hacc|].
  eapply (moved_run_face_up exRun "a" 0 2 "a-7♠-13" _ run 0%nat).
  - exact Hacc.
  - vm_compute. reflexivity.
  - vm_compute. reflexivity.
  - vm_compute. reflexivity.
Defined.

(** * The bot *)

Lemma forFirst_Some {A B} (body : nat → A → option B) i l b :
  forFirst body i l = Some b ↔
  ∃ j x, l !! j = Some x ∧ body (i + j)%nat x = Some b ∧
         ∀ j' x', (j' < j)%nat → l !! j' = Some x' → body (i + j')%nat x' = None.
Proof.
  revert i. induction l as [|y l IH]; intros i; simpl.
  - split; [done|]. by intros (j & x & ? & _).
  - destruct (body i y) as [b'|] eqn:Hy.
    + split.
      * intros [= ->]. exists 0%nat, y. rewrite Nat.add_0_r.
        split_and!; [done|done|]. intros; lia.
      * intros (j & x & Hj & Hb & Hlt). destruct j as [|j].
        -- injection Hj as <-. rewrite Nat.add_0_r in Hb. congruence.
        -- specialize (Hlt 0%nat y ltac:(lia) eq_refl).
           rewrite Nat.add_0_r in Hlt. congruence.
    + rewrite IH. split.
      * intros (j & x & Hj & Hb & Hlt). exists (S j), x.
        rewrite Nat.add_succ_r. split_and!; [done|done|].
        intros [|j'] x' Hlt' Hj'.
        -- injection Hj' as <-. by rewrite Nat.add_0_r.
        -- rewrite Nat.add_succ_r. apply Hlt; [lia|done].
      * intros (j & x & Hj & Hb & Hlt). destruct j as [|j].
        -- injection Hj as <-. rewrite Nat.add_0_r in Hb. congruence.
        -- exists j, x. rewrite Nat.add_succ_r in Hb. split_and!; [done|done|].
           intros j' x' Hlt' Hj'.
           specialize (Hlt (S j') x' ltac:(lia) Hj').
           by rewrite Nat.add_succ_r in Hlt.
Qed.

Lemma forFirst_None {A B} (body : nat → A → option B) i l :
  forFirst body i l = None ↔
  ∀ j x, l !! j = Some x → body (i + j)%nat x = None.
Proof.
  revert i. induction l as [|y l IH]; intros i; simpl.
  - split; [|done]. by intros _ j x.
  - destruct (body i y) as [b'|] eqn:Hy.
    + split; [done|]. intros H. specialize (H 0%nat y eq_refl).
      rewrite Nat.add_0_r in H. congruence.
    + rewrite IH. split.
      * intros H [|j] x Hj.
        -- injection Hj as <-. by rewrite Nat.add_0_r.
        -- rewrite Nat.add_succ_r. by apply H.
      * intros H j x Hj. specialize (H (S j) x Hj).
        by rewrite Nat.add_succ_r in H.
Qed.

Lemma resolvePlayer_acting s a p :
  resolvePlayer s (playerId a) = Some p ↔ actingPlayer s a = Some p.
Proof.
  rewrite actingPlayer_Some. unfold resolvePlayer, actingIndex. split.
  - destruct (list_find _ _) as [[i q]|] eqn:E; [|done]. simpl. intros [= ->].
    apply list_find_Some in E as (Hi & Hpid & Hlt).
    exists i. split; [|done]. apply findIndex_Some. exists p.
    split_and!; [done|by apply bool_decide_eq_true|].
    intros j y Hj Hji Hy%bool_decide_eq_true. by eapply Hlt.
  - intros (i & (x & Hx & HP%bool_decide_eq_true & Hlt)%findIndex_Some & Hp).
    assert (x = p) as -> by congruence.
    assert (list_find (λ q, pid q = playerId a) (players s) = Some (i, p)) as ->;
      [|done].
    apply list_find_Some. split_and!; [done|done|].
    intros j y Hj Hji Hy. eapply Hlt; [done|done|]. by apply bool_decide_eq_true.
Qed.

Lemma resolvePlayer_pid s botId p : resolvePlayer s botId = Some p → pid p = botId.
Proof.
  unfold resolvePlayer. destruct (list_find _ _) as [[i q]|] eqn:E; [|done].
  simpl. intros [= ->]. by apply list_find_Some in E as (_ & Hpid & _).
Qed.

(** For the resolved player, the precondition is the table's condition. *)
Lemma precondition_resolved s p a :
  finished s = false → resolvePlayer s (pid p) = Some p → playerId a = pid p →
  precondition s a = playerCan s p a.
Proof.
  intros Hfin Hp Ha. unfold precondition. rewrite Hfin. simpl.
  rewrite <- Ha in Hp. apply resolvePlayer_acting in Hp. by rewrite Hp.
Qed.

Lemma forFirst_if_Some {A B} (P : A → bool) (mk : nat → B) (l : list A) b :
  forFirst (λ i x, if P x then Some (mk i) else None) 0 l = Some b →
  ∃ j x, l !! j = Some x ∧ P x = true ∧ b = mk j.
Proof.
  intros (j & x & Hj & Hb & _)%forFirst_Some. simpl in Hb.
  exists j, x. destruct (P x); [|done]. injection Hb as <-. done.
Qed.

Lemma forFirst_if_None {A B} (P : A → bool) (mk : nat → B) (l : list A) j x :
  forFirst (λ i x, if P x then Some (mk i) else None) 0 l = None →
  l !! j = Some x → P x = false.
Proof.
  intros H Hj. rewrite forFirst_None in H. specialize (H j x Hj). simpl in H.
  by destruct (P x).
Qed.

(** Each search returns a feasible action of its step, and returns nothing
    only when its step has no feasible action. *)

Lemma findNertsToFoundation_Some s p a :
  findNertsToFoundation s p = Some a →
  inCategory p NertsToFoundation a ∧ playerCan s p a = true.
Proof.
  unfold findNertsToFoundation.
  destruct (top (nertsPile p)) as [t|] eqn:Ht; [|done].
  destruct (faceUp t) eqn:Hup; [|done]. simpl.
  intros (j & f & Hj & Hc & ->)%forFirst_if_Some. split; [done|].
  simpl. by rewrite at_index_of_nat, Hj, Ht, Hup, Hc.
Qed.

Lemma findNertsToFoundation_None s p a :
  findNertsToFoundation s p = None →
  inCategory p NertsToFoundation a → playerCan s p a = false.
Proof.
  unfold findNertsToFoundation. intros Hfind [_ Hcat].
  destruct a as [| | | | | |id fi]; try done. simpl.
  destruct (at_index (foundations s) fi) as [f|] eqn:Hf; [|done].
  destruct (top (nertsPile p)) as [t|]; [|done].
  destruct (faceUp t); [|done]. simpl in *.
  apply at_index_Some in Hf as [_ Hf].
  by apply (forFirst_if_None _ _ _ _ _ Hfind Hf).
Qed.

Lemma findWasteToFoundation_Some s p a :
  findWasteToFoundation s p = Some a →
  inCategory p WasteToFoundation a ∧ playerCan s p a = true.
Proof.
  unfold findWasteToFoundation.
  destruct (top (waste p)) as [t|] eqn:Ht; [|done].
  intros (j & f & Hj & Hc & ->)%forFirst_if_Some. split; [done|].
  simpl. by rewrite at_index_of_nat, Hj, Ht, Hc.
Qed.

Lemma findWasteToFoundation_None s p a :
  findWasteToFoundation s p = None →
  inCategory p WasteToFoundation a → playerCan s p a = false.
Proof.
  unfold findWasteToFoundation. intros Hfind [_ Hcat].
  destruct a as [| |id fi| | | |]; try done. simpl.
  destruct (at_index (foundations s) fi) as [f|] eqn:Hf; [|done].
  destruct (top (waste p)) as [t|]; [|done].
  apply at_index_Some in Hf as [_ Hf].
  by apply (forFirst_if_None _ _ _ _ _ Hfind Hf).
Qed.

Lemma findNertsToTableau_Some s p a :
  findNertsToTableau s p = Some a →
  inCategory p NertsToTableau a ∧ playerCan s p a = true.
Proof.
  unfold findNertsToTableau.
  destruct (top (nertsPile p)) as [t|] eqn:Ht; [|done].
  destruct (faceUp t) eqn:Hup; [|done]. simpl.
  intros (j & dest & Hj & Hc & ->)%(forFirst_if_Some
    (λ dest, canPlaceOnTableau (top dest) t true)). split; [done|].
  simpl. by rewrite at_index_of_nat, Hj, Ht, Hup, Hc.
Qed.

Lemma findNertsToTableau_None s p a :
  findNertsToTableau s p = None →
  inCategory p NertsToTableau a → playerCan s p a = false.
Proof.
  unfold findNertsToTableau. intros Hfind [_ Hcat].
  destruct a as [| | | | |id ti|]; try done. simpl.
  destruct (at_index (tableau p) ti) as [dest|] eqn:Hd; [|done].
  destruct (top (nertsPile p)) as [t|]; [|done].
  destruct (faceUp t); [|done]. simpl in *.
  apply at_index_Some in Hd as [_ Hd].
  by apply (forFirst_if_None (λ dest, canPlaceOnTableau (top dest) t true)
              _ _ _ _ Hfind Hd).
Qed.

Lemma findWasteToTableau_Some s p a :
  findWasteToTableau s p = Some a →
  inCategory p WasteToTableau a ∧ playerCan s p a = true.
Proof.
  unfold findWasteToTableau.
  destruct (top (waste p)) as [t|] eqn:Ht; [|done].
  intros (j & dest & Hj & Hc & ->)%(forFirst_if_Some
    (λ dest, canPlaceOnTableau (top dest) t false)). split; [done|].
  simpl. by rewrite at_index_of_nat, Hj, Ht, Hc.
Qed.

Lemma findWasteToTableau_None s p a :
  findWasteToTableau s p = None →
  inCategory p WasteToTableau a → playerCan s p a = false.
Proof.
  unfold findWasteToTableau. intros Hfind [_ Hcat].
  destruct a as [|id ti| | | | |]; try done. simpl.
  destruct (at_index (tableau p) ti) as [dest|] eqn:Hd; [|done].
  destruct (top (waste p)) as [t|]; [|done].
  apply at_index_Some in Hd as [_ Hd].
  by apply (forFirst_if_None (λ dest, canPlaceOnTableau (top dest) t false)
              _ _ _ _ Hfind Hd).
Qed.

Lemma findTableauToFoundation_Some s p a :
  findTableauToFoundation s p = Some a →
  inCategory p TableauToFoundation a ∧ playerCan s p a = true.
Proof.
  unfold findTableauToFoundation.
  intros (t & pile & Ht & Hbody & _)%forFirst_Some. simpl in Hbody.
  destruct (top pile) as [c|] eqn:Hc; [|done].
  destruct (faceUp c) eqn:Hup; [|done]. simpl in Hbody.
  apply forFirst_if_Some in Hbody as (j & f & Hj & Hpl & ->). split; [done|].
  simpl. by rewrite !at_index_of_nat, Ht, Hj, Hc, Hup, Hpl.
Qed.

Lemma findTableauToFoundation_None s p a :
  findTableauToFoundation s p = None →
  inCategory p TableauToFoundation a → playerCan s p a = false.
Proof.
  unfold findTableauToFoundation. intros Hfind [_ Hcat].
  destruct a as [| | | |id from fi| |]; try done. simpl.
  destruct (at_index (tableau p) from) as [pile|] eqn:Hfrom; [|done].
  destruct (at_index (foundations s) fi) as [f|] eqn:Hf; [|done].
  destruct (top pile) as [c|] eqn:Hc; [|done].
  destruct (faceUp c) eqn:Hup; [|done]. simpl.
  apply at_index_Some in Hfrom as [_ Hfrom].
  apply at_index_Some in Hf as [_ Hf].
  rewrite forFirst_None in Hfind. specialize (Hfind _ _ Hfrom). simpl in Hfind.
  rewrite Hc, Hup in Hfind. simpl in Hfind.
  by apply (forFirst_if_None _ _ _ _ _ Hfind Hf).
Qed.

Lemma findIndex_unique pile idx card :
  NoDup (cid <$> pile) → pile !! idx = Some card →
  findIndex (λ c, bool_decide (cid c = cid card)) pile = Some idx.
Proof.
  intros Hnd Hc. apply findIndex_Some. exists card.
  split_and!; [done|by apply bool_decide_eq_true|].
  intros j y Hj Hlt Hy%bool_decide_eq_true.
  assert (j = idx); [|lia].
  apply (NoDup_lookup (cid <$> pile) j idx (cid card)); [done| |].
  - by rewrite list_lookup_fmap, Hj, <- Hy.
  - by rewrite list_lookup_fmap, Hc.
Qed.

Lemma findTableauToTableau_Some s p a :
  wellTagged p ∨ Forall allUp (tableau p) →
  findTableauToTableau s p = Some a →
  inCategory p TableauToTableau a ∧ playerCan s p a = true.
Proof.
  intros Hwf. unfold findTableauToTableau.
  intros (from & pile & Hpile & Hbody & _)%forFirst_Some. simpl in Hbody.
  apply forFirst_Some in Hbody as (idx & c & Hc & Hbody & _). simpl in Hbody.
  destruct (faceUp c) eqn:Hup; [|done]. simpl in Hbody.
  case_bool_decide as Hpos; [|done].
  destruct (pile !! (idx - 1)%nat) as [cb|] eqn:Hcb; [|done].
  destruct (faceUp cb) eqn:Hdown; [done|].
  apply forFirst_Some in Hbody as (to & dest & Hdest & Hbody & _). simpl in Hbody.
  case_bool_decide as Hne; [done|].
  destruct (canPlaceOnTableau (top dest) c false) eqn:Hpl; [|done].
  injection Hbody as <-.
  assert (findIndex (λ x, bool_decide (cid x = cid c)) pile = Some idx) as Hidx.
  { destruct Hwf as [Hwf|Hall].
    - apply findIndex_unique; [|done].
      by apply (Forall_lookup_1 _ _ _ _ Hwf Hpile).
    - pose proof (Forall_lookup_1 _ _ _ _ Hall Hpile) as Hu.
      pose proof (Forall_lookup_1 _ _ _ _ Hu Hcb) as Hcbup. simpl in Hcbup.
      congruence. }
  split.
  - split; [done|]. split; [lia|].
    exists pile, (idx - 1)%nat, cb. rewrite at_index_of_nat.
    replace (S (idx - 1)) with idx by lia. done.
  - simpl. by rewrite !at_index_of_nat, Hpile, Hdest, Hidx, Hc, Hup, Hpl.
Qed.

Lemma findTableauToTableau_None s p a :
  findTableauToTableau s p = None →
  inCategory p TableauToTableau a → playerCan s p a = false.
Proof.
  unfold findTableauToTableau. intros Hfind [_ Hcat].
  destruct a as [| | |id from to cardId| | |]; try done.
  destruct Hcat as (Hne & pile & idx & cb & Hfrom & Hidx & Hcb & Hdown).
  simpl. rewrite Hfrom.
  destruct (at_index (tableau p) to) as [dest|] eqn:Hto; [|done].
  rewrite Hidx.
  destruct (pile !! S idx) as [c|] eqn:Hc; [|done].
  destruct (faceUp c) eqn:Hup; [|done]. simpl.
  apply at_index_Some in Hfrom as [Hf0 Hfrom].
  apply at_index_Some in Hto as [Ht0 Hto].
  rewrite forFirst_None in Hfind. specialize (Hfind _ _ Hfrom). simpl in Hfind.
  rewrite forFirst_None in Hfind. specialize (Hfind _ _ Hc). simpl in Hfind.
  rewrite Hup in Hfind. simpl in Hfind.
  replace (idx - 0)%nat with idx in Hfind by lia.
  rewrite Hcb, Hdown in Hfind.
  rewrite forFirst_None in Hfind. specialize (Hfind _ _ Hto). simpl in Hfind.
  rewrite bool_decide_eq_false_2 in Hfind by lia.
  by destruct (canPlaceOnTableau (top dest) c false).
Qed.

(** ** C9 *)

Lemma botStep_unresolved s botId :
  finished s = true ∨ resolvePlayer s botId = None → botStep s botId = s.
Proof.
  unfold botStep, resolvePlayer. intros [->|H]; [done|].
  destruct (finished s); [done|].
  by destruct (list_find _ _) as [[i q]|].
Qed.

(** C9, amended. For the player [botStep] resolves, in a state whose card
    ids are distinct within each of that player's tableau columns (as they
    are dealt) or in any state of a game, [botStep] applies through the
    reducer an action of the first step of the cascade that has a feasible
    action: Nerts to foundation, tableau top to foundation, waste to
    foundation, Nerts to tableau, a tableau run onto another column whose
    move exposes a face-down card, waste to tableau, and otherwise a stock
    draw.  The searches are pure functions of the state. *)
Theorem bot_priority_cascade s botId p :
  resolvePlayer s botId = Some p →
  wellTagged p ∨ (∃ config, reachable config s) →
  ∃ a, botStep s botId = applyNertsAction s a ∧
       playerId a = botId ∧
       firstFeasible s p a.
Proof.
  intros Hp Hwf.
  assert (pid p = botId) as Hpid by (by eapply resolvePlayer_pid).
  destruct (finished s) eqn:Hfin.
  { exists (stock_draw botId). split_and!; [|done|].
    - by rewrite applyNertsAction_finished, botStep_unresolved by auto.
    - exists StockDraw. split_and!; [done|by left|].
      intros k' a' _ _. by apply precondition_finished. }
  assert (wellTagged p ∨ Forall allUp (tableau p)) as Hwf'.
  { destruct Hwf as [?|(config & Hr)]; [by left|right].
    destruct (reachable_invariant config s Hr) as ((Hps & _) & _).
    unfold resolvePlayer in Hp.
    destruct (list_find _ _) as [[i q]|] eqn:E; [|done].
    injection Hp as ->. apply list_find_Some in E as (Hi & _).
    by destruct (Forall_lookup_1 _ _ _ _ Hps Hi) as (_ & ? & _). }
  assert (∀ a, playerId a = pid p → precondition s a = playerCan s p a) as Hpre.
  { intros a Ha. apply precondition_resolved; [done| |done]. by rewrite Hpid. }
  exists (chooseAction s p botId). split.
  { unfold botStep, resolvePlayer in *. rewrite Hfin.
    destruct (list_find _ _) as [[i q]|]; [|done]. by injection Hp as ->. }
  unfold chooseAction, firstFeasible.
  assert (∀ k a', inCategory p k a' → playerId a' = pid p) as Hcatid.
  { by intros k a' [? _]. }
  destruct (findNertsToFoundation s p) as [a|] eqn:H1; simpl.
  { destruct (findNertsToFoundation_Some _ _ _ H1) as [Hc Hf].
    split; [by rewrite (Hcatid _ _ Hc)|].
    exists NertsToFoundation. split_and!; [done|by right; rewrite Hpre; eauto|].
    intros k' a' Hlt. destruct k'; simpl in Hlt; lia. }
  destruct (findTableauToFoundation s p) as [a|] eqn:H2; simpl.
  { destruct (findTableauToFoundation_Some _ _ _ H2) as [Hc Hf].
    split; [by rewrite (Hcatid _ _ Hc)|].
    exists TableauToFoundation. split_and!; [done|by right; rewrite Hpre; eauto|].
    intros k' a' Hlt Hc'. rewrite Hpre by eauto.
    destruct k'; simpl in Hlt; try lia.
    by apply findNertsToFoundation_None. }
  destruct (findWasteToFoundation s p) as [a|] eqn:H3; simpl.
  { destruct (findWasteToFoundation_Some _ _ _ H3) as [Hc Hf].
    split; [by rewrite (Hcatid _ _ Hc)|].
    exists WasteToFoundation. split_and!; [done|by right; rewrite Hpre; eauto|].
    intros k' a' Hlt Hc'. rewrite Hpre by eauto.
    destruct k'; simpl in Hlt; try lia.
    - by apply findNertsToFoundation_None.
    - by apply findTableauToFoundation_None. }
  destruct (findNertsToTableau s p) as [a|] eqn:H4; simpl.
  { destruct (findNertsToTableau_Some _ _ _ H4) as [Hc Hf].
    split; [by rewrite (Hcatid _ _ Hc)|].
    exists NertsToTableau. split_and!; [done|by right; rewrite Hpre; eauto|].
    intros k' a' Hlt Hc'. rewrite Hpre by eauto.
    destruct k'; simpl in Hlt; try lia.
    - by apply findNertsToFoundation_None.
    - by apply findTableauToFoundation_None.
    - by apply findWasteToFoundation_None. }
  destruct (findTableauToTableau s p) as [a|] eqn:H5; simpl.
  { destruct (findTableauToTableau_Some _ _ _ Hwf' H5) as [Hc Hf].
    split; [by rewrite (Hcatid _ _ Hc)|].
    exists TableauToTableau. split_and!; [done|by right; rewrite Hpre; eauto|].
    intros k' a' Hlt Hc'. rewrite Hpre by eauto.
    destruct k'; simpl in Hlt; try lia.
    - by apply findNertsToFoundation_None.
    - by apply findTableauToFoundation_None.
    - by apply findWasteToFoundation_None.
    - by apply findNertsToTableau_None. }
  destruct (findWasteToTableau s p) as [a|] eqn:H6; simpl.
  { destruct (findWasteToTableau_Some _ _ _ H6) as [Hc Hf].
    split; [by rewrite (Hcatid _ _ Hc)|].
    exists WasteToTableau. split_and!; [done|by right; rewrite Hpre; eauto|].
    intros k' a' Hlt Hc'. rewrite Hpre by eauto.
    destruct k'; simpl in Hlt; try lia.
    - by apply findNertsToFoundation_None.
    - by apply findTableauToFoundation_None.
    - by apply findWasteToFoundation_None.
    - by apply findNertsToTableau_None.
    - by apply findTableauToTableau_None. }
  split; [done|].
  exists StockDraw. split_and!; [done|by left|].
  intros k' a' Hlt Hc'. rewrite Hpre by eauto.
  destruct k'; simpl in Hlt; try lia.
  - by apply findNertsToFoundation_None.
  - by apply findTableauToFoundation_None.
  - by apply findWasteToFoundation_None.
  - by apply findNertsToTableau_None.
  - by apply findTableauToTableau_None.
  - by apply findWasteToTableau_None.
Qed.

Lemma bot_priority_cascade_witness :
  ∃ a, botStep exBot "a" = applyNertsAction exBot a ∧
       playerId a = "a" ∧ firstFeasible exBot exBotPlayer a.
Proof.
  apply (bot_priority_cascade exBot "a" exBotPlayer).
  - reflexivity.
  - left. apply (bool_decide_unpack _). vm_compute. exact I.
Defined.

(** The cascade at work: the run on the face-down card goes to the King. *)
Example bot_exposes_face_down :
  chooseAction exBot exBotPlayer "a" = tableau_to_tableau "a" 0 1 "t2" ∧
  (tableau <$> players (botStep exBot "a")) =
    [[[card "a" Clubs R9 "t1" true];
      [card "a" Spades RK "t3" true; card "a" Hearts RQ "t2" true];
      [card "a" Diamonds R2 "t4" true];
      [card "a" Hearts R2 "t5" true]]].
Proof. split; reflexivity. Qed.

(** Why ids must be distinct within a column: the reducer looks the card
    up by id, finds its face-down twin first and rejects the action the
    search proposed, although a stock draw is feasible. *)
Example bot_needs_distinct_ids :
  chooseAction exTwins exTwinsPlayer "a" = tableau_to_tableau "a" 0 1 "t2" ∧
  botStep exTwins "a" = exTwins ∧
  precondition exTwins (stock_draw "a") = true.
Proof. split_and!; reflexivity. Qed.

(** C9 as worded fails where two cards of a tableau column share an id:
    in [exTwins] the player resolves, but [botStep], which returns the
    state as it is, applies no action of the first feasible step of the
    cascade, for a stock draw is feasible and would change the state. *)
Lemma bot_cascade_counterexample :
  resolvePlayer exTwins "a" = Some exTwinsPlayer ∧
  ¬ ∃ a, botStep exTwins "a" = applyNertsAction exTwins a ∧
         playerId a = "a" ∧
         firstFeasible exTwins exTwinsPlayer a.
Proof.
  split; [reflexivity|].
  intros (a & Hstep & Hid & k & [Hpid Hcat] & Hfeasible & _).
  assert (botStep exTwins "a" = exTwins) as Hidle by reflexivity.
  assert (precondition exTwins a ≠ true) as Hno.
  { intros Hacc%precondition_accepted. apply Hacc. congruence. }
  destruct Hfeasible as [->|Hyes]; [|done].
  destruct a as [id| | | | | |]; try done.
  simpl in Hid. subst id. by apply Hno.
Qed.

(** * Further properties of the engine *)

(** ** The deck and the shuffle *)

Lemma shuffle_loop_Permutation rnd i copy : shuffle_loop rnd i copy ≡ₚ copy.
Proof.
  revert copy. induction i as [|i IH]; intros copy; [done|].
  cbn [shuffle_loop]. generalize (rnd (S i) `mod` (S i + 1))%nat. intros j.
  destruct (copy !! S i) as [ci|] eqn:Hi.
  - destruct (copy !! j) as [cj|] eqn:Hj; [|apply IH].
    rewrite IH. by apply Permutation_insert_swap.
  - destruct (copy !! j); apply IH.
Qed.

(** X1. Whatever the random draws, [shuffle] returns a permutation of the
    deck it is given: the same cards, each as often as before. *)
Theorem shuffle_Permutation rnd deck : shuffle rnd deck ≡ₚ deck.
Proof. unfold shuffle. apply shuffle_loop_Permutation. Qed.

Lemma NoDup_createDeck : NoDup createDeck.
Proof. apply (bool_decide_unpack _). vm_compute. exact I. Qed.

Lemma elem_of_createDeck c : c ∈ createDeck.
Proof.
  destruct c as [s r].
  destruct s, r; apply (bool_decide_unpack _); vm_compute; exact I.
Qed.

(** X2. A freshly shuffled deck holds each of the 52 suit and rank
    combinations exactly once. *)
Theorem shuffled_deck_complete rnd :
  length (shuffle rnd createDeck) = 52%nat ∧
  NoDup (shuffle rnd createDeck) ∧
  ∀ c, c ∈ shuffle rnd createDeck.
Proof.
  assert (shuffle rnd createDeck ≡ₚ createDeck) as Hp.
  { apply shuffle_loop_Permutation. }
  split_and!.
  - rewrite Hp. reflexivity.
  - rewrite Hp. apply NoDup_createDeck.
  - intros c. rewrite Hp. apply elem_of_createDeck.
Qed.

(** ** The deal *)

Lemma cardOf_tagDeck id deck : cardOf <$> tagDeck id deck = deck.
Proof.
  apply list_eq. intros i. unfold tagDeck.
  rewrite list_lookup_fmap, list_lookup_imap.
  by destruct (deck !! i) as [[]|].
Qed.

Lemma tagDeck_tags id deck :
  Forall (λ c, ownerId c = id ∧ faceUp c = false) (tagDeck id deck).
Proof.
  apply Forall_lookup. intros i c. unfold tagDeck. rewrite list_lookup_imap.
  destruct (deck !! i); [|done]. by intros [= <-].
Qed.

Lemma tableau_seeds (l : list NertsCard) :
  (17 ≤ length l)%nat →
  [l !!! 13%nat; l !!! 14%nat; l !!! 15%nat; l !!! 16%nat] = take 4 (drop 13 l).
Proof.
  intros Hl. do 17 (destruct l as [|? l]; [simpl in Hl; lia|]). reflexivity.
Qed.

Lemma length_dealt rnd id : length (tagDeck id (shuffle rnd createDeck)) = 52%nat.
Proof. by rewrite length_tagDeck, length_shuffle. Qed.

(** The piles of a dealt player, read off the tagged deck. *)
Lemma dealPlayer_piles_eq rnd id :
  let all := tagDeck id (shuffle rnd createDeck) in
  nertsPile (dealPlayer rnd id) =
    imap (λ i c, if decide (i = 12%nat) then makeFaceUp c else c) (take 13 all) ∧
  concat (tableau (dealPlayer rnd id)) = makeFaceUp <$> take 4 (drop 13 all) ∧
  stock (dealPlayer rnd id) = drop 17 all ∧
  waste (dealPlayer rnd id) = [].
Proof.
  intros all. pose proof (length_dealt rnd id) as Hlen. fold all in Hlen.
  unfold dealPlayer. fold all. cbn [nertsPile tableau stock waste].
  split_and!; [|by rewrite <- tableau_seeds by lia|done|done].
  rewrite length_take, Hlen. done.
Qed.

Lemma allDown_onlyTopUp_imap (l : list NertsCard) n :
  allDown l → length l = S n →
  onlyTopUp (imap (λ i c, if decide (i = n) then makeFaceUp c else c) l).
Proof.
  intros Hd Hl i c. rewrite list_lookup_imap, length_imap, Hl.
  destruct (l !! i) as [x|] eqn:Hx; [|done]. intros [= <-].
  pose proof (Forall_lookup_1 _ _ _ _ Hd Hx) as Hdown. simpl in Hdown.
  destruct (decide (i = n)) as [->|Hne].
  - by rewrite bool_decide_eq_true_2.
  - rewrite bool_decide_eq_false_2 by lia. done.
Qed.

Lemma cardOf_flip_imap (l : list NertsCard) n :
  cardOf <$> imap (λ i c, if decide (i = n) then makeFaceUp c else c) l
  = cardOf <$> l.
Proof.
  apply list_eq. intros i. rewrite !list_lookup_fmap, list_lookup_imap.
  destruct (l !! i) as [x|]; [|done]. simpl. by destruct (decide (i = n)).
Qed.

Lemma cardOf_makeFaceUp (l : list NertsCard) :
  cardOf <$> (makeFaceUp <$> l) = cardOf <$> l.
Proof. rewrite <- list_fmap_compose. by apply list_fmap_ext. Qed.

Lemma dealPlayer_faces rnd id : facesOk (dealPlayer rnd id).
Proof.
  pose proof (length_dealt rnd id) as Hlen.
  destruct (dealPlayer_piles_eq rnd id) as (Hn & _ & Hs & Hw).
  assert (allDown (tagDeck id (shuffle rnd createDeck))) as Hall.
  { eapply Forall_impl; [apply tagDeck_tags|]. by intros c [_ ?]. }
  split_and!.
  - rewrite Hn. apply allDown_onlyTopUp_imap.
    + by apply Forall_take.
    + rewrite length_take, Hlen. done.
  - by destruct (dealPlayer_ok rnd id) as (_ & ? & _).
  - rewrite Hs. by apply Forall_drop.
  - rewrite Hw. constructor.
Qed.

Lemma dealPlayer_cardList rnd id :
  cardOf <$> playerCardList (dealPlayer rnd id) = shuffle rnd createDeck ∧
  Forall (λ c, ownerId c = id) (playerCardList (dealPlayer rnd id)).
Proof.
  destruct (dealPlayer_piles_eq rnd id) as (Hn & Ht & Hs & Hw).
  unfold playerCardList. rewrite Hn, Ht, Hs, Hw, app_nil_r. split.
  - rewrite !fmap_app, cardOf_flip_imap, cardOf_makeFaceUp, <- !fmap_app.
    replace 17%nat with (13 + 4)%nat by done.
    rewrite <- drop_drop, take_drop, take_drop. apply cardOf_tagDeck.
  - assert (Forall (λ c, ownerId c = id) (tagDeck id (shuffle rnd createDeck)))
      as Hall.
    { eapply Forall_impl; [apply tagDeck_tags|]. by intros c [? _]. }
    rewrite !Forall_app. split_and!.
    + apply Forall_lookup. intros i c. rewrite list_lookup_imap.
      destruct (take 13 _ !! i) as [x|] eqn:Hx; [|done]. intros [= <-].
      apply lookup_take_Some in Hx as [Hx _].
      pose proof (Forall_lookup_1 _ _ _ _ Hall Hx) as Ho.
      simpl in Ho. by destruct (decide (i = 12%nat)).
    + apply Forall_fmap. eapply Forall_impl; [apply Forall_take, Forall_drop, Hall|].
      done.
    + by apply Forall_drop.
Qed.

(** X3. [initNerts] deals every listed player, in order, a full deck of
    their own: 13 cards on the Nerts pile with only the top face-up, four
    tableau columns of one face-up card, 35 face-down cards in the stock,
    an empty waste and score 0; together the piles hold each suit and rank
    exactly once, every card owned by that player. *)
Theorem initNerts_deal config rnd now k id :
  playerIds config !! k = Some id →
  ∃ p, players (initNerts config rnd now) !! k = Some p ∧
       pid p = id ∧ score p = 0 ∧
       length (nertsPile p) = 13%nat ∧
       length <$> tableau p = [1; 1; 1; 1]%nat ∧
       length (stock p) = 35%nat ∧ waste p = [] ∧
       facesOk p ∧
       Forall (λ c, ownerId c = id) (playerCardList p) ∧
       cardOf <$> playerCardList p ≡ₚ createDeck.
Proof.
  intros Hk. exists (dealPlayer (rnd k) id).
  destruct (dealPlayer_piles (rnd k) id) as (Hn & Ht & Hs & Hw).
  destruct (dealPlayer_cardList (rnd k) id) as (Hcards & Hown).
  split_and!; try done.
  - cbn [initNerts players]. by rewrite list_lookup_imap, Hk.
  - apply dealPlayer_faces.
  - rewrite Hcards. apply shuffle_loop_Permutation.
Qed.

Lemma initNerts_deal_witness :
  ∃ p, players (initNerts (mkConfig ["a"; "b"]) (λ k i, (i * 7 + k)%nat) 5) !! 1%nat
         = Some p ∧
       pid p = "b" ∧ score p = 0 ∧
       length (nertsPile p) = 13%nat ∧
       length <$> tableau p = [1; 1; 1; 1]%nat ∧
       length (stock p) = 35%nat ∧ waste p = [] ∧
       facesOk p ∧
       Forall (λ c, ownerId c = "b") (playerCardList p) ∧
       cardOf <$> playerCardList p ≡ₚ createDeck.
Proof.
  apply (initNerts_deal (mkConfig ["a"; "b"]) (λ k i, (i * 7 + k)%nat) 5 1 "b").
  reflexivity.
Defined.

(** ** Invariants of a game, continued *)

Ltac moves_cases Hm :=
  destruct Hm as [id Hst k|id Hst Hwne|id ti dest wst c Hdest Hwaste Hc
                 |id fi f wst c Hf Hwaste Hc
                 |id from to cardId toPile keep c run Hfrom Hto Hidx Hup Hc
                 |id from fi f keep c Hfrom Hf Hup Hc
                 |id ti dest n c Hdest Hn Hup Hc|id fi f n c Hf Hn Hup Hc].

(** Induction over the states of a game, one accepted move at a time. *)
Lemma reachable_moves_ind config (P : NertsState → Prop) :
  (∀ rnd now, P (initNerts config rnd now)) →
  (∀ s a i p p' fs' d,
     reachable config s → P s → finished s = false →
     actingIndex s a = Some i → players s !! i = Some p →
     moves p (foundations s) a p' fs' d →
     P (finalize s i p' fs' d true)) →
  ∀ s, reachable config s → P s.
Proof.
  intros Hinit Hstep s. induction 1 as [rnd now|s a Hr IH]; [apply Hinit|].
  destruct (applyNertsAction_cases s a)
    as [->|(i & p & p' & fs' & d & Hfin & Hi & Hp & Hm & ->)]; [done|].
  by eapply Hstep.
Qed.

(** The players of a finalized state: the mover's record replaced. *)
Lemma finalize_players s i p' fs' d :
  players (finalize s i p' fs' d true) =
    <[i := {| pid := pid p'; nertsPile := nertsPile p'; tableau := tableau p';
              stock := stock p'; waste := waste p'; score := numberAdd (score p') d |}]>
      (players s).
Proof. unfold finalize. cbn [negb players]. by rewrite clonePlayers_id. Qed.

Lemma onlyTopUp_snoc n c :
  onlyTopUp (n ++ [c]) → allDown n ∧ faceUp c = true.
Proof.
  intros H. split.
  - apply Forall_lookup. intros i x Hi.
    rewrite (H i x) by (by apply lookup_app_l_Some).
    apply lookup_lt_Some in Hi. rewrite length_app. simpl.
    rewrite bool_decide_eq_false_2 by lia. done.
  - rewrite (H (length n) c) by (by apply list_lookup_middle).
    rewrite length_app. simpl. rewrite bool_decide_eq_true_2 by lia. done.
Qed.

Lemma allDown_flipTop n : allDown n → onlyTopUp (flipTop n).
Proof.
  intros Hd. induction n as [|x n _] using rev_ind; [by intros i y|].
  rewrite flipTop_snoc.
  apply Forall_app in Hd as [Hd Hx]. apply Forall_inv in Hx.
  simpl in Hx. rewrite Hx. intros i y Hi. rewrite length_app. simpl.
  apply lookup_app_Some in Hi as [Hi|[Hlen Hi]].
  - rewrite (Forall_lookup_1 _ _ _ _ Hd Hi). apply lookup_lt_Some in Hi.
    rewrite bool_decide_eq_false_2 by lia. done.
  - apply list_lookup_singleton_Some in Hi as [Hi <-]. simpl.
    rewrite bool_decide_eq_true_2 by lia. done.
Qed.

Lemma allDown_makeFaceDown l : allDown (makeFaceDown <$> l).
Proof. apply Forall_fmap, Forall_forall. done. Qed.

(** A move keeps the faces as a game has them, and pushes only face-up
    cards onto foundations. *)
Lemma moves_facesOk p fs a p' fs' d :
  facesOk p → Forall (λ f, allUp (cards f)) fs → moves p fs a p' fs' d →
  facesOk p' ∧ Forall (λ f, allUp (cards f)) fs'.
Proof.
  intros (Hnf & Ht & Hs & Hw) Hfs Hm.
  assert (∀ i col, tableau p !! i = Some col → allUp col) as Hcol.
  { intros i col Hi. by eapply (Forall_lookup_1 _ _ _ _ Ht). }
  assert (∀ fi f c, fs !! fi = Some f → faceUp c = true →
            Forall (λ f, allUp (cards f)) (<[fi := pushFoundation f c]> fs))
    as Hpush.
  { intros fi f c Hf Hup. apply Forall_insert; [done|].
    cbn [pushFoundation cards]. apply allUp_app. split.
    - by eapply (Forall_lookup_1 _ _ _ _ Hfs).
    - by repeat constructor. }
  moves_cases Hm; unfold facesOk; cbn [withPiles nertsPile tableau stock waste].
  - split; [|done]. split_and!; [done|done|by apply Forall_take|].
    apply allUp_app. split; [done|apply allUp_makeFaceUp].
  - split; [|done]. split_and!; [done|done|apply allDown_makeFaceDown|constructor].
  - split; [|done]. apply at_index_Some in Hdest as [_ Hdest].
    rewrite Hwaste in Hw. apply allUp_app in Hw as [Hw1 Hw2].
    split_and!; [done| |done|done].
    apply Forall_insert; [done|]. apply allUp_app. split; [by eapply Hcol|done].
  - apply at_index_Some in Hf as [_ Hf].
    rewrite Hwaste in Hw. apply allUp_app in Hw as [Hw1 Hw2].
    apply Forall_inv in Hw2. split; [done|by apply Hpush].
  - split; [|done].
    apply at_index_Some in Hfrom as [_ Hfrom]. apply at_index_Some in Hto as [_ Hto].
    pose proof (Hcol _ _ Hfrom) as Hfu. apply allUp_app in Hfu as [Hku Hru].
    split_and!; [done| |done|done].
    apply Forall_insert; [apply Forall_insert|]; [done|by apply flipTop_allUp|].
    apply allUp_app. split; [by eapply Hcol|done].
  - apply at_index_Some in Hfrom as [_ Hfrom]. apply at_index_Some in Hf as [_ Hf].
    pose proof (Hcol _ _ Hfrom) as Hfu. apply allUp_app in Hfu as [Hku _].
    split; [|by apply Hpush]. split_and!; [done| |done|done].
    apply Forall_insert; [done|by apply flipTop_allUp].
  - split; [|done]. apply at_index_Some in Hdest as [_ Hdest].
    rewrite Hn in Hnf. apply onlyTopUp_snoc in Hnf as [Hnd _].
    split_and!; [by apply allDown_flipTop| |done|done].
    apply Forall_insert; [done|]. apply allUp_app.
    split; [by eapply Hcol|by repeat constructor].
  - apply at_index_Some in Hf as [_ Hf].
    rewrite Hn in Hnf. apply onlyTopUp_snoc in Hnf as [Hnd _].
    split; [|by apply Hpush]. split_and!; [by apply allDown_flipTop|done|done|done].
Qed.

(** X4. In every state of a game a player's stock is all face-down, the
    waste and every tableau column all face-up, exactly the top card of a
    non-empty Nerts pile is face-up, and every foundation card is face-up. *)
Theorem game_faces config s :
  reachable config s →
  Forall facesOk (players s) ∧ Forall (λ f, allUp (cards f)) (foundations s).
Proof.
  revert s. apply reachable_moves_ind.
  - intros rnd now. split; cbn [initNerts players foundations].
    + apply Forall_imap_intro. intros k x. apply dealPlayer_faces.
    + apply Forall_replicate. constructor.
  - intros s a i p p' fs' d _ [Hps Hfs] _ _ Hp Hm.
    pose proof (Forall_lookup_1 _ _ _ _ Hps Hp) as Hok.
    destruct (moves_facesOk _ _ _ _ _ _ Hok Hfs Hm) as [Hok' Hfs'].
    split; [|done]. rewrite finalize_players. by apply Forall_insert.
Qed.

Lemma game_faces_witness :
  let s := applyAll (initNerts (mkConfig ["a"; "b"]) (λ k i, (i * 7 + k)%nat) 5)
             [stock_draw "a"; nerts_to_tableau "b" 2; stock_draw "b"] in
  Forall facesOk (players s) ∧ Forall (λ f, allUp (cards f)) (foundations s).
Proof.
  apply (game_faces (mkConfig ["a"; "b"])).
  apply reachable_applyAll. constructor.
Defined.

Lemma moves_shape p fs a p' fs' d :
  moves p fs a p' fs' d →
  pid p' = pid p ∧ length (tableau p') = length (tableau p) ∧
  length fs' = length fs.
Proof.
  intros Hm.
  moves_cases Hm; cbn [withPiles pid tableau]; by rewrite ?length_insert.
Qed.

Lemma fmap_insert_same {A B} (g : A → B) (l : list A) i x y :
  l !! i = Some x → g y = g x → g <$> <[i := y]> l = g <$> l.
Proof.
  intros Hi Hg. rewrite list_fmap_insert, Hg.
  apply list_insert_id. by rewrite list_lookup_fmap, Hi.
Qed.

(** X5. The shape of a game never changes: the players stay those of the
    configuration, in its order, each with four tableau columns, and the
    pool keeps four foundation slots per player. *)
Theorem game_shape config s :
  reachable config s →
  pid <$> players s = playerIds config ∧
  Forall (λ p, length (tableau p) = 4%nat) (players s) ∧
  length (foundations s) = (4 * length (playerIds config))%nat.
Proof.
  revert s. apply reachable_moves_ind.
  - intros rnd now. cbn [initNerts players foundations]. split_and!.
    + apply list_eq. intros k. rewrite list_lookup_fmap, list_lookup_imap.
      by destruct (playerIds config !! k).
    + by apply Forall_imap_intro.
    + rewrite length_replicate. lia.
  - intros s a i p p' fs' d _ (Hids & Hcols & Hfs) _ _ Hp Hm.
    destruct (moves_shape _ _ _ _ _ _ Hm) as (Hpid & Htab & Hlen).
    rewrite finalize_players, finalize_foundations. split_and!.
    + rewrite <- Hids. by apply fmap_insert_same with p.
    + apply Forall_insert; [done|]. cbn [tableau]. rewrite Htab.
      by apply (Forall_lookup_1 _ _ _ _ Hcols Hp).
    + congruence.
Qed.

Lemma game_shape_witness :
  let s := applyAll (initNerts (mkConfig ["a"; "b"]) (λ k i, (i * 7 + k)%nat) 5)
             [stock_draw "a"; nerts_to_tableau "b" 2; stock_draw "b"] in
  pid <$> players s = ["a"; "b"] ∧
  Forall (λ p, length (tableau p) = 4%nat) (players s) ∧
  length (foundations s) = 8%nat.
Proof.
  apply (game_shape (mkConfig ["a"; "b"])).
  apply reachable_applyAll. constructor.
Defined.

(** X6. In every state of a game: the game is finished exactly when a
    winner is recorded; the winner is a player whose Nerts pile is empty;
    and while the game is not finished no Nerts pile is empty. *)
Theorem game_winner config s :
  reachable config s →
  (finished s = true ↔ is_Some (winnerId s)) ∧
  (∀ w, winnerId s = Some w →
        ∃ i p, players s !! i = Some p ∧ pid p = w ∧ nertsPile p = []) ∧
  (finished s = false → Forall (λ p, nertsPile p ≠ []) (players s)).
Proof.
  revert s. apply reachable_moves_ind.
  - intros rnd now. cbn [initNerts players finished winnerId]. split_and!.
    + split; [done|]. by intros [? ?].
    + done.
    + intros _. apply Forall_imap_intro. intros k x.
      destruct (dealPlayer_piles (rnd k) x) as (Hn & _).
      intros E. by rewrite E in Hn.
  - intros s a i p p' fs' d _ (Hfw & Hw & Hn) Hfin _ Hp Hm.
    specialize (Hn Hfin).
    assert (winnerId s = None) as Hnone.
    { destruct (winnerId s) eqn:E; [|done].
      assert (finished s = true) by (apply Hfw; eauto). congruence. }
    pose proof (finalize_lookup s i p p' fs' d Hp) as Hl.
    unfold finalize in *. cbn [negb players finished winnerId nertsPile pid] in *.
    rewrite Hfin, Hnone. cbn [negb andb].
    case_bool_decide as Hempty.
    + apply length_zero_iff_nil in Hempty. split_and!.
      * split; [by eauto|done].
      * intros w [= <-]. eauto.
      * done.
    + split_and!.
      * split; [done|]. by intros [? ?].
      * done.
      * intros _. rewrite clonePlayers_id. apply Forall_insert; [done|].
        cbn [nertsPile]. intros E. by rewrite E in Hempty.
Qed.

Lemma game_winner_witness :
  (finished exWon = true ∧ winnerId exWon = Some "a") ∧
  (finished exWon = true ↔ is_Some (winnerId exWon)) ∧
  (∀ w, winnerId exWon = Some w →
        ∃ i p, players exWon !! i = Some p ∧ pid p = w ∧ nertsPile p = []) ∧
  (finished exWon = false → Forall (λ p, nertsPile p ≠ []) (players exWon)).
Proof.
  split; [split; vm_compute; reflexivity|].
  apply (game_winner (mkConfig ["a"; "b"])).
  unfold exWon, exLate, exDeal.
  apply reachable_step, reachable_applyAll, reachable_init.
Defined.

Lemma totalScore_insert (ps : list NertsPlayerState) i p q :
  ps !! i = Some p →
  foldr Z.add 0 (score <$> <[i := q]> ps)
    = foldr Z.add 0 (score <$> ps) + score q - score p.
Proof.
  revert i. induction ps as [|x ps IH]; intros i Hi; [done|].
  destruct i as [|i].
  - injection Hi as ->. change (<[0%nat := q]> (p :: ps)) with (q :: ps).
    rewrite !fmap_cons. cbn [foldr]. lia.
  - change (<[S i := q]> (x :: ps)) with (x :: <[i := q]> ps).
    rewrite !fmap_cons. cbn [foldr]. rewrite (IH i Hi). lia.
Qed.

Lemma foundationCards_weight fs :
  foundationCards fs = foundationWeight (λ _, 1%nat) fs.
Proof.
  unfold foundationCards, foundationWeight. f_equal.
  apply list_fmap_ext. intros _ f _. by rewrite weigh_one.
Qed.

(** A move that scores pushes exactly one card onto the foundations, and
    no other move pushes any. *)
Lemma moves_foundation_delta p fs a p' fs' d :
  moves p fs a p' fs' d →
  (d = 0 ∧ foundationCards fs' = foundationCards fs) ∨
  ((d = 1 ∨ d = 2) ∧ foundationCards fs' = S (foundationCards fs)).
Proof.
  intros Hm. rewrite !foundationCards_weight.
  moves_cases Hm; try (by left); right; (split; [auto|]);
    apply at_index_Some in Hf as [_ Hf];
    rewrite (foundationWeight_push _ _ _ _ _ Hf); lia.
Qed.

(** ** C8 *)

Lemma playerWeight_one p : playerWeight (λ _, 1%nat) p = playerCards p.
Proof.
  unfold playerCards, playerWeight. rewrite !weigh_one. do 3 f_equal.
  f_equal. apply list_fmap_ext. intros _ col _. by rewrite weigh_one.
Qed.

(** A move that scores takes one card from the mover, no other move takes
    any. *)
Lemma moves_playerCards p fs a p' fs' d :
  playerOk p → moves p fs a p' fs' d →
  (d = 0 ∧ playerCards p' = playerCards p) ∨
  ((d = 1 ∨ d = 2) ∧ S (playerCards p') = playerCards p).
Proof.
  intros Hok Hm.
  pose proof (moves_weight (λ _, 1%nat) faceBlind_one _ _ _ _ _ _ Hok Hm) as Hw.
  rewrite <- !foundationCards_weight, !playerWeight_one in Hw.
  destruct (moves_foundation_delta _ _ _ _ _ _ Hm) as [[-> E]|[Hd E]];
    [left|right]; (split; [done|lia]).
Qed.

Lemma numberAdd_game x d : 0 ≤ x ≤ 104 → 0 ≤ d ≤ 2 → numberAdd x d = x + d.
Proof.
  intros Hx Hd. apply numberAdd_exact.
  change (2 ^ 53) with 9007199254740992. lia.
Qed.

(** The scores of a game stay small. *)
Lemma reachable_scoreOk config s :
  reachable config s → Forall scoreOk (players s).
Proof.
  revert s. apply reachable_moves_ind.
  - intros rnd now. cbn [initNerts players]. apply Forall_imap_intro.
    intros k x. unfold scoreOk. rewrite dealPlayer_cards. simpl. lia.
  - intros s a i p p' fs' d Hr IH _ _ Hp Hm. rewrite finalize_players.
    apply Forall_insert; [done|].
    destruct (reachable_invariant config s Hr) as ((Hps & _) & _).
    pose proof (Forall_lookup_1 _ _ _ _ Hps Hp) as Hok. simpl in Hok.
    pose proof (Forall_lookup_1 _ _ _ _ IH Hp) as [H0 H104].
    destruct (moves_pid_score _ _ _ _ _ _ Hm) as (_ & Hsc & _).
    unfold scoreOk.
    change (playerCards {| pid := pid p'; nertsPile := nertsPile p';
                           tableau := tableau p'; stock := stock p';
                           waste := waste p';
                           score := numberAdd (score p') d |})
      with (playerCards p').
    cbn [score]. rewrite Hsc.
    destruct (moves_playerCards _ _ _ _ _ _ Hok Hm) as [[-> E]|[Hd E]].
    + rewrite numberAdd_0, E. lia.
    + rewrite numberAdd_game by lia. lia.
Qed.

(** In a game one step never lowers a score. *)
Lemma step_score config s a j p :
  reachable config s → players s !! j = Some p →
  ∃ p', players (applyNertsAction s a) !! j = Some p' ∧ score p ≤ score p'.
Proof.
  intros Hr Hj.
  destruct (applyNertsAction_cases s a)
    as [->|(i & q & q' & fs' & d & _ & _ & Hq & Hm & ->)].
  - exists p. split; [done|lia].
  - destruct (decide (i = j)) as [->|Hne].
    + rewrite (finalize_lookup _ _ _ _ _ _ Hq). eexists. split; [done|].
      cbn [score]. rewrite Hj in Hq. injection Hq as <-.
      pose proof (Forall_lookup_1 _ _ _ _ (reachable_scoreOk config s Hr) Hj)
        as [H0 H104].
      destruct (reachable_invariant config s Hr) as ((Hps & _) & _).
      pose proof (Forall_lookup_1 _ _ _ _ Hps Hj) as Hok. simpl in Hok.
      destruct (moves_pid_score _ _ _ _ _ _ Hm) as (_ & -> & _).
      destruct (moves_playerCards _ _ _ _ _ _ Hok Hm) as [[-> _]|[Hd _]].
      * rewrite numberAdd_0. lia.
      * rewrite numberAdd_game by lia. lia.
    + rewrite finalize_lookup_ne by done. exists p. split; [done|lia].
Qed.

Lemma applyAll_score config s acts j p :
  reachable config s → players s !! j = Some p →
  ∃ p', players (applyAll s acts) !! j = Some p' ∧ score p ≤ score p'.
Proof.
  intros Hr Hj. induction acts as [|a acts IH] using rev_ind.
  - exists p. split; [done|lia].
  - destruct IH as (p1 & H1 & Hs1). rewrite applyAll_snoc.
    destruct (step_score config (applyAll s acts) a j p1) as (p2 & H2 & Hs2);
      [by apply reachable_applyAll|done|].
    exists p2. split; [done|lia].
Qed.

(** C8 as worded fails where scores leave the integers that numbers hold
    exactly: at 2^54 the two points of an accepted move from the Nerts pile
    to a foundation are rounded away. *)
Lemma score_rounding_counterexample :
  accepted exRich (nerts_to_foundation "a" 0) ∧
  ∃ p p',
    players exRich !! 0%nat = Some p ∧
    players (applyNertsAction exRich (nerts_to_foundation "a" 0)) !! 0%nat
      = Some p' ∧
    scoreDelta (nerts_to_foundation "a" 0) = 2 ∧
    score p' = score p ∧ score p' ≠ score p + 2.
Proof.
  split.
  - apply precondition_accepted. reflexivity.
  - eexists _, _. split_and!; [reflexivity..|]. vm_compute. discriminate.
Qed.

(** C8, amended. An accepted action changes the acting player's score by
    the delta of the action table (+1 waste/tableau to foundation, +2 Nerts
    to foundation, 0 otherwise) wherever the new score is an integer of
    magnitude at most 2^53, which numbers hold exactly; in every state of a
    game the scores lie between 0 and 104, so there the delta is exact, and
    over any sequence of actions of a game every player's score is
    non-decreasing. *)
Theorem score_delta_and_monotone s :
  (∀ a i p p',
     accepted s a → actingIndex s a = Some i → players s !! i = Some p →
     players (applyNertsAction s a) !! i = Some p' →
     Z.abs (score p + scoreDelta a) ≤ 2 ^ 53 →
     score p' = score p + scoreDelta a) ∧
  (∀ config, reachable config s →
     (∀ j p, players s !! j = Some p → 0 ≤ score p ≤ 104) ∧
     (∀ acts j p,
        players s !! j = Some p →
        ∃ p', players (applyAll s acts) !! j = Some p' ∧ score p ≤ score p')).
Proof.
  split.
  - intros a i p p' Hacc Hi Hp Hp' Hsmall.
    apply accepted_moves in Hacc
      as (i' & q & q' & fs' & d & _ & Hi' & Hq & Hm & E).
    assert (i' = i) as -> by congruence.
    assert (q = p) as -> by congruence.
    rewrite E, (finalize_lookup _ _ _ _ _ _ Hp) in Hp'. injection Hp' as <-.
    cbn [score]. apply moves_pid_score in Hm as (_ & -> & ->).
    by apply numberAdd_exact.
  - intros config Hr. split.
    + intros j p Hj.
      pose proof (Forall_lookup_1 _ _ _ _ (reachable_scoreOk config s Hr) Hj)
        as [H0 H104]. lia.
    + intros acts j p Hj. by apply (applyAll_score config).
Qed.

Lemma score_delta_and_monotone_witness :
  (∀ p p',
     players exLate !! 0%nat = Some p →
     players (applyNertsAction exLate (nerts_to_foundation "a" 0)) !! 0%nat
       = Some p' →
     score p = 24 ∧ score p' = 26) ∧
  (∀ p, players exLate !! 1%nat = Some p → 0 ≤ score p ≤ 104) ∧
  (∀ p, players exLate !! 0%nat = Some p →
     ∃ p', players (applyAll exLate
                      [stock_draw "b"; nerts_to_foundation "a" 0]) !! 0%nat
             = Some p' ∧
           score p ≤ score p').
Proof.
  destruct (score_delta_and_monotone exLate) as [Hd Hg].
  destruct (Hg (mkConfig ["a"; "b"])) as [Hb Hm].
  { unfold exLate, exDeal. apply reachable_applyAll, reachable_init. }
  split_and!.
  - intros p p' Hp Hp'.
    assert (score p = 24) as Hs.
    { vm_compute in Hp. by injection Hp as <-. }
    split; [exact Hs|].
    assert (score p' = score p + scoreDelta (nerts_to_foundation "a" 0)) as E.
    { apply (Hd _ 0%nat p p').
      - apply precondition_accepted. vm_compute. reflexivity.
      - vm_compute. reflexivity.
      - exact Hp.
      - exact Hp'.
      - rewrite Hs. vm_compute. discriminate. }
    rewrite E, Hs. reflexivity.
  - intros p. apply Hb.
  - intros p. apply Hm.
Defined.

(** X7. In every state of a game the players' scores add up to at least
    the number of cards on the foundations and to at most twice that
    number: each card reached a foundation by a move worth 1 or 2. *)
Theorem score_counts_foundation_cards config s :
  reachable config s →
  Z.of_nat (foundationCards (foundations s)) ≤ totalScore s
  ≤ 2 * Z.of_nat (foundationCards (foundations s)).
Proof.
  revert s. apply reachable_moves_ind.
  - intros rnd now. unfold totalScore. cbn [initNerts players foundations].
    rewrite foundationCards_empty.
    assert (∀ (f : nat → PlayerId → NertsPlayerState) l,
              (∀ k x, score (f k x) = 0) →
              foldr Z.add 0 (score <$> imap f l) = 0) as Hz.
    { intros f l. revert f. induction l as [|x l IH]; intros f Hf; [done|].
      change (imap f (x :: l)) with (f 0%nat x :: imap (f ∘ S) l).
      rewrite fmap_cons. cbn [foldr]. rewrite Hf, IH; [done|].
      intros k y. apply Hf. }
    rewrite Hz; [lia|done].
  - intros s a i p p' fs' d Hr IH _ _ Hp Hm. unfold totalScore in *.
    rewrite finalize_players, finalize_foundations.
    rewrite (totalScore_insert _ _ _ _ Hp). cbn [score].
    pose proof (Forall_lookup_1 _ _ _ _ (reachable_scoreOk config s Hr) Hp)
      as [H0 H104].
    destruct (moves_pid_score _ _ _ _ _ _ Hm) as (_ & -> & _).
    destruct (moves_foundation_delta _ _ _ _ _ _ Hm) as [[-> ->]|[Hd ->]].
    + rewrite numberAdd_0. lia.
    + rewrite numberAdd_game by lia. lia.
Qed.

Lemma score_counts_foundation_cards_witness :
  (foundationCards (foundations exLate) = 13%nat ∧ totalScore exLate = 25) ∧
  Z.of_nat (foundationCards (foundations exLate)) ≤ totalScore exLate
  ≤ 2 * Z.of_nat (foundationCards (foundations exLate)).
Proof.
  split; [split; vm_compute; reflexivity|].
  apply (score_counts_foundation_cards (mkConfig ["a"; "b"])).
  unfold exLate, exDeal. apply reachable_applyAll, reachable_init.
Defined.

Lemma moves_piles_shrink p fs a p' fs' d :
  moves p fs a p' fs' d →
  (length (nertsPile p') ≤ length (nertsPile p))%nat ∧
  (length (stock p') + length (waste p') ≤ length (stock p) + length (waste p))%nat.
Proof.
  intros Hm.
  moves_cases Hm; cbn [withPiles nertsPile stock waste];
    rewrite ?Hwaste, ?Hn, ?length_flipTop, ?length_app, ?length_take,
      ?length_fmap, ?length_reverse, ?length_drop; simpl; lia.
Qed.

(** X8. No pile of a game outgrows its deal: a foundation slot and a
    tableau column hold at most 13 cards, a Nerts pile at most 13, and a
    player's stock and waste together at most 35. *)
Theorem game_pile_bounds config s :
  reachable config s →
  Forall (λ f, (length (cards f) ≤ 13)%nat) (foundations s) ∧
  Forall (λ p, Forall (λ col, (length col ≤ 13)%nat) (tableau p) ∧
               (length (nertsPile p) ≤ 13)%nat ∧
               (length (stock p) + length (waste p) ≤ 35)%nat) (players s).
Proof.
  intros Hr.
  destruct (reachable_invariant config s Hr) as ((Hps & Hfs) & _).
  split.
  - eapply Forall_impl; [exact Hfs|]. intros f [Hcards _].
    destruct (cards f) as [|c0 l] eqn:E using rev_ind; [simpl; lia|].
    clear IHl.
    destruct (Hcards (length l) c0) as [Hrank _].
    { by apply list_lookup_middle. }
    pose proof (getRankValue_range (rank c0)). rewrite length_app. simpl. lia.
  - assert (Forall (λ p, (length (nertsPile p) ≤ 13)%nat ∧
               (length (stock p) + length (waste p) ≤ 35)%nat) (players s))
      as Hlens.
    { clear Hps Hfs. revert s Hr. apply reachable_moves_ind.
      - intros rnd now. cbn [initNerts players]. apply Forall_imap_intro.
        intros k x. destruct (dealPlayer_piles (rnd k) x) as (-> & _ & -> & ->).
        simpl. lia.
      - intros s a i p p' fs' d _ IH _ _ Hp Hm. rewrite finalize_players.
        apply Forall_insert; [done|]. cbn [nertsPile stock waste].
        pose proof (Forall_lookup_1 _ _ _ _ IH Hp) as Hb. simpl in Hb.
        pose proof (moves_piles_shrink _ _ _ _ _ _ Hm). lia. }
    apply Forall_lookup. intros j p Hj.
    pose proof (Forall_lookup_1 _ _ _ _ Hlens Hj) as [Hn Hsw].
    pose proof (Forall_lookup_1 _ _ _ _ Hps Hj) as (Hd & _).
    split_and!; [|done|done].
    eapply Forall_impl; [exact Hd|]. intros col Hdesc.
    destruct col as [|c0 col]; [simpl; lia|].
    destruct (col !! (length col - 1)%nat) as [t|] eqn:Ht.
    + pose proof (descending_rank (c0 :: col) 0 (length col) c0 t Hdesc eq_refl) as H.
      assert ((c0 :: col) !! (0 + length col)%nat = Some t) as Hlast.
      { apply lookup_lt_Some in Ht as Hlt.
        replace (0 + length col)%nat with (S (length col - 1)) by lia. done. }
      specialize (H Hlast).
      pose proof (getRankValue_range (rank c0)).
      pose proof (getRankValue_range (rank t)). simpl. lia.
    + apply lookup_ge_None in Ht. simpl. lia.
Qed.

Lemma game_pile_bounds_witness :
  let s := applyAll (initNerts (mkConfig ["a"; "b"]) (λ k i, (i * 7 + k)%nat) 5)
             [stock_draw "a"; nerts_to_tableau "b" 2; stock_draw "b"] in
  Forall (λ f, (length (cards f) ≤ 13)%nat) (foundations s) ∧
  Forall (λ p, Forall (λ col, (length col ≤ 13)%nat) (tableau p) ∧
               (length (nertsPile p) ≤ 13)%nat ∧
               (length (stock p) + length (waste p) ≤ 35)%nat) (players s).
Proof.
  apply (game_pile_bounds (mkConfig ["a"; "b"])).
  apply reachable_applyAll. constructor.
Defined.

(** ** What a step never undoes *)

Lemma makeFaceDown_flipTop n : makeFaceDown <$> flipTop n = makeFaceDown <$> n.
Proof.
  induction n as [|x n _] using rev_ind; [done|].
  rewrite flipTop_snoc, !fmap_app. f_equal. simpl. by destruct (faceUp x).
Qed.

Lemma moves_nerts_prefix p fs a p' fs' d :
  moves p fs a p' fs' d →
  (makeFaceDown <$> nertsPile p') `prefix_of` (makeFaceDown <$> nertsPile p).
Proof.
  intros Hm. moves_cases Hm; cbn [withPiles nertsPile]; try done.
  all: rewrite Hn, makeFaceDown_flipTop, fmap_app; by apply prefix_app_r.
Qed.

Lemma step_progress s a i f j p :
  foundations s !! i = Some f → players s !! j = Some p →
  ∃ f' p',
    foundations (applyNertsAction s a) !! i = Some f' ∧
    players (applyNertsAction s a) !! j = Some p' ∧
    cards f `prefix_of` cards f' ∧
    (makeFaceDown <$> nertsPile p') `prefix_of` (makeFaceDown <$> nertsPile p).
Proof.
  intros Hi Hj.
  destruct (step_foundation s a i f Hi) as (f' & Hf' & Hcase).
  assert (cards f `prefix_of` cards f') as Hpre.
  { destruct Hcase as [->|(c & _ & ->)]; [done|]. by apply prefix_app_r. }
  destruct (applyNertsAction_cases s a)
    as [E|(k & q & q' & fs' & d & _ & _ & Hq & Hm & E)]; rewrite E in *.
  - by exists f', p.
  - destruct (decide (k = j)) as [->|Hne].
    + rewrite (finalize_lookup _ _ _ _ _ _ Hq). eexists f', _.
      split_and!; [done|done|done|]. cbn [nertsPile].
      assert (q = p) as -> by congruence. by eapply moves_nerts_prefix.
    + rewrite finalize_lookup_ne by done. by exists f', p.
Qed.

(** X9. Along any sequence of actions, from any state, cards never leave
    a foundation slot (its cards stay a prefix of what it holds later) and
    a Nerts pile never gains a card (it only loses cards from its top). *)
Theorem progress_is_monotone s acts i f j p :
  foundations s !! i = Some f → players s !! j = Some p →
  ∃ f' p',
    foundations (applyAll s acts) !! i = Some f' ∧
    players (applyAll s acts) !! j = Some p' ∧
    cards f `prefix_of` cards f' ∧
    (makeFaceDown <$> nertsPile p') `prefix_of` (makeFaceDown <$> nertsPile p).
Proof.
  intros Hi Hj. induction acts as [|a acts IH] using rev_ind.
  - by exists f, p.
  - destruct IH as (f1 & p1 & Hf1 & Hp1 & Hpre1 & Hn1). rewrite applyAll_snoc.
    destruct (step_progress (applyAll s acts) a i f1 j p1 Hf1 Hp1)
      as (f2 & p2 & Hf2 & Hp2 & Hpre2 & Hn2).
    exists f2, p2. split_and!; [done|done|by etrans|by etrans].
Qed.

Lemma progress_is_monotone_witness :
  ∃ f' p',
    foundations (applyAll exState
                   [nerts_to_foundation "a" 0; stock_draw "a"]) !! 0%nat = Some f' ∧
    players (applyAll exState
               [nerts_to_foundation "a" 0; stock_draw "a"]) !! 0%nat = Some p' ∧
    cards emptyFoundation `prefix_of` cards f' ∧
    (makeFaceDown <$> nertsPile p') `prefix_of` (makeFaceDown <$> nertsPile exA).
Proof.
  apply (progress_is_monotone exState
           [nerts_to_foundation "a" 0; stock_draw "a"] 0 emptyFoundation 0 exA);
    reflexivity.
Defined.

(** ** Drawing through the stock *)

Lemma findIndex_cons {A} (P : A → bool) x l :
  findIndex P (x :: l) = if P x then Some 0%nat else S <$> findIndex P l.
Proof.
  unfold findIndex. cbn [list_find]. destruct (P x) eqn:E.
  - by rewrite decide_True.
  - rewrite decide_False by congruence.
    by destruct (list_find _ l) as [[k y]|].
Qed.

Lemma findIndex_insert_same {A} (P : A → bool) (l : list A) i x y :
  l !! i = Some x → P y = P x → findIndex P (<[i := y]> l) = findIndex P l.
Proof.
  revert i. induction l as [|z l IH]; intros i Hi HP; [done|].
  destruct i as [|i].
  - injection Hi as ->. change (<[0%nat := y]> (x :: l)) with (y :: l).
    by rewrite !findIndex_cons, HP.
  - change (<[S i := y]> (z :: l)) with (z :: <[i := y]> l).
    rewrite !findIndex_cons. by rewrite (IH i Hi HP).
Qed.

Lemma drop_take_drop {A} (l : list A) a b :
  (a ≤ b)%nat → (b ≤ length l)%nat → drop a l = drop a (take b l) ++ drop b l.
Proof.
  intros Hab Hb. rewrite <- (take_drop b l) at 1.
  rewrite drop_app_le; [done|]. rewrite length_take. lia.
Qed.

Lemma makeFaceDown_up_down (l : list NertsCard) :
  allDown l → makeFaceDown <$> (makeFaceUp <$> l) = l.
Proof.
  intros Hd. rewrite <- list_fmap_compose.
  rewrite <- (list_fmap_id l) at 2. apply Forall_fmap_ext_1.
  eapply Forall_impl; [exact Hd|]. intros [] H. simpl in *. by subst.
Qed.

Section StockCycle.
Context (s : NertsState) (id : PlayerId) (i : nat) (p : NertsPlayerState).
Context (Hfin : finished s = false).
Context (Hi : actingIndex s (stock_draw id) = Some i).
Context (Hp : players s !! i = Some p).
Context (Hnerts : nertsPile p ≠ []).
Context (Hwaste : waste p = []).

Lemma drawnState_0 : drawnState s i p 0 = s.
Proof.
  unfold drawnState. rewrite Nat.sub_0_r, firstn_all, drop_all.
  change (makeFaceUp <$> reverse []) with (@nil NertsCard).
  rewrite <- Hwaste. unfold withPiles.
  replace {| pid := pid p; nertsPile := nertsPile p; tableau := tableau p;
             stock := stock p; waste := waste p; score := score p |}
    with p by (by destruct p).
  rewrite list_insert_id by done. by destruct s.
Qed.

Lemma drawnState_acting k :
  finished (drawnState s i p k) = false ∧
  actingIndex (drawnState s i p k) (stock_draw id) = Some i ∧
  players (drawnState s i p k) !! i
    = Some (withPiles p (nertsPile p) (tableau p)
              (take (length (stock p) - k) (stock p))
              (makeFaceUp <$> reverse (drop (length (stock p) - k) (stock p)))).
Proof.
  split_and!; [done| |].
  - unfold actingIndex, drawnState in *. cbn [players].
    by rewrite (findIndex_insert_same _ _ _ p).
  - cbn [drawnState players]. apply list_lookup_insert_eq.
    by eapply lookup_lt_Some.
Qed.

Lemma finalize_drawnState k q :
  pid q = pid p → score q = score p → nertsPile q = nertsPile p →
  finalize (drawnState s i p k) i q (foundations s) 0 true
  = {| players := <[i := q]> (players s); foundations := foundations s;
       startedAt := startedAt s; finished := finished s;
       winnerId := winnerId s |}.
Proof.
  intros Hpid Hsc Hn. unfold finalize, drawnState.
  cbn [negb players foundations startedAt finished winnerId nertsPile pid].
  rewrite clonePlayers_id, list_insert_insert_eq, Hfin.
  rewrite bool_decide_eq_false_2 by (rewrite Hn; by destruct (nertsPile p)).
  cbn [negb andb]. do 2 f_equal.
  rewrite numberAdd_0. by destruct q.
Qed.

(** One draw while cards remain in the stock. *)
Lemma stock_draw_drawnState k :
  (k < length (stock p))%nat →
  applyNertsAction (drawnState s i p k) (stock_draw id)
  = drawnState s i p (Nat.min (k + 3) (length (stock p))).
Proof.
  intros Hk. destruct (drawnState_acting k) as (Hf & Ha & Hq).
  remember (length (stock p)) as n eqn:En.
  remember (n - k)%nat as m eqn:Em.
  assert (length (take m (stock p)) = m) as Hlen.
  { rewrite length_take. lia. }
  assert (take m (stock p) ≠ []) as Hne.
  { intros E. rewrite E in Hlen. simpl in Hlen. lia. }
  pose proof (moves_draw
                (withPiles p (nertsPile p) (tableau p) (take m (stock p))
                   (makeFaceUp <$> reverse (drop m (stock p))))
                (foundations (drawnState s i p k)) id Hne) as Hm.
  rewrite (moves_apply _ _ _ _ _ _ _ Hf Ha Hq Hm). clear Hm.
  cbn [withPiles stock waste nertsPile tableau].
  rewrite Hlen. cbn [drawnState foundations].
  rewrite finalize_drawnState by done.
  unfold drawnState. rewrite <- En. f_equal. f_equal. unfold withPiles. f_equal.
  - rewrite take_take. f_equal. lia.
  - rewrite <- fmap_app, <- reverse_app. do 2 f_equal.
    replace (n - Nat.min (k + 3) n)%nat with (m - Nat.min 3 m)%nat by lia.
    symmetry. apply drop_take_drop; lia.
Qed.

Lemma stock_draws k m :
  (m = 0 ∨ k + 3 * (m - 1) < length (stock p))%nat →
  applyAll (drawnState s i p k) (replicate m (stock_draw id))
  = drawnState s i p (Nat.min (k + 3 * m) (length (stock p))).
Proof.
  revert k. induction m as [|m IH]; intros k Hm.
  - cbn [replicate applyAll foldl]. unfold drawnState.
    replace (k + 3 * 0)%nat with k by lia.
    destruct (Nat.min_spec k (length (stock p))) as [[_ ->]|[Hle ->]]; [done|].
    by replace (length (stock p) - k)%nat
      with (length (stock p) - length (stock p))%nat by lia.
  - cbn [replicate]. unfold applyAll. cbn [foldl]. fold (applyAll).
    rewrite stock_draw_drawnState by lia.
    destruct (Nat.min_spec (k + 3) (length (stock p))) as [[Hlt ->]|[Hle ->]].
    + unfold applyAll in IH. rewrite IH by lia. f_equal. lia.
    + destruct m as [|m]; [|lia]. cbn [replicate foldl]. f_equal. lia.
Qed.

(** The draw that finds the stock empty turns the waste back over. *)
Lemma recycle_drawnState :
  stock p ≠ [] → allDown (stock p) →
  applyNertsAction (drawnState s i p (length (stock p))) (stock_draw id) = s.
Proof.
  intros Hst Hdown.
  destruct (drawnState_acting (length (stock p))) as (Hf & Ha & Hq).
  rewrite Nat.sub_diag in Hq. cbn [take drop] in Hq.
  assert (makeFaceUp <$> reverse (stock p) ≠ []) as Hne.
  { intros E. apply fmap_nil_inv in E. apply (f_equal reverse) in E.
    by rewrite reverse_involutive in E. }
  pose proof (moves_recycle
                (withPiles p (nertsPile p) (tableau p) []
                   (makeFaceUp <$> reverse (stock p)))
                (foundations (drawnState s i p (length (stock p)))) id
                eq_refl Hne) as Hm.
  rewrite (moves_apply _ _ _ _ _ _ _ Hf Ha Hq Hm). clear Hm.
  cbn [withPiles stock waste nertsPile tableau drawnState foundations].
  rewrite finalize_drawnState by done.
  rewrite <- fmap_reverse, reverse_involutive, makeFaceDown_up_down by done.
  match goal with |- context [<[i := ?q]> _] =>
    replace q with p by (unfold withPiles; rewrite <- Hwaste; by destruct p)
  end.
  rewrite list_insert_id by done. by destruct s.
Qed.

End StockCycle.

(** X10. For a player of a game in progress with a non-empty Nerts pile, an
    empty waste and a face-down stock of [n > 0] cards: after [ceil(n/3)]
    stock draws the stock is empty and the waste holds the whole stock,
    reversed and face-up; one more draw recycles it, and the state is
    exactly the one the draws started from. *)
Theorem stock_cycle_round_trip s id i p :
  finished s = false →
  actingIndex s (stock_draw id) = Some i →
  players s !! i = Some p →
  nertsPile p ≠ [] → waste p = [] → stock p ≠ [] → allDown (stock p) →
  let draws := ((length (stock p) + 2) / 3)%nat in
  players (applyAll s (replicate draws (stock_draw id))) !! i
    = Some (withPiles p (nertsPile p) (tableau p) []
              (makeFaceUp <$> reverse (stock p))) ∧
  applyAll s (replicate (draws + 1) (stock_draw id)) = s.
Proof.
  intros Hfin Hi Hp Hn Hw Hst Hdown draws.
  assert (0 < length (stock p))%nat as Hpos by (by apply nonempty_length).
  assert (3 * draws ≤ length (stock p) + 2 < 3 * draws + 3)%nat as Hd.
  { subst draws.
    pose proof (Nat.div_mod_eq (length (stock p) + 2) 3).
    pose proof (Nat.mod_upper_bound (length (stock p) + 2) 3). lia. }
  clearbody draws.
  assert (applyAll s (replicate draws (stock_draw id))
          = drawnState s i p (length (stock p))) as Hall.
  { rewrite <- (drawnState_0 s id i p Hfin Hi Hp Hn Hw) at 1.
    rewrite (stock_draws s id i p Hfin Hi Hp Hn 0 draws) by lia.
    f_equal. lia. }
  split.
  - rewrite Hall.
    destruct (drawnState_acting s id i p Hfin Hi Hp (length (stock p)))
      as (_ & _ & ->).
    by rewrite Nat.sub_diag.
  - rewrite replicate_add, applyAll_app, Hall. cbn [replicate].
    unfold applyAll. cbn [foldl].
    by apply (recycle_drawnState s id i p).
Qed.

Lemma stock_cycle_round_trip_witness :
  players (applyAll exCycle (replicate 2 (stock_draw "a"))) !! 0%nat
    = Some {| pid := "a";
              nertsPile := [card "a" Hearts R5 "n1" true];
              tableau := [[]; []; []; []];
              stock := [];
              waste := [card "a" Diamonds R4 "k4" true; card "a" Clubs R3 "k3" true;
                        card "a" Clubs R2 "k2" true; card "a" Diamonds R9 "k1" true];
              score := 0 |} ∧
  applyAll exCycle (replicate 3 (stock_draw "a")) = exCycle.
Proof.
  refine (stock_cycle_round_trip exCycle "a" 0
            (mkPlayer "a" [card "a" Hearts R5 "n1" true] [[]; []; []; []]
               [card "a" Diamonds R9 "k1" false; card "a" Clubs R2 "k2" false;
                card "a" Clubs R3 "k3" false; card "a" Diamonds R4 "k4" false]
               [] 0) _ _ _ _ _ _ _); try reflexivity; try discriminate.
  repeat constructor.
Defined.

(** ** The bot never idles while it can act *)

Lemma botStep_chooseAction s botId p :
  finished s = false → resolvePlayer s botId = Some p →
  botStep s botId = applyNertsAction s (chooseAction s p botId).
Proof.
  intros Hfin Hp. unfold botStep, resolvePlayer in *. rewrite Hfin.
  destruct (list_find _ _) as [[i q]|]; [|done]. by injection Hp as ->.
Qed.

(** What the cascade returns: a feasible action of one of the six
    searches, or the draw when all six find nothing. *)
Lemma chooseAction_cases s p botId :
  wellTagged p ∨ Forall allUp (tableau p) →
  (∃ k, k ≠ StockDraw ∧ inCategory p k (chooseAction s p botId) ∧
        playerCan s p (chooseAction s p botId) = true) ∨
  (chooseAction s p botId = stock_draw botId ∧
   ∀ k a, k ≠ StockDraw → inCategory p k a → playerCan s p a = false).
Proof.
  intros Hwf. unfold chooseAction.
  destruct (findNertsToFoundation s p) as [a|] eqn:H1; simpl.
  { left. exists NertsToFoundation. split; [done|].
    by apply findNertsToFoundation_Some. }
  destruct (findTableauToFoundation s p) as [a|] eqn:H2; simpl.
  { left. exists TableauToFoundation. split; [done|].
    by apply findTableauToFoundation_Some. }
  destruct (findWasteToFoundation s p) as [a|] eqn:H3; simpl.
  { left. exists WasteToFoundation. split; [done|].
    by apply findWasteToFoundation_Some. }
  destruct (findNertsToTableau s p) as [a|] eqn:H4; simpl.
  { left. exists NertsToTableau. split; [done|].
    by apply findNertsToTableau_Some. }
  destruct (findTableauToTableau s p) as [a|] eqn:H5; simpl.
  { left. exists TableauToTableau. split; [done|].
    by apply findTableauToTableau_Some. }
  destruct (findWasteToTableau s p) as [a|] eqn:H6; simpl.
  { left. exists WasteToTableau. split; [done|].
    by apply findWasteToTableau_Some. }
  right. split; [done|]. intros k a Hk Hcat. destruct k; try done.
  - by apply findNertsToFoundation_None.
  - by apply findTableauToFoundation_None.
  - by apply findWasteToFoundation_None.
  - by apply findNertsToTableau_None.
  - by apply findTableauToTableau_None.
  - by apply findWasteToTableau_None.
Qed.

Lemma reachable_resolved_allUp config s botId p :
  reachable config s → resolvePlayer s botId = Some p →
  Forall allUp (tableau p).
Proof.
  intros Hr Hp.
  destruct (reachable_invariant config s Hr) as ((Hps & _) & _).
  unfold resolvePlayer in Hp.
  destruct (list_find _ _) as [[i q]|] eqn:E; [|done].
  injection Hp as ->. apply list_find_Some in E as (Hi & _).
  by destruct (Forall_lookup_1 _ _ _ _ Hps Hi) as (_ & ? & _).
Qed.

Lemma not_accepted_noop s a : precondition s a = false → applyNertsAction s a = s.
Proof.
  intros Hpre. destruct (decide (applyNertsAction s a = s)) as [|Hne]; [done|].
  apply precondition_accepted in Hne. congruence.
Qed.

(** X11. In a game in progress, a bot's step leaves the state unchanged
    only when the bot is stuck: its stock and waste are both empty and no
    action of the first six steps of its cascade is feasible.  In
    particular the bot always acts while it has a card to draw. *)
Theorem bot_idles_only_when_stuck s botId p :
  finished s = false →
  resolvePlayer s botId = Some p →
  wellTagged p ∨ (∃ config, reachable config s) →
  (botStep s botId = s ↔
   stock p = [] ∧ waste p = [] ∧
   ∀ k a, k ≠ StockDraw → inCategory p k a → precondition s a = false).
Proof.
  intros Hfin Hp Hwf.
  assert (pid p = botId) as Hpid by (by eapply resolvePlayer_pid).
  assert (wellTagged p ∨ Forall allUp (tableau p)) as Hwf'.
  { destruct Hwf as [?|(config & Hr)]; [by left|right].
    by eapply reachable_resolved_allUp. }
  assert (∀ a, playerId a = pid p → precondition s a = playerCan s p a) as Hpre.
  { intros a Ha. apply precondition_resolved; [done| |done]. by rewrite Hpid. }
  rewrite (botStep_chooseAction s botId p Hfin Hp).
  assert (playerCan s p (stock_draw botId) = false ↔ stock p = [] ∧ waste p = [])
    as Hdraw.
  { cbn [playerCan]. rewrite orb_false_iff, !negb_false_iff, !bool_decide_eq_true.
    done. }
  destruct (chooseAction_cases s p botId Hwf')
    as [(k & Hk & Hcat & Hcan)|(Ha & Hnone)].
  - assert (precondition s (chooseAction s p botId) = true) as Htrue.
    { rewrite Hpre; [done|]. by destruct Hcat. }
    split.
    + intros E. apply precondition_accepted in Htrue. by destruct Htrue.
    + intros (_ & _ & Hall). rewrite (Hall k _ Hk Hcat) in Htrue. done.
  - rewrite Ha. split.
    + intros E.
      assert (precondition s (stock_draw botId) = false) as Hfalse.
      { destruct (precondition s (stock_draw botId)) eqn:Et; [|done].
        apply precondition_accepted in Et. by destruct Et. }
      rewrite Hpre in Hfalse by done. apply Hdraw in Hfalse as [? ?].
      split_and!; [done|done|]. intros k a Hk Hcat.
      rewrite Hpre by (by destruct Hcat). by apply (Hnone k).
    + intros (Hst & Hw & _). apply not_accepted_noop.
      rewrite Hpre by done. by apply Hdraw.
Qed.

Lemma bot_idles_only_when_stuck_witness :
  botStep exBot "a" = exBot ↔
  stock exBotPlayer = [] ∧ waste exBotPlayer = [] ∧
  ∀ k a, k ≠ StockDraw → inCategory exBotPlayer k a →
         precondition exBot a = false.
Proof.
  apply (bot_idles_only_when_stuck exBot "a" exBotPlayer).
  - reflexivity.
  - reflexivity.
  - left. apply (bool_decide_unpack _). vm_compute. exact I.
Defined.

(** ** The bot loop of the view *)

Lemma step_frame s a j p :
  players s !! j = Some p → pid p ≠ playerId a →
  players (applyNertsAction s a) !! j = Some p.
Proof.
  intros Hj Hne.
  destruct (applyNertsAction_cases s a)
    as [->|(i & q & q' & fs' & d & _ & Hi & Hq & _ & ->)]; [done|].
  rewrite finalize_lookup_ne; [done|].
  intros ->. apply Hne. rewrite Hj in Hq. injection Hq as <-.
  by eapply actingIndex_pid.
Qed.

Lemma findTableauToTableau_playerId s p a :
  findTableauToTableau s p = Some a → playerId a = pid p.
Proof.
  unfold findTableauToTableau.
  intros (from & pile & _ & Hbody & _)%forFirst_Some. simpl in Hbody.
  apply forFirst_Some in Hbody as (idx & c & _ & Hbody & _). simpl in Hbody.
  destruct (faceUp c); [|done]. simpl in Hbody.
  destruct (if bool_decide (0 < idx)%nat then pile !! (idx - 1)%nat else None)
    as [cb|]; [|done].
  destruct (faceUp cb); [done|].
  apply forFirst_Some in Hbody as (to & dest & _ & Hbody & _). simpl in Hbody.
  case_bool_decide; [done|].
  destruct (canPlaceOnTableau (top dest) c false); [|done].
  by injection Hbody as <-.
Qed.

(** Whatever the cascade returns is an action of the bot itself. *)
Lemma chooseAction_playerId s p botId :
  pid p = botId → playerId (chooseAction s p botId) = botId.
Proof.
  intros Hpid. unfold chooseAction.
  destruct (findNertsToFoundation s p) as [a|] eqn:H1; simpl.
  { apply findNertsToFoundation_Some in H1 as [[-> _] _]. done. }
  destruct (findTableauToFoundation s p) as [a|] eqn:H2; simpl.
  { apply findTableauToFoundation_Some in H2 as [[-> _] _]. done. }
  destruct (findWasteToFoundation s p) as [a|] eqn:H3; simpl.
  { apply findWasteToFoundation_Some in H3 as [[-> _] _]. done. }
  destruct (findNertsToTableau s p) as [a|] eqn:H4; simpl.
  { apply findNertsToTableau_Some in H4 as [[-> _] _]. done. }
  destruct (findTableauToTableau s p) as [a|] eqn:H5; simpl.
  { by rewrite (findTableauToTableau_playerId _ _ _ H5). }
  destruct (findWasteToTableau s p) as [a|] eqn:H6; simpl.
  { apply findWasteToTableau_Some in H6 as [[-> _] _]. done. }
  done.
Qed.

(** A bot's step is a reducer step of that bot, or nothing. *)
Lemma botStep_cases s botId :
  botStep s botId = s ∨
  ∃ a, playerId a = botId ∧ botStep s botId = applyNertsAction s a.
Proof.
  unfold botStep. destruct (finished s); [by left|].
  destruct (list_find _ _) as [[i q]|] eqn:E; [|by left].
  right. exists (chooseAction s q botId). split; [|done].
  apply chooseAction_playerId. by apply list_find_Some in E as (_ & ? & _).
Qed.

Lemma botTick_fold (skip : nat → bool) (l : list (nat * NertsPlayerState))
  (s : NertsState) :
  let r := foldl (λ s (kp : nat * NertsPlayerState),
                    if bool_decide (pid kp.2 ≠ HUMAN_ID) then
                      if skip kp.1 then s else botStep s (pid kp.2)
                    else s) s l in
  (∀ config, reachable config s → reachable config r) ∧
  (∀ j p, players s !! j = Some p → pid p = HUMAN_ID → players r !! j = Some p).
Proof.
  revert s. induction l as [|[k q] l IH]; intros s; [done|].
  cbn [foldl fst snd].
  case_bool_decide as Hbot; [|apply IH].
  destruct (skip k); [apply IH|].
  destruct (IH (botStep s (pid q))) as [IHr IHp].
  destruct (botStep_cases s (pid q)) as [E|(a & Ha & E)]; rewrite E in *.
  - by split.
  - split.
    + intros config Hr. apply IHr. by constructor.
    + intros j p Hj Hp. apply IHp; [|done].
      apply step_frame; [done|]. congruence.
Qed.

(** X12. One tick of the view's bot loop, whatever the bots' random skips,
    leaves every record of the human player ("you") exactly as it was, and
    takes a state of a game to a state of the same game. *)
Theorem botTick_spares_human skip prev j p :
  players prev !! j = Some p → pid p = HUMAN_ID →
  players (botTick skip prev) !! j = Some p ∧
  ∀ config, reachable config prev → reachable config (botTick skip prev).
Proof.
  intros Hj Hp. unfold botTick. destruct (finished prev); [done|].
  destruct (botTick_fold skip (imap pair (players prev)) prev) as [Hr Hh].
  split; [by apply Hh | exact Hr].
Qed.

Lemma botTick_spares_human_witness :
  let s := initNerts (mkConfig ["you"; "bot1"; "bot2"]) (λ k i, (i * 7 + k)%nat) 5 in
  players (botTick (λ k, bool_decide (k = 2%nat)) s) !! 0%nat
    = Some (dealPlayer (λ i, (i * 7 + 0)%nat) "you") ∧
  ∀ config, reachable config s →
            reachable config (botTick (λ k, bool_decide (k = 2%nat)) s).
Proof.
  intros s.
  apply (botTick_spares_human (λ k, bool_decide (k = 2%nat)) s 0
           (dealPlayer (λ i, (i * 7 + 0)%nat) "you")); reflexivity.
Defined.

(** ** Card ids stay distinct *)

(** The index at the end of a dealt id determines it:
    [`${c.rank}${c.suit}-${idx}`] can be read back. *)
Lemma tag_inj r1 s1 (i : nat) r2 s2 (j : nat) :
  rankString r1 +:+ suitString s1 +:+ "-" +:+ pretty i
  = rankString r2 +:+ suitString s2 +:+ "-" +:+ pretty j → i = j.
Proof.
  intros H. apply (inj pretty).
  remember (pretty i) as a eqn:Ea. remember (pretty j) as b eqn:Eb.
  clear Ea Eb.
  destruct r1, r2; simplify_eq/=; destruct s1, s2; by simplify_eq/=.
Qed.

Lemma NoDup_cid_tagDeck id deck : NoDup (cid <$> tagDeck id deck).
Proof.
  apply NoDup_alt. intros i j x. unfold tagDeck.
  rewrite !list_lookup_fmap, !list_lookup_imap.
  destruct (deck !! i) as [c1|]; [|done]. destruct (deck !! j) as [c2|]; [|done].
  cbn [fmap option_fmap option_map cid]. intros [= <-] [= H].
  apply (inj (String.app id)) in H.
  apply (inj (String.app "-")) in H.
  symmetry. by eapply tag_inj.
Qed.

Lemma weigh_concat w ls : weigh w (concat ls) = sum_list (weigh w <$> ls).
Proof.
  induction ls as [|l ls IH]; [done|].
  change (concat (l :: ls)) with (l ++ concat ls).
  rewrite weigh_app, IH, fmap_cons. done.
Qed.

Lemma weigh_playerCardList w p : weigh w (playerCardList p) = playerWeight w p.
Proof.
  unfold playerCardList, playerWeight. rewrite !weigh_app, weigh_concat. lia.
Qed.

Lemma moves_foundationWeight w p fs a p' fs' d :
  moves p fs a p' fs' d → (foundationWeight w fs ≤ foundationWeight w fs')%nat.
Proof.
  intros Hm.
  moves_cases Hm; try done;
    apply at_index_Some in Hf as [_ Hf];
    rewrite (foundationWeight_push _ _ _ _ _ Hf); lia.
Qed.

(** A move never adds to what the mover holds. *)
Lemma moves_playerWeight w p fs a p' fs' d :
  faceBlind w → playerOk p → moves p fs a p' fs' d →
  (playerWeight w p' ≤ playerWeight w p)%nat.
Proof.
  intros Hw Hok Hm.
  pose proof (moves_weight w Hw _ _ _ _ _ _ Hok Hm).
  pose proof (moves_foundationWeight w _ _ _ _ _ _ Hm). lia.
Qed.

Section Keys.
Context {K : Type} `{EqDecision K} (key : NertsCard → K).
Hypothesis Hkey : ∀ c, key (makeFaceUp c) = key c ∧ key (makeFaceDown c) = key c.

Lemma keyWeight_faceBlind x : faceBlind (keyWeight key x).
Proof. intros c. unfold keyWeight. by destruct (Hkey c) as [-> ->]. Qed.

Lemma weigh_keyWeight_0 x l :
  x ∉ key <$> l → weigh (keyWeight key x) l = 0%nat.
Proof.
  induction l as [|c l IH]; [done|].
  rewrite fmap_cons, not_elem_of_cons, weigh_cons. intros [Hne Hnin].
  rewrite IH by done. unfold keyWeight. by rewrite decide_False.
Qed.

Lemma weigh_keyWeight_pos x l :
  x ∈ key <$> l → (1 ≤ weigh (keyWeight key x) l)%nat.
Proof.
  induction l as [|c l IH]; [by intros ?%elem_of_nil|].
  rewrite fmap_cons, elem_of_cons, weigh_cons. unfold keyWeight at 1.
  destruct (decide (key c = x)); [lia|].
  intros [->|Hin]; [done|]. specialize (IH Hin). lia.
Qed.

(** Keys are distinct exactly when every key is carried at most once. *)
Lemma NoDup_keyWeight l :
  NoDup (key <$> l) ↔ ∀ x, (weigh (keyWeight key x) l ≤ 1)%nat.
Proof.
  induction l as [|c l IH].
  - split; [intros _ x; unfold weigh; simpl; lia|intros _; constructor].
  - rewrite fmap_cons, NoDup_cons, IH. split.
    + intros [Hnin Hnd] x. rewrite weigh_cons. unfold keyWeight at 1.
      destruct (decide (key c = x)) as [<-|]; [|apply Hnd].
      by rewrite weigh_keyWeight_0.
    + intros Hx. split.
      * intros Hin%weigh_keyWeight_pos. specialize (Hx (key c)).
        rewrite weigh_cons in Hx. unfold keyWeight at 1 in Hx.
        rewrite decide_True in Hx by done. lia.
      * intros x. specialize (Hx x). rewrite weigh_cons in Hx. lia.
Qed.

Lemma key_dealPlayer rnd id :
  key <$> playerCardList (dealPlayer rnd id)
  = key <$> tagDeck id (shuffle rnd createDeck).
Proof.
  destruct (dealPlayer_piles_eq rnd id) as (Hn & Ht & Hs & Hw).
  unfold playerCardList. rewrite Hn, Ht, Hs, Hw, app_nil_r.
  rewrite !fmap_app.
  assert (key <$> imap (λ i c, if decide (i = 12%nat) then makeFaceUp c else c)
                    (take 13 (tagDeck id (shuffle rnd createDeck)))
          = key <$> take 13 (tagDeck id (shuffle rnd createDeck))) as ->.
  { apply list_eq. intros i. rewrite !list_lookup_fmap, list_lookup_imap.
    destruct (take 13 _ !! i) as [x|]; [|done]. simpl.
    destruct (decide (i = 12%nat)); [|done]. by destruct (Hkey x) as [-> _]. }
  assert (key <$> (makeFaceUp <$> take 4 (drop 13 (tagDeck id (shuffle rnd createDeck))))
          = key <$> take 4 (drop 13 (tagDeck id (shuffle rnd createDeck)))) as ->.
  { rewrite <- list_fmap_compose. apply list_fmap_ext. intros _ x _. simpl.
    by destruct (Hkey x) as [-> _]. }
  rewrite <- !fmap_app. replace 17%nat with (13 + 4)%nat by done.
  by rewrite <- drop_drop, take_drop, take_drop.
Qed.

(** Keys that are distinct in every deal stay distinct, player by player,
    through a game. *)
Lemma game_keys_distinct config s :
  (∀ rnd id, NoDup (key <$> tagDeck id (shuffle rnd createDeck))) →
  reachable config s →
  Forall (λ p, NoDup (key <$> playerCardList p)) (players s).
Proof.
  intros Hinit. revert s. apply reachable_moves_ind.
  - intros rnd now. cbn [initNerts players]. apply Forall_imap_intro.
    intros k id. rewrite key_dealPlayer. apply Hinit.
  - intros s a i p p' fs' d Hr IH _ _ Hp Hm. rewrite finalize_players.
    apply Forall_insert; [done|].
    pose proof (Forall_lookup_1 _ _ _ _ IH Hp) as Hnd. simpl in Hnd.
    destruct (reachable_invariant config s Hr) as ((Hps & _) & _).
    pose proof (Forall_lookup_1 _ _ _ _ Hps Hp) as Hok. simpl in Hok.
    change (NoDup (key <$> playerCardList p')).
    rewrite NoDup_keyWeight in Hnd |- *. intros x. specialize (Hnd x).
    rewrite weigh_playerCardList in Hnd |- *.
    pose proof (moves_playerWeight _ _ _ _ _ _ _ (keyWeight_faceBlind x) Hok Hm).
    lia.
Qed.

End Keys.

(** X13. In every state of a game no player holds two cards with the same
    id, nor two cards of the same suit and rank, over all of the player's
    piles together; in particular ids are distinct within every tableau
    column, which is what the bot's tableau search relies on. *)
Theorem game_cards_distinct config s :
  reachable config s →
  Forall (λ p, NoDup (cid <$> playerCardList p) ∧
               NoDup (cardOf <$> playerCardList p) ∧
               wellTagged p) (players s).
Proof.
  intros Hr.
  assert (Forall (λ p, NoDup (cid <$> playerCardList p)) (players s)) as Hids.
  { apply (game_keys_distinct cid) with config; [done| |done].
    intros rnd id. apply NoDup_cid_tagDeck. }
  assert (Forall (λ p, NoDup (cardOf <$> playerCardList p)) (players s)) as Hcs.
  { apply (game_keys_distinct cardOf) with config; [done| |done].
    intros rnd id. rewrite cardOf_tagDeck.
    assert (shuffle rnd createDeck ≡ₚ createDeck) as ->
      by apply shuffle_loop_Permutation.
    apply NoDup_createDeck. }
  apply Forall_lookup. intros j p Hj.
  pose proof (Forall_lookup_1 _ _ _ _ Hids Hj) as Hid.
  pose proof (Forall_lookup_1 _ _ _ _ Hcs Hj) as Hc.
  simpl in Hid, Hc. split_and!; [done..|].
  apply Forall_forall. intros col Hcol.
  apply list_elem_of_split in Hcol as (t1 & t2 & Ht).
  unfold playerCardList in Hid. rewrite Ht, concat_app in Hid.
  change (concat (col :: t2)) with (col ++ concat t2) in Hid.
  rewrite !fmap_app in Hid.
  apply NoDup_app in Hid as (_ & _ & Hid).
  apply NoDup_app in Hid as (Hid & _).
  apply NoDup_app in Hid as (_ & _ & Hid).
  by apply NoDup_app in Hid as (Hid & _).
Qed.

Lemma game_cards_distinct_witness :
  let s := applyAll (initNerts (mkConfig ["a"; "b"]) (λ k i, (i * 7 + k)%nat) 5)
             [stock_draw "a"; nerts_to_tableau "b" 2; stock_draw "b"] in
  Forall (λ p, NoDup (cid <$> playerCardList p) ∧
               NoDup (cardOf <$> playerCardList p) ∧
               wellTagged p) (players s).
Proof.
  apply (game_cards_distinct (mkConfig ["a"; "b"])).
  apply reachable_applyAll. constructor.
Defined.

(** * Properties of the blackjack engine *)

Section BlackjackFacts.
Import Blackjack.

(** ** Scoring a hand *)

Lemma elem_of_fromSet_acc (x : Z) xs acc :
  x ∈ foldl (λ acc x, if decide (x ∈ acc) then acc else acc ++ [x]) acc xs
  ↔ x ∈ acc ∨ x ∈ xs.
Proof.
  revert acc. induction xs as [|y xs IH]; intros acc; cbn [foldl].
  - rewrite elem_of_nil. tauto.
  - rewrite IH, elem_of_cons. destruct (decide (y ∈ acc)) as [Hy|Hy].
    + split; [tauto|]. intros [?|[->|?]]; tauto.
    + rewrite elem_of_app, list_elem_of_singleton. tauto.
Qed.

Lemma elem_of_fromSet x xs : x ∈ fromSet xs ↔ x ∈ xs.
Proof. unfold fromSet. rewrite elem_of_fromSet_acc, elem_of_nil. tauto. Qed.

Lemma elem_of_nextTotals t' totals c :
  t' ∈ nextTotals totals c ↔ ∃ t v, t ∈ totals ∧ v ∈ cardValue c ∧ t' = t + v.
Proof.
  unfold nextTotals. rewrite elem_of_fromSet, list_elem_of_bind. split.
  - intros (t & Hin & Ht). apply list_elem_of_bind in Hin as (v & Hin & Hv).
    apply list_elem_of_singleton in Hin. eauto.
  - intros (t & v & Ht & Hv & ->). exists t. split; [|done].
    apply list_elem_of_bind. exists v. by rewrite list_elem_of_singleton.
Qed.

Lemma handTotals_snoc hand c :
  handTotals (hand ++ [c]) = nextTotals (handTotals hand) c.
Proof. unfold handTotals. by rewrite foldl_app. Qed.

Lemma hardTotal_snoc hand c : hardTotal (hand ++ [c]) = hardTotal hand + hardValue c.
Proof.
  unfold hardTotal. rewrite fmap_app, foldr_app.
  change (foldr Z.add 0 (hardValue <$> [c])) with (hardValue c + 0).
  induction (hardValue <$> hand) as [|x l IH]; cbn [foldr]; lia.
Qed.

Lemma aces_snoc hand c :
  aces (hand ++ [c]) = (aces hand + if decide (crank c = RA) then 1 else 0)%nat.
Proof.
  unfold aces. rewrite filter_app, length_app. f_equal.
  rewrite filter_cons, filter_nil. by destruct (decide (crank c = RA)).
Qed.

(** The totals [handScore] collects: the hand with every ace as 1, plus 10
    for any number of its aces. *)
Lemma elem_of_handTotals hand t :
  t ∈ handTotals hand ↔
  ∃ j : nat, (j ≤ aces hand)%nat ∧ t = hardTotal hand + 10 * Z.of_nat j.
Proof.
  revert t. induction hand as [|c hand IH] using rev_ind; intros t.
  - unfold handTotals, aces, hardTotal. cbn. rewrite list_elem_of_singleton.
    split.
    + intros ->. exists 0%nat. split; [lia|done].
    + intros (j & Hj & ->). assert (j = 0%nat) as -> by lia. done.
  - rewrite handTotals_snoc, elem_of_nextTotals, hardTotal_snoc, aces_snoc.
    split.
    + intros (t0 & v & (j & Hj & ->)%IH & Hv & ->).
      unfold cardValue, hardValue in *.
      destruct (crank c); cbn in Hv;
        repeat (apply elem_of_cons in Hv as [->|Hv]);
        try (by apply elem_of_nil in Hv);
        try (exists j; split; [simpl; lia | lia]).
      exists (S j). split; [simpl; lia | lia].
    + intros (j & Hj & ->). unfold cardValue, hardValue in *.
      destruct (decide (crank c = RA)) as [E|E].
      * rewrite E. destruct (decide (j ≤ aces hand)%nat) as [Hle|Hgt].
        -- exists (hardTotal hand + 10 * Z.of_nat j), 1.
           split_and!; [apply IH; eauto | by left | lia].
        -- exists (hardTotal hand + 10 * Z.of_nat (j - 1)), 11.
           split_and!; [apply IH; exists (j - 1)%nat; split; [lia|done]
                       | by right; left | lia].
      * exists (hardTotal hand + 10 * Z.of_nat j).
        destruct (crank c); try done;
          eexists; (split_and!; [apply IH; exists j; split; [lia|done]
                                | by left | lia]).
Qed.

Lemma handTotals_nonempty hand : handTotals hand ≠ [].
Proof.
  intros E. assert (hardTotal hand ∈ handTotals hand) as Hin.
  { apply elem_of_handTotals. exists 0%nat. split; lia. }
  rewrite E in Hin. by apply elem_of_nil in Hin.
Qed.

Lemma mathMax_spec x xs :
  mathMax x xs ∈ x :: xs ∧ Forall (λ y, y ≤ mathMax x xs) (x :: xs).
Proof.
  unfold mathMax. revert x. induction xs as [|y xs IH]; intros x; cbn [foldl].
  - split; [by left | by constructor].
  - destruct (IH (Z.max x y)) as [Hin Hall].
    apply Forall_cons in Hall as [Hm Hall]. split.
    + apply elem_of_cons in Hin as [->|Hin].
      * destruct (Z.max_spec x y) as [[_ ->]|[_ ->]]; [by right; left | by left].
      * by right; right.
    + constructor; [lia|]. constructor; [lia|done].
Qed.

Lemma mathMin_spec x xs :
  mathMin x xs ∈ x :: xs ∧ Forall (λ y, mathMin x xs ≤ y) (x :: xs).
Proof.
  unfold mathMin. revert x. induction xs as [|y xs IH]; intros x; cbn [foldl].
  - split; [by left | by constructor].
  - destruct (IH (Z.min x y)) as [Hin Hall].
    apply Forall_cons in Hall as [Hm Hall]. split.
    + apply elem_of_cons in Hin as [->|Hin].
      * destruct (Z.min_spec x y) as [[_ ->]|[_ ->]]; [by left | by right; left].
      * by right; right.
    + constructor; [lia|]. constructor; [lia|done].
Qed.

Lemma hardValue_pos c : 1 ≤ hardValue c ≤ 10.
Proof. unfold hardValue. destruct (crank c); lia. Qed.

Lemma hardTotal_aces hand : Z.of_nat (aces hand) ≤ hardTotal hand.
Proof.
  induction hand as [|c hand IH] using rev_ind; [done|].
  rewrite hardTotal_snoc, aces_snoc. pose proof (hardValue_pos c).
  destruct (decide (crank c = RA)); lia.
Qed.

Lemma hasAce_aces hand : hasAce hand = bool_decide (0 < aces hand)%nat.
Proof.
  unfold hasAce, aces. apply bool_decide_ext.
  rewrite list_elem_of_fmap. split.
  - intros (c & Hc & Hin).
    assert (c ∈ filter (λ c, crank c = RA) hand) as Hf
      by (by apply list_elem_of_filter).
    destruct (filter _ hand); [by apply elem_of_nil in Hf | simpl; lia].
  - intros Hlen. destruct (filter _ hand) as [|c l] eqn:E; [simpl in Hlen; lia|].
    assert (c ∈ filter (λ c, crank c = RA) hand) as Hf by (rewrite E; by left).
    apply list_elem_of_filter in Hf as [Hc Hin]. eauto.
Qed.

(** X14. [handScore] is the blackjack value of the hand: with every ace
    counted as 1, plus 10 when the hand has an ace and that does not go
    over 21.  An empty hand scores 0. *)
Theorem handScore_soft hand :
  handScore hand =
    if hasAce hand && bool_decide (hardTotal hand + 10 ≤ 21)
    then hardTotal hand + 10 else hardTotal hand.
Proof.
  rewrite hasAce_aces. pose proof (hardTotal_aces hand) as Hbase.
  assert (hardTotal hand ∈ handTotals hand) as Hlow.
  { apply elem_of_handTotals. exists 0%nat. split; lia. }
  unfold handScore.
  destruct (filter (λ t, t ≤ 21) (handTotals hand)) as [|v vs] eqn:Ev.
  - assert (21 < hardTotal hand) as Hover.
    { destruct (decide (hardTotal hand ≤ 21)) as [Hle|]; [|lia].
      assert (hardTotal hand ∈ filter (λ t, t ≤ 21) (handTotals hand)) as Hin
        by (by apply list_elem_of_filter).
      rewrite Ev in Hin. by apply elem_of_nil in Hin. }
    rewrite (bool_decide_eq_false_2 (_ + 10 ≤ 21)) by lia.
    rewrite andb_false_r.
    destruct (handTotals hand) as [|t ts] eqn:Et; [by apply elem_of_nil in Hlow|].
    destruct (mathMin_spec t ts) as [Hin Hall]. rewrite <- Et in Hin, Hall, Hlow.
    apply elem_of_handTotals in Hin as (j & _ & Hj).
    pose proof (proj1 (Forall_forall _ _) Hall _ Hlow) as Hle. simpl in Hle. lia.
  - destruct (mathMax_spec v vs) as [Hin Hall]. rewrite <- Ev in Hin, Hall.
    apply list_elem_of_filter in Hin as [H21 Hin].
    apply elem_of_handTotals in Hin as (j & Hj & Hm).
    assert (∀ t, t ∈ handTotals hand → t ≤ 21 → t ≤ mathMax v vs) as Hmax.
    { intros t Ht Hle.
      apply (proj1 (Forall_forall _ _) Hall). by apply list_elem_of_filter. }
    pose proof (Hmax _ Hlow) as Hlow'.
    case_bool_decide as Hace; case_bool_decide as Hsoft; cbn [andb]; try lia.
    assert (hardTotal hand + 10 * Z.of_nat 1 ∈ handTotals hand) as Hhigh.
    { apply elem_of_handTotals. exists 1%nat. split; [lia|done]. }
    pose proof (Hmax _ Hhigh). lia.
Qed.

(** A hand that does not bust with its aces low does not bust. *)
Lemma handScore_low hand : hardTotal hand ≤ 21 → handScore hand ≤ 21.
Proof.
  intros Hle.
  assert (hardTotal hand ∈ filter (λ t, t ≤ 21) (handTotals hand)) as Hin.
  { apply list_elem_of_filter. split; [done|].
    apply elem_of_handTotals. exists 0%nat. split; lia. }
  unfold handScore.
  destruct (filter (λ t, t ≤ 21) (handTotals hand)) as [|v vs] eqn:Ev.
  - by apply elem_of_nil in Hin.
  - destruct (mathMax_spec v vs) as [Hm _]. rewrite <- Ev in Hm.
    by apply list_elem_of_filter in Hm as [? _].
Qed.

Lemma handScore_two c1 c2 : handScore [c1; c2] ≤ 21.
Proof.
  apply handScore_low. unfold hardTotal. cbn.
  pose proof (hardValue_pos c1). pose proof (hardValue_pos c2). lia.
Qed.

(** ** The deal *)

Lemma dealOne_snoc deck c : dealOne (deck ++ [c]) = Ok (c, deck).
Proof.
  unfold dealOne. by rewrite (proj2 (pop_Some (deck ++ [c]) c deck) eq_refl).
Qed.

Lemma dealOne_nil : dealOne [] = Throw EmptyDeck.
Proof. done. Qed.

Lemma dealOne_cases deck :
  (deck = [] ∧ dealOne deck = Throw EmptyDeck) ∨
  (∃ c deck', deck = deck' ++ [c] ∧ dealOne deck = Ok (c, deck')).
Proof.
  destruct deck as [|c deck _] using rev_ind; [by left|].
  right. exists c, deck. by rewrite dealOne_snoc.
Qed.

Lemma dealTwo_cases deck :
  ((length deck < 2)%nat ∧ dealTwo deck = Throw EmptyDeck) ∨
  (∃ c1 c2 deck', deck = deck' ++ [c2; c1] ∧ dealTwo deck = Ok ([c1; c2], deck')).
Proof.
  unfold dealTwo.
  destruct (dealOne_cases deck) as [[-> ->]|(c1 & d1 & -> & ->)].
  { left. split; [simpl; lia|done]. }
  cbn [mbind Result_bind].
  destruct (dealOne_cases d1) as [[-> ->]|(c2 & d2 & -> & ->)].
  { left. split; [simpl; lia|done]. }
  right. exists c1, c2, d2. split; [by rewrite <- app_assoc|done].
Qed.

Lemma newPlayer_flagsOk name dealer bot c1 c2 :
  flagsOk (newPlayer name dealer bot [c1; c2]).
Proof.
  unfold flagsOk, newPlayer. cbn [busted hasTwentyOne isBlackjack standing hand].
  split_and!; try done.
  unfold isBusted. pose proof (handScore_two c1 c2).
  by rewrite bool_decide_eq_false_2 by lia.
Qed.

(** What a seating loop does to the deck and the table. *)
Lemma seatLoop_spec bot names prefix count i deck players :
  match seatLoop bot names prefix count i deck players with
  | Throw e => e = EmptyDeck ∧ (length deck < 2 * count)%nat
  | Ok (deck', players') =>
      (2 * count ≤ length deck)%nat ∧
      length deck' = (length deck - 2 * count)%nat ∧
      ∃ seats,
        players' = players ++ seats ∧
        deck' ++ concat (hand <$> seats) ≡ₚ deck ∧
        Forall (λ p, flagsOk p ∧ length (hand p) = 2%nat ∧ busted p = false) seats ∧
        pid <$> seats = seatName prefix names <$> seq i count ∧
        isDealer <$> seats = replicate count false ∧
        isBot <$> seats = replicate count bot ∧
        deck = deck' ++ reverse (concat (hand <$> seats))
  end.
Proof.
  revert i deck players. induction count as [|count IH]; intros i deck players.
  - cbn [seatLoop]. split_and!; [lia..|]. exists []. rewrite !app_nil_r. done.
  - cbn [seatLoop].
    destruct (dealTwo_cases deck) as [[Hlen ->]|(c1 & c2 & d & -> & ->)].
    { cbn [mbind Result_bind]. split; [done|lia]. }
    cbn [mbind Result_bind].
    specialize (IH (S i) d
      (players ++ [newPlayer (default (prefix +:+ pretty (i + 1)%nat) (names !! i))
                     false bot [c1; c2]])).
    destruct (seatLoop _ _ _ _ _ _ _) as [[deck' players']|e].
    + destruct IH as (Hle & Hlen & seats & -> & Hperm & Hall & Hpid & Hd & Hb & Heq).
      rewrite length_app. cbn [length]. split_and!; [lia..|].
      eexists (_ :: seats). split_and!.
      * by rewrite <- app_assoc.
      * rewrite fmap_cons. cbn [concat newPlayer hand].
        rewrite <- Hperm. rewrite <- !app_assoc.
        apply Permutation_app_head. cbn.
        rewrite (Permutation_app_comm (concat _) [c2; c1]). cbn.
        apply perm_swap.
      * constructor; [|done]. split_and!; [apply newPlayer_flagsOk|done..].
      * rewrite fmap_cons, Hpid. done.
      * rewrite fmap_cons, Hd. done.
      * rewrite fmap_cons, Hb. done.
      * rewrite fmap_cons. cbn [concat newPlayer hand].
        rewrite reverse_app, Heq, <- app_assoc. done.
    + destruct IH as [-> Hlen]. split; [done|].
      rewrite length_app. cbn [length]. lia.
Qed.

(** What [initBlackjack] returns, case by case. *)
Lemma initBlackjack_spec rnd config :
  let nh := numHumans config in
  let nb := default 0 (numBots config) in
  match initBlackjack rnd config with
  | Throw e =>
      (e = NegativeCount ∧ (nh < 0 ∨ nb < 0)) ∨
      (e = EmptyDeck ∧ 0 ≤ nh ∧ 0 ≤ nb ∧ 25 < nh + nb)
  | Ok s =>
      0 ≤ nh ∧ 0 ≤ nb ∧ nh + nb ≤ 25 ∧
      length (deck s) = Z.to_nat (50 - 2 * (nh + nb)) ∧
      cardsOf s ≡ₚ createDeck ∧
      Forall (λ p, flagsOk p ∧ length (hand p) = 2%nat ∧ busted p = false)
        (players s) ∧
      pid <$> players s =
        default "Dealer" (dealerName config)
        :: (seatName "H" (default [] (humanNames config)) <$> seq 0 (Z.to_nat nh))
        ++ (seatName "B" (default [] (botNames config)) <$> seq 0 (Z.to_nat nb)) ∧
      isDealer <$> players s = true :: replicate (Z.to_nat (nh + nb)) false ∧
      isBot <$> players s =
        false :: replicate (Z.to_nat nh) false ++ replicate (Z.to_nat nb) true ∧
      currentPlayerIndex s = (if bool_decide (0 < nh + nb) then 1%nat else 0%nat) ∧
      finished s = false ∧
      shuffle rnd createDeck = deck s ++ reverse (concat (hand <$> players s))
  end.
Proof.
  intros nh nb. unfold initBlackjack. fold nh nb.
  case_bool_decide as Hneg; [by left|].
  assert (0 ≤ nh ∧ 0 ≤ nb) as [Hnh Hnb] by lia.
  pose proof (length_shuffle rnd createDeck) as Hlen.
  rewrite length_createDeck in Hlen.
  assert (shuffle rnd createDeck ≡ₚ createDeck) as Hshuffle
    by apply shuffle_loop_Permutation.
  destruct (dealTwo_cases (shuffle rnd createDeck))
    as [[Hshort _]|(c1 & c2 & d0 & Hd0 & ->)]; [lia|].
  cbn [mbind Result_bind].
  rewrite Hd0, length_app in Hlen. cbn [length] in Hlen.
  pose proof (seatLoop_spec false (default [] (humanNames config)) "H"
                (Z.to_nat nh) 0 d0
                [newPlayer (default "Dealer" (dealerName config)) true false [c1; c2]])
    as Hh.
  destruct (seatLoop false _ _ _ _ _ _) as [[d1 ps1]|e].
  2: { destruct Hh as [-> Hh]. right. split_and!; [done..|lia]. }
  destruct Hh as (Hle1 & Hlen1 & hs & -> & Hperm1 & Hall1 & Hpid1 & Hd1 & Hb1 & Heq1).
  cbn [mbind Result_bind].
  pose proof (seatLoop_spec true (default [] (botNames config)) "B"
                (Z.to_nat nb) 0 d1
                ([newPlayer (default "Dealer" (dealerName config)) true false [c1; c2]]
                 ++ hs))
    as Hbots.
  destruct (seatLoop true _ _ _ _ _ _) as [[d2 ps2]|e].
  2: { destruct Hbots as [-> Hbots]. right. split_and!; [done..|lia]. }
  destruct Hbots as (Hle2 & Hlen2 & bs & -> & Hperm2 & Hall2 & Hpid2 & Hd2 & Hb2 & Heq2).
  cbn [mbind Result_bind].
  assert (nh + nb ≤ 25) as Htotal by lia.
  unfold cardsOf. cbn [deck players currentPlayerIndex finished].
  split_and!; try done.
  - lia.
  -     rewrite <- Hshuffle, Hd0, <- Hperm1, <- Hperm2.
    rewrite !fmap_app, !concat_app. cbn. rewrite <- !app_assoc.
    apply Permutation_app_head.
    rewrite (Permutation_app_comm (concat (hand <$> bs)) (_ ++ _)).
    rewrite (Permutation_app_comm (concat (hand <$> hs)) [c2; c1]).
    cbn. apply perm_swap.
  - rewrite !Forall_app. split_and!; [|done..].
    constructor; [|done]. split_and!; [apply newPlayer_flagsOk|done..].
  - rewrite !fmap_app, Hpid1, Hpid2. done.
  - rewrite !fmap_app, Hd1, Hd2. cbn.
    rewrite Z2Nat.inj_add by lia. by rewrite replicate_add.
  - rewrite !fmap_app, Hb1, Hb2. done.
  - rewrite Hd0, Heq1, Heq2, !fmap_app, !concat_app, !reverse_app.
    cbn [fmap list_fmap concat newPlayer hand]. rewrite app_nil_r.
    by rewrite <- !app_assoc.
Qed.


(** ** One card, one seat *)

Lemma notDone_flags p :
  isPlayerDone p = false →
  busted p = false ∧ standing p = false ∧ hasTwentyOne p = false ∧
  isBlackjack p = false.
Proof.
  unfold isPlayerDone.
  by destruct (busted p), (standing p), (hasTwentyOne p), (isBlackjack p).
Qed.

(** What [hit] does, case by case. *)
Lemma hit_cases s :
  (finished s = true ∧ hit s = Ok s) ∨
  (finished s = false ∧ players s !! currentPlayerIndex s = None ∧
   hit s = Throw (InvalidPlayerIndex (currentPlayerIndex s))) ∨
  ∃ current,
    finished s = false ∧ players s !! currentPlayerIndex s = Some current ∧
    ((isPlayerDone current = true ∧ hit s = Ok s) ∨
     (isPlayerDone current = false ∧ deck s = [] ∧ hit s = Throw EmptyDeck) ∨
     ∃ c d,
       isPlayerDone current = false ∧ deck s = d ++ [c] ∧
       hit s = Ok {| deck := d;
                     players :=
                       <[currentPlayerIndex s := takeCard current c]> (players s);
                     currentPlayerIndex := currentPlayerIndex s;
                     finished := false |}).
Proof.
  unfold hit, getPlayer. destruct (finished s) eqn:Hfin; [by left|]. right.
  destruct (players s !! currentPlayerIndex s) as [current|] eqn:Hcur;
    [|by left].
  right. exists current. split_and!; [done..|]. cbn [mbind Result_bind].
  destruct (isPlayerDone current); [by left|]. right.
  destruct (dealOne_cases (deck s)) as [[-> ->]|(c & d & -> & ->)]; [by left|].
  right. by exists c, d.
Qed.

(** What [stand] does, case by case. *)
Lemma stand_cases s :
  (finished s = true ∧ stand s = Ok s) ∨
  (finished s = false ∧ players s !! currentPlayerIndex s = None ∧
   stand s = Throw (InvalidPlayerIndex (currentPlayerIndex s))) ∨
  ∃ current,
    finished s = false ∧ players s !! currentPlayerIndex s = Some current ∧
    ((isPlayerDone current = true ∧ stand s = Ok s) ∨
     (isPlayerDone current = false ∧
      stand s = Ok {| deck := deck s;
                      players :=
                        <[currentPlayerIndex s := stood current]> (players s);
                      currentPlayerIndex := currentPlayerIndex s;
                      finished := false |})).
Proof.
  unfold stand, getPlayer. destruct (finished s) eqn:Hfin; [by left|]. right.
  destruct (players s !! currentPlayerIndex s) as [current|] eqn:Hcur;
    [|by left].
  right. exists current. split_and!; [done..|]. cbn [mbind Result_bind].
  destruct (isPlayerDone current); [by left|]. by right.
Qed.

Lemma takeCard_seat current c :
  pid (takeCard current c) = pid current ∧
  isDealer (takeCard current c) = isDealer current ∧
  isBot (takeCard current c) = isBot current ∧
  hand (takeCard current c) = hand current ++ [c].
Proof. unfold takeCard. by destruct (isBusted _). Qed.

Lemma takeCard_flagsOk current c :
  flagsOk current → isPlayerDone current = false → flagsOk (takeCard current c).
Proof.
  intros (_ & _ & _ & _ & Hlen) (_ & _ & H21 & Hbj)%notDone_flags.
  assert (isNaturalBlackjack (hand current ++ [c]) = false) as Hnat.
  { unfold isNaturalBlackjack. rewrite bool_decide_eq_false_2; [done|].
    rewrite length_app. simpl. lia. }
  unfold takeCard, flagsOk.
  destruct (isBusted (hand current ++ [c])) eqn:Hb;
    cbn [busted hasTwentyOne isBlackjack standing hand];
    rewrite ?Hb, ?Hnat, ?H21, ?Hbj, ?length_app; cbn [length orb].
  - unfold isBusted in Hb. apply bool_decide_eq_true_1 in Hb.
    split_and!; [done| |done|done|lia].
    symmetry. apply bool_decide_eq_false_2. lia.
  - split_and!; [done..| |lia]. by intros ->.
Qed.

Lemma stood_flagsOk current : flagsOk current → flagsOk (stood current).
Proof. intros (? & ? & ? & ? & ?). by split_and!. Qed.

(** The dealer's flags after its loop say what they said before, but for
    [standing]. *)
Lemma settled_flagsOk dealer :
  flagsOk dealer → flagsOk (settled dealer (handScore (hand dealer))).
Proof.
  intros (Hb & H21 & Hbj & Hst & Hlen). unfold flagsOk, settled.
  cbn [busted hasTwentyOne isBlackjack standing hand].
  rewrite Hbj, H21, !orb_diag. by split_and!.
Qed.

(** ** Seats of a table *)

Lemma hands_insert (ps : list BlackjackPlayer) i p p' extra :
  ps !! i = Some p → hand p' = hand p ++ extra →
  concat (hand <$> <[i := p']> ps) ≡ₚ extra ++ concat (hand <$> ps).
Proof.
  intros Hi Hhand. rewrite insert_take_drop by (by eapply lookup_lt_Some).
  rewrite <- (take_drop_middle ps i p Hi) at 3.
  rewrite !fmap_app, !fmap_cons, !concat_app. cbn [concat]. rewrite Hhand.
  rewrite (Permutation_app_comm extra), <- !app_assoc.
  apply Permutation_app_head, Permutation_app_head, Permutation_app_comm.
Qed.

Lemma roundOk_seat s d i p p' extra k f :
  roundOk s → players s !! i = Some p →
  deck s = d ++ extra → hand p' = hand p ++ extra →
  flagsOk p' → isDealer p' = isDealer p →
  roundOk {| deck := d; players := <[i := p']> (players s);
             currentPlayerIndex := k; finished := f |}.
Proof.
  intros (Hcards & Hflags & Hdealer) Hi Hdeck Hhand Hok Hd.
  unfold roundOk, cardsOf in *. cbn [deck players]. split_and!.
  - rewrite (hands_insert _ _ _ _ _ Hi Hhand), app_assoc, <- Hdeck. done.
  - by apply Forall_insert.
  - rewrite length_insert, list_fmap_insert, <- Hdealer.
    apply list_insert_id. by rewrite list_lookup_fmap, Hi, Hd.
Qed.

Lemma roundOk_same s s' :
  deck s' = deck s → players s' = players s → roundOk s → roundOk s'.
Proof. unfold roundOk, cardsOf. by intros -> ->. Qed.

Lemma extends_refl s : extends s s.
Proof.
  split_and!; [done..|]. intros i p Hi. exists p. by split_and!.
Qed.

Lemma extends_trans s1 s2 s3 : extends s1 s2 → extends s2 s3 → extends s1 s3.
Proof.
  intros (Hd1 & Hl1 & Hf1 & Hp1) (Hd2 & Hl2 & Hf2 & Hp2). split_and!.
  - by etrans.
  - congruence.
  - auto.
  - intros i p Hi.
    destruct (Hp1 i p Hi) as (p' & Hi' & Hpid & Hdl & Hbot & Hpre & Hdone).
    destruct (Hp2 i p' Hi') as (p'' & Hi'' & Hpid' & Hdl' & Hbot' & Hpre' & Hdone').
    exists p''. split_and!; [done|congruence..| by etrans|].
    intros Hp. destruct (Hdone Hp) as [Hh Hd]. destruct (Hdone' Hd) as [Hh' Hd'].
    split; congruence.
Qed.

Lemma extends_same s s' :
  deck s' = deck s → players s' = players s →
  (finished s = true → finished s' = true) → extends s s'.
Proof.
  intros Hd Hp Hf. split_and!; [by rewrite Hd|by rewrite Hp|done|].
  intros i p Hi. exists p. rewrite Hp. by split_and!.
Qed.

Lemma extends_seat s d i p p' extra k f :
  players s !! i = Some p → deck s = d ++ extra → hand p' = hand p ++ extra →
  pid p' = pid p → isDealer p' = isDealer p → isBot p' = isBot p →
  (isPlayerDone p = true → extra = [] ∧ isPlayerDone p' = true) →
  (finished s = true → f = true) →
  extends s {| deck := d; players := <[i := p']> (players s);
               currentPlayerIndex := k; finished := f |}.
Proof.
  intros Hi Hdeck Hhand Hpid Hdl Hbot Hdone Hfin.
  split_and!; cbn [deck players finished].
  - rewrite Hdeck. by apply prefix_app_r.
  - by rewrite length_insert.
  - done.
  - intros j q Hj. destruct (decide (i = j)) as [<-|Hne].
    + rewrite Hi in Hj. injection Hj as <-. exists p'.
      rewrite list_lookup_insert_eq by (by eapply lookup_lt_Some).
      split_and!; [done..| |].
      * rewrite Hhand. by apply prefix_app_r.
      * intros [-> Hd]%Hdone. by rewrite Hhand, app_nil_r.
    + exists q. rewrite list_lookup_insert_ne by done. by split_and!.
Qed.

(** ** What one use of the engine keeps *)

Lemma hit_roundOk s s' : roundOk s → hit s = Ok s' → roundOk s'.
Proof.
  intros Hok Hhit.
  destruct (hit_cases s) as [[_ E]|[(_ & _ & E)|(current & _ & Hcur & Hc)]];
    [congruence..|].
  destruct Hc as [[_ E]|[(_ & _ & E)|(c & d & Hnd & Hdeck & E)]];
    [congruence..|].
  rewrite E in Hhit. injection Hhit as <-.
  destruct (takeCard_seat current c) as (_ & Hdl & _ & Hhand).
  apply (roundOk_seat s d _ current _ [c]); [done..| |done].
  apply takeCard_flagsOk; [|done].
  destruct Hok as (_ & Hflags & _). by eapply (Forall_lookup_1 _ _ _ _ Hflags).
Qed.

Lemma hit_extends s s' : hit s = Ok s' → extends s s'.
Proof.
  intros Hhit.
  destruct (hit_cases s) as [[_ E]|[(_ & _ & E)|(current & Hfin & Hcur & Hc)]];
    [rewrite E in Hhit; injection Hhit as <-; apply extends_refl|congruence|].
  destruct Hc as [[_ E]|[(_ & _ & E)|(c & d & Hnd & Hdeck & E)]];
    [rewrite E in Hhit; injection Hhit as <-; apply extends_refl|congruence|].
  rewrite E in Hhit. injection Hhit as <-.
  destruct (takeCard_seat current c) as (Hpid & Hdl & Hbot & Hhand).
  apply (extends_seat s d _ current _ [c]); [done..| |]; congruence.
Qed.

Lemma stand_roundOk s s' : roundOk s → stand s = Ok s' → roundOk s'.
Proof.
  intros Hok Hst.
  destruct (stand_cases s) as [[_ E]|[(_ & _ & E)|(current & _ & Hcur & Hc)]];
    [congruence..|].
  destruct Hc as [[_ E]|[Hnd E]]; [congruence|].
  rewrite E in Hst. injection Hst as <-.
  apply (roundOk_seat s (deck s) _ current _ []);
    [done|done|by rewrite app_nil_r|by rewrite app_nil_r| |done].
  apply stood_flagsOk.
  destruct Hok as (_ & Hflags & _). by eapply (Forall_lookup_1 _ _ _ _ Hflags).
Qed.

Lemma stand_extends s s' : stand s = Ok s' → extends s s'.
Proof.
  intros Hst.
  destruct (stand_cases s) as [[_ E]|[(_ & _ & E)|(current & Hfin & Hcur & Hc)]];
    [rewrite E in Hst; injection Hst as <-; apply extends_refl|congruence|].
  destruct Hc as [[_ E]|[Hnd E]];
    [rewrite E in Hst; injection Hst as <-; apply extends_refl|].
  rewrite E in Hst. injection Hst as <-.
  apply (extends_seat s (deck s) _ current _ []);
    [done|by rewrite app_nil_r|by rewrite app_nil_r|done..| |];
    congruence.
Qed.

Lemma plays_roundOk s s' : plays s s' → roundOk s → roundOk s'.
Proof.
  induction 1 as [s|s s1 s2 Hhit _ IH|s s1 s2 Hst _ IH]; intros Hok; [done|..].
  - by apply IH, (hit_roundOk s).
  - by apply IH, (stand_roundOk s).
Qed.

Lemma plays_extends s s' : plays s s' → extends s s'.
Proof.
  induction 1 as [s|s s1 s2 Hhit _ IH|s s1 s2 Hst _ IH].
  - apply extends_refl.
  - eapply extends_trans; [by apply hit_extends|done].
  - eapply extends_trans; [by apply stand_extends|done].
Qed.

Lemma nextPlayerLoop_cases fuel s idx s' :
  nextPlayerLoop fuel s idx = Some s' →
  s' = withFinished s ∨ ∃ k, s' = withCurrent s k.
Proof.
  revert idx. induction fuel as [|fuel IH]; intros idx; [done|].
  cbn [nextPlayerLoop]. case_bool_decide.
  - case_bool_decide; intros [= <-]; [by left|by right; eexists].
  - destruct (players s !! S idx) as [p|]; [|apply IH].
    destruct (isPlayerDone p); cbn [negb]; [apply IH|].
    intros [= <-]. right. by eexists.
Qed.

Lemma nextPlayer_cases fuel s s' :
  nextPlayer fuel s = Some s' →
  s' = s ∨ s' = withFinished s ∨ ∃ k, s' = withCurrent s k.
Proof.
  unfold nextPlayer. destruct (finished s); [intros [= <-]; by left|].
  intros H%nextPlayerLoop_cases. by right.
Qed.

Lemma dealerLoop_plays fuel s d s' d' :
  players s !! 0%nat = Some d →
  dealerLoop fuel s d = Some (Ok (s', d')) →
  plays s s' ∧ players s' !! 0%nat = Some d'.
Proof.
  revert s d. induction fuel as [|fuel IH]; intros s d Hd; [done|].
  cbn [dealerLoop].
  destruct (negb (busted d) && bool_decide (handScore (hand d) < 17)).
  - destruct (hit s) as [s1|e] eqn:Hhit; [|done].
    unfold getPlayer. destruct (players s1 !! 0%nat) as [d1|] eqn:Hd1; [|done].
    intros [Hp Hd']%IH; [|done]. split; [|done]. by eapply plays_hit.
  - intros [= <- <-]. split; [constructor|done].
Qed.

Lemma botLoop_plays fuel s c s' :
  botLoop fuel s c = Some (Ok s') → plays s s'.
Proof.
  revert s c. induction fuel as [|fuel IH]; intros s c; [done|].
  cbn [botLoop]. destruct (isPlayerDone c); cbn [negb];
    [intros [= <-]; constructor|].
  case_bool_decide.
  - destruct (hit s) as [s1|e] eqn:Hhit; [|done].
    unfold getPlayer. destruct (players s1 !! _) as [c1|]; [|done].
    intros Hp%IH. by eapply plays_hit.
  - destruct (stand s) as [s1|e] eqn:Hst; [|done].
    unfold getPlayer. destruct (players s1 !! _) as [c1|]; [|done].
    intros Hp%IH. by eapply plays_stand.
Qed.

(** How [dealerAutoPlay] is made of [hit]s and one last write. *)
Lemma dealerAutoPlay_cases fuel s s' :
  dealerAutoPlay fuel s = Some (Ok s') →
  ∃ s1, plays s s1 ∧
    (s' = withFinished s1 ∨
     ∃ d, players s1 !! 0%nat = Some d ∧
          s' = withFinished
                 {| deck := deck s1;
                    players :=
                      <[0%nat := settled d (handScore (hand d))]> (players s1);
                    currentPlayerIndex := currentPlayerIndex s1;
                    finished := finished s1 |}).
Proof.
  unfold dealerAutoPlay, getPlayer.
  destruct (players s !! 0%nat) as [d|] eqn:Hd; [|done].
  destruct (isPlayerDone d).
  { intros [= <-]. exists s. split; [constructor|by left]. }
  destruct (dealerLoop fuel s d) as [[[s1 d1]|e]|] eqn:Hloop; [|done..].
  apply dealerLoop_plays in Hloop as [Hp Hd1]; [|done].
  exists s1. split; [done|]. rewrite Hd1 in H.
  destruct (busted d1); cbn [negb] in H; injection H as <-; [by left|].
  right. by exists d1.
Qed.

Lemma step_roundOk s s' : step s s' → roundOk s → roundOk s'.
Proof.
  intros [s0 s1 H|s0 s1 H|fuel s0 s1 H|fuel s0 s1 H|fuel s0 s1 H] Hok.
  - by eapply hit_roundOk.
  - by eapply stand_roundOk.
  - apply nextPlayer_cases in H as [->|[->|[k ->]]]; [done|..];
      by eapply roundOk_same.
  - apply dealerAutoPlay_cases in H as (s2 & Hp & [->|(d & Hd & ->)]).
    + eapply roundOk_same; [..|by eapply plays_roundOk]; done.
    + pose proof (plays_roundOk _ _ Hp Hok) as Hok2.
      eapply (roundOk_same _ _ eq_refl eq_refl).
      apply (roundOk_seat s2 (deck s2) _ d _ []);
        [done|done|by rewrite app_nil_r|by rewrite app_nil_r| |done].
      apply settled_flagsOk. destruct Hok2 as (_ & Hflags & _).
      by eapply (Forall_lookup_1 _ _ _ _ Hflags).
  - unfold botAutoPlay, getPlayer in H.
    destruct (players s0 !! _) as [c|]; [|done].
    destruct (negb (isBot c) || isDealer c); [by injection H as <-|].
    apply botLoop_plays in H. by eapply plays_roundOk.
Qed.

Lemma step_extends s s' : step s s' → extends s s'.
Proof.
  intros [s0 s1 H|s0 s1 H|fuel s0 s1 H|fuel s0 s1 H|fuel s0 s1 H].
  - by apply hit_extends.
  - by apply stand_extends.
  - apply nextPlayer_cases in H as [->|[->|[k ->]]];
      [apply extends_refl|by apply extends_same..].
  - apply dealerAutoPlay_cases in H as (s2 & Hp & [->|(d & Hd & ->)]).
    + eapply extends_trans; [by apply plays_extends|]. by apply extends_same.
    + eapply extends_trans; [by apply plays_extends|].
      apply (extends_seat s2 (deck s2) _ d _ []);
        [done|by rewrite app_nil_r|by rewrite app_nil_r|done..| |done].
      intros _. split; [done|]. unfold isPlayerDone, settled. cbn.
      by rewrite orb_true_r.
  - unfold botAutoPlay, getPlayer in H.
    destruct (players s0 !! _) as [c|]; [|done].
    destruct (negb (isBot c) || isDealer c);
      [injection H as <-; apply extends_refl|].
    by apply botLoop_plays, plays_extends in H.
Qed.

(** ** Rounds *)

Lemma initBlackjack_roundOk rnd config s :
  initBlackjack rnd config = Ok s → roundOk s.
Proof.
  intros Hinit.
  pose proof (initBlackjack_spec rnd config) as Hspec. rewrite Hinit in Hspec.
  destruct Hspec as (Hnh & Hnb & _ & _ & Hcards & Hall & _ & Hd & _).
  split_and!; [done| |].
  - eapply Forall_impl; [exact Hall|]. by intros p [? _].
  - rewrite Hd. f_equal. f_equal.
    rewrite <- (length_fmap isDealer), Hd. cbn [length].
    rewrite length_replicate. lia.
Qed.

(** A freshly dealt table has the turn in order. *)
Lemma initBlackjack_turnOk rnd config s :
  initBlackjack rnd config = Ok s → turnOk s.
Proof.
  intros Hinit.
  pose proof (initBlackjack_spec rnd config) as Hspec. rewrite Hinit in Hspec.
  destruct Hspec as (Hnh & Hnb & _ & _ & _ & _ & _ & Hd & _ & Hcur & _).
  split.
  - intros i p Hi. rewrite Hcur in Hi. case_bool_decide; lia.
  - intros H0. rewrite H0 in Hcur. case_bool_decide as Hn; [done|].
    assert (length (players s) = 1%nat) as Hlen.
    { rewrite <- (length_fmap isDealer), Hd. cbn [length].
      rewrite length_replicate. lia. }
    unfold allNonDealerDone. by rewrite drop_ge by lia.
Qed.

(** X16. In every state of a round, however it was played, the deck and
    the hands together are the 52 cards, none twice; the flags of every
    seat agree with its hand (bust exactly when the score is over 21,
    twenty-one exactly at 21 and then standing, blackjack exactly for a
    two-card 21); and the dealer sits at seat 0 and nowhere else. *)
Theorem round_invariant s :
  played s →
  cardsOf s ≡ₚ createDeck ∧ NoDup (cardsOf s) ∧
  Forall flagsOk (players s) ∧
  isDealer <$> players s = true :: replicate (length (players s) - 1) false.
Proof.
  intros Hplayed.
  assert (roundOk s) as (Hcards & Hflags & Hdealer).
  { induction Hplayed as [rnd config s Hinit|s s' _ IH Hstep].
    - by apply (initBlackjack_roundOk rnd config).
    - by apply (step_roundOk s). }
  split_and!; [done| |done..].
  rewrite Hcards. apply NoDup_createDeck.
Qed.

Lemma round_invariant_witness :
  cardsOf exRoundHit ≡ₚ createDeck ∧ NoDup (cardsOf exRoundHit) ∧
  Forall flagsOk (players exRoundHit) ∧
  isDealer <$> players exRoundHit
    = true :: replicate (length (players exRoundHit) - 1) false.
Proof.
  apply (round_invariant exRoundHit).
  apply (played_step exRound).
  - by apply (played_init (λ i, (i * 7)%nat) (mkConfig 1 (Some 1) None None None)).
  - by apply step_hit.
Defined.

(** X17. Nothing played is taken back: along any uses of the engine the
    deck only loses cards from its top, the seats keep their number, names
    and roles, every hand only grows at its end, a seat that is done (bust,
    standing, at 21) keeps its hand and stays done, and a finished round
    stays finished. *)
Theorem round_only_advances s s' : steps s s' → extends s s'.
Proof.
  induction 1 as [s|s s1 s2 _ IH Hstep].
  - apply extends_refl.
  - eapply extends_trans; [exact IH|]. by apply step_extends.
Qed.

Lemma round_only_advances_witness : extends exRound exBotTurn.
Proof.
  apply (round_only_advances exRound exBotTurn).
  apply (steps_step _ (fromOk (stand exRound))).
  - apply (steps_step _ exRound); [constructor|]. by apply step_stand.
  - by apply (step_next 4).
Defined.

(** ** Whose turn *)

Lemma nextPlayerLoop_spec fuel s idx :
  (length (players s) - idx ≤ fuel)%nat → (0 < fuel)%nat →
  nextPlayerLoop fuel s idx =
    Some (match list_find (λ p, isPlayerDone p = false)
                  (drop (S idx) (players s)) with
          | Some (k, _) => withCurrent s (S idx + k)
          | None =>
              if bool_decide (currentPlayerIndex s = 0%nat)
              then withFinished s else withCurrent s 0
          end).
Proof.
  revert idx. induction fuel as [|fuel IH]; intros idx Hfuel Hpos; [lia|].
  cbn [nextPlayerLoop].
  destruct (decide (length (players s) ≤ S idx)%nat) as [Hend|Hend].
  - rewrite (bool_decide_eq_true_2 _ Hend), drop_ge by done. cbn.
    by case_bool_decide.
  - rewrite (bool_decide_eq_false_2 _ Hend).
    destruct (players s !! S idx) as [p|] eqn:Hp.
    2: { apply lookup_ge_None in Hp. lia. }
    rewrite (drop_S _ _ _ Hp). cbn [list_find].
    destruct (isPlayerDone p) eqn:Hdone; cbn [negb].
    + rewrite decide_False by done. rewrite IH by lia.
      destruct (list_find _ (drop (S (S idx)) (players s))) as [[k q]|];
        cbn [fmap option_fmap option_map prod_map fst snd]; [|done].
      do 2 f_equal. lia.
    + rewrite decide_True by done. do 2 f_equal. lia.
Qed.

(** X18. [nextPlayer] on a round in progress hands the turn to the first
    seat after the current one that is not done; when there is none the
    turn goes to the dealer at seat 0, and if the turn was the dealer's
    already the round is finished.  Deck and seats are untouched, and the
    loop ends within as many rounds as there are seats.  In particular,
    once [allNonDealerDone] holds the dealer is next. *)
Theorem nextPlayer_turn fuel s :
  finished s = false → (length (players s) < fuel)%nat →
  nextPlayer fuel s =
    Some (match list_find (λ p, isPlayerDone p = false)
                  (drop (S (currentPlayerIndex s)) (players s)) with
          | Some (k, _) => withCurrent s (S (currentPlayerIndex s) + k)
          | None =>
              if bool_decide (currentPlayerIndex s = 0%nat)
              then withFinished s else withCurrent s 0
          end) ∧
  (allNonDealerDone s = true →
   nextPlayer fuel s =
     Some (if bool_decide (currentPlayerIndex s = 0%nat)
           then withFinished s else withCurrent s 0)).
Proof.
  intros Hfin Hfuel. unfold nextPlayer. rewrite Hfin.
  rewrite nextPlayerLoop_spec by lia. split; [done|].
  unfold allNonDealerDone. intros Hall.
  destruct (list_find _ _) as [[k p]|] eqn:Hfind; [|done].
  apply list_find_Some in Hfind as (Hk & Hp & _).
  rewrite lookup_drop in Hk.
  assert (drop 1 (players s) !! (currentPlayerIndex s + k)%nat = Some p) as Hin.
  { by rewrite lookup_drop. }
  rewrite forallb_forall in Hall. specialize (Hall p). rewrite Hp in Hall.
  discriminate Hall. apply list_elem_of_In. by eapply list_elem_of_lookup_2.
Qed.

Lemma nextPlayer_turn_witness :
  nextPlayer 4 (fromOk (stand exRound)) =
    Some (withCurrent (fromOk (stand exRound)) 2) ∧
  (allNonDealerDone (fromOk (stand exRound)) = true →
   nextPlayer 4 (fromOk (stand exRound)) =
     Some (withCurrent (fromOk (stand exRound)) 0)).
Proof.
  apply (nextPlayer_turn 4 (fromOk (stand exRound))); vm_compute; [done|lia].
Defined.

(** ** The dealer and the bots *)

Lemma flagsOk_score p : flagsOk p → busted p = false → handScore (hand p) ≤ 21.
Proof.
  intros (Hb & _) Hnb. rewrite Hb in Hnb. unfold isBusted in Hnb.
  apply bool_decide_eq_false_1 in Hnb. lia.
Qed.

(** A seat that took a card and is done went bust or reached 21. *)
Lemma takeCard_done current c :
  isPlayerDone current = false → isPlayerDone (takeCard current c) = true →
  busted (takeCard current c) = true ∨
  handScore (hand (takeCard current c)) = 21.
Proof.
  intros (_ & Hst & H21 & Hbj)%notDone_flags. unfold takeCard, isPlayerDone.
  destruct (isBusted (hand current ++ [c])) eqn:Hb;
    cbn [busted standing hasTwentyOne isBlackjack hand]; [by left|].
  rewrite Hst, Hbj. unfold isNaturalBlackjack. cbn [orb].
  case_bool_decide as H; [by right|]. cbn. by rewrite andb_false_r.
Qed.

(** The loop of [dealerAutoPlay] at the dealer's turn: it ends, for want of
    cards or with the dealer bust or at 17 or more, having drawn while the
    score was under 17. *)
Lemma dealerLoop_spec fuel s d :
  finished s = false → currentPlayerIndex s = 0%nat →
  players s !! 0%nat = Some d → flagsOk d →
  (isPlayerDone d = true → busted d = true ∨ 17 ≤ handScore (hand d)) →
  (length (deck s) < fuel)%nat →
  match dealerLoop fuel s d with
  | None => False
  | Some (Throw e) =>
      e = EmptyDeck ∧
      ∀ k, (k ≤ length (deck s))%nat →
           handScore (hand d ++ take k (reverse (deck s))) < 17
  | Some (Ok (s', d')) =>
      ∃ drawn,
        deck s = deck s' ++ reverse drawn ∧
        hand d' = hand d ++ drawn ∧
        players s' = <[0%nat := d']> (players s) ∧
        currentPlayerIndex s' = 0%nat ∧ finished s' = false ∧
        flagsOk d' ∧
        (busted d' = true ∨ 17 ≤ handScore (hand d')) ∧
        ∀ k, (k < length drawn)%nat → handScore (hand d ++ take k drawn) < 17
  end.
Proof.
  revert s d. induction fuel as [|fuel IH];
    intros s d Hfin Hcur Hd Hok Hdone Hfuel; [lia|].
  cbn [dealerLoop].
  destruct (negb (busted d) && bool_decide (handScore (hand d) < 17)) eqn:Hcond.
  - apply andb_true_iff in Hcond as [Hnb Hlow].
    apply negb_true_iff in Hnb. apply bool_decide_eq_true_1 in Hlow.
    assert (isPlayerDone d = false) as Hnd.
    { destruct (isPlayerDone d); [|done]. destruct Hdone as [?|?]; [done|congruence|lia]. }
    destruct (hit_cases s) as [[E _]|[(_ & E & _)|(d0 & _ & Hd0 & Hc)]];
      [congruence..|].
    rewrite Hcur, Hd in Hd0. injection Hd0 as <-.
    destruct Hc as [[E _]|[(_ & Hempty & ->)|(c & dk & _ & Hdeck & ->)]];
      [congruence| |].
    { split; [done|]. intros k Hk. rewrite Hempty in Hk |- *. cbn in Hk.
      assert (k = 0%nat) as -> by lia. cbn. by rewrite app_nil_r. }
    rewrite Hcur. unfold getPlayer. cbn [players].
    rewrite list_lookup_insert_eq by (by eapply lookup_lt_Some).
    destruct (takeCard_seat d c) as (_ & _ & _ & Hhand).
    match goal with |- match dealerLoop fuel ?s1 ?d1 with _ => _ end =>
      specialize (IH s1 d1) end.
    cbn [finished currentPlayerIndex players deck] in IH.
    rewrite list_lookup_insert_eq in IH by (by eapply lookup_lt_Some).
    specialize (IH eq_refl eq_refl eq_refl (takeCard_flagsOk _ c Hok Hnd)).
    assert (isPlayerDone (takeCard d c) = true →
            busted (takeCard d c) = true ∨ 17 ≤ handScore (hand (takeCard d c)))
      as Hdone1.
    { intros Hd1. destruct (takeCard_done d c Hnd Hd1) as [?|E]; [by left|].
      right. rewrite E. lia. }
    assert (length dk < fuel)%nat as Hfuel1.
    { rewrite Hdeck, length_app in Hfuel. cbn in Hfuel. lia. }
    specialize (IH Hdone1 Hfuel1).
    destruct (dealerLoop fuel _ _) as [[[s' d']|e]|]; [| |done].
    + destruct IH as (drawn & Hdk & Hh & Hps & Hc' & Hf' & Hok' & Hexit & Hpre).
      exists (c :: drawn). split_and!; try done.
      * rewrite Hdeck, Hdk, reverse_cons. by rewrite app_assoc.
      * rewrite Hh, Hhand. by rewrite <- app_assoc.
      * rewrite Hps. by rewrite list_insert_insert_eq.
      * intros [|k] Hk; cbn [take]; [by rewrite app_nil_r|].
        cbn [length] in Hk. rewrite cons_middle, app_assoc, <- Hhand.
        apply Hpre. lia.
    + destruct IH as [-> Hall]. split; [done|].
      rewrite Hdeck, reverse_app, reverse_singleton, length_app.
      cbn [length app].
      intros [|k] Hk; cbn [take]; [by rewrite app_nil_r|].
      rewrite cons_middle, app_assoc, <- Hhand. apply Hall. lia.
  - exists []. rewrite !app_nil_r. split_and!; try done.
    + by rewrite list_insert_id.
    + apply andb_false_iff in Hcond as [Hb|Hs].
      * left. by apply negb_false_iff in Hb.
      * right. apply bool_decide_eq_false_1 in Hs. lia.
    + intros k Hk. cbn in Hk. lia.
Qed.

(** X19. The dealer's rule.  At the dealer's turn in a round in progress,
    with a dealer who is not done, [dealerAutoPlay] ends.  It throws only
    when the deck runs out: then the dealer's hand with the whole deck
    drawn onto it, card by card from the top, stays under 17.  Otherwise
    the round is finished, only the dealer's seat has changed, the dealer
    drew cards from the top of the deck exactly while the score was under
    17, and is now bust or standing with a score from 17 to 21. *)
Theorem dealer_draws_to_17 fuel s dealer :
  finished s = false → currentPlayerIndex s = 0%nat →
  players s !! 0%nat = Some dealer →
  flagsOk dealer → isPlayerDone dealer = false →
  (length (deck s) < fuel)%nat →
  match dealerAutoPlay fuel s with
  | None => False
  | Some (Throw e) =>
      e = EmptyDeck ∧
      ∀ k, (k ≤ length (deck s))%nat →
           handScore (hand dealer ++ take k (reverse (deck s))) < 17
  | Some (Ok s') =>
      finished s' = true ∧ currentPlayerIndex s' = 0%nat ∧
      ∃ dealer' drawn,
        players s' = <[0%nat := dealer']> (players s) ∧
        deck s = deck s' ++ reverse drawn ∧
        hand dealer' = hand dealer ++ drawn ∧
        flagsOk dealer' ∧
        (busted dealer' = true ∨
         (standing dealer' = true ∧ 17 ≤ handScore (hand dealer') ≤ 21)) ∧
        ∀ k, (k < length drawn)%nat →
             handScore (hand dealer ++ take k drawn) < 17
  end.
Proof.
  intros Hfin Hcur Hd Hok Hnd Hfuel. unfold dealerAutoPlay, getPlayer.
  rewrite Hd, Hnd.
  pose proof (dealerLoop_spec fuel s dealer Hfin Hcur Hd Hok) as Hloop.
  destruct (dealerLoop fuel s dealer) as [[[s1 d1]|e]|];
    [|apply Hloop; [congruence|done]..].
  destruct Hloop as (drawn & Hdeck & Hhand & Hps & Hcur1 & Hfin1 & Hok1 & Hexit & Hpre);
    [congruence|done|].
  destruct (busted d1) eqn:Hb; cbn [negb].
  - split_and!; [done..|]. exists d1, drawn. split_and!; try done. by left.
  - rewrite Hps, list_lookup_insert_eq by (by eapply lookup_lt_Some).
    cbn [withFinished finished currentPlayerIndex players deck].
    split_and!; [done..|].
    exists (settled d1 (handScore (hand d1))), drawn.
    split_and!; try done.
    + by rewrite list_insert_insert_eq.
    + by apply settled_flagsOk.
    + right. cbn [settled standing hand]. split; [done|].
      pose proof (flagsOk_score d1 Hok1 Hb). destruct Hexit; [congruence|lia].
Qed.

Lemma dealer_draws_to_17_witness :
  match dealerAutoPlay 60 exDealerTurn with
  | None => False
  | Some (Throw e) =>
      e = EmptyDeck ∧
      ∀ k, (k ≤ length (deck exDealerTurn))%nat →
           handScore ([mkCard Clubs R7; mkCard Clubs R6]
                      ++ take k (reverse (deck exDealerTurn))) < 17
  | Some (Ok s') =>
      finished s' = true ∧ currentPlayerIndex s' = 0%nat ∧
      ∃ dealer' drawn,
        players s' = <[0%nat := dealer']> (players exDealerTurn) ∧
        deck exDealerTurn = deck s' ++ reverse drawn ∧
        hand dealer' = [mkCard Clubs R7; mkCard Clubs R6] ++ drawn ∧
        flagsOk dealer' ∧
        (busted dealer' = true ∨
         (standing dealer' = true ∧ 17 ≤ handScore (hand dealer') ≤ 21)) ∧
        ∀ k, (k < length drawn)%nat →
             handScore ([mkCard Clubs R7; mkCard Clubs R6] ++ take k drawn) < 17
  end ∧
  dealerAutoPlay 60 exAllStood = Some (Throw EmptyDeck) ∧
  deck exAllStood = [mkCard Spades R3; mkCard Spades R2] ∧
  ∀ k, (k ≤ length (deck exAllStood))%nat →
       handScore ([mkCard Spades R4; mkCard Spades R5]
                  ++ take k (reverse (deck exAllStood))) < 17.
Proof.
  split.
  - apply (dealer_draws_to_17 60 exDealerTurn
             (newPlayer "Dealer" true false [mkCard Clubs R7; mkCard Clubs R6]));
      try (vm_compute; done).
    vm_compute. lia.
  - assert (dealerAutoPlay 60 exAllStood = Some (Throw EmptyDeck)) as E
      by (vm_compute; reflexivity).
    pose proof (dealer_draws_to_17 60 exAllStood
                  (newPlayer "Dealer" true false
                     [mkCard Spades R4; mkCard Spades R5])) as H.
    rewrite E in H. split; [exact E|]. split; [vm_compute; reflexivity|].
    apply H.
    + vm_compute. reflexivity.
    + vm_compute. reflexivity.
    + vm_compute. reflexivity.
    + apply newPlayer_flagsOk.
    + vm_compute. reflexivity.
    + vm_compute. lia.
Defined.

(** The loop of [botAutoPlay] in a round in progress: it ends, for want of
    cards or with the seat done. *)
Lemma botLoop_spec fuel s c :
  finished s = false → players s !! currentPlayerIndex s = Some c →
  flagsOk c →
  (isPlayerDone c = true → busted c = true ∨ 16 ≤ handScore (hand c)) →
  (length (deck s) + (if isPlayerDone c then 0 else 1) < fuel)%nat →
  match botLoop fuel s c with
  | None => False
  | Some (Throw e) =>
      e = EmptyDeck ∧
      ∀ k, (k ≤ length (deck s))%nat →
           handScore (hand c ++ take k (reverse (deck s))) < 16
  | Some (Ok s') =>
      ∃ c' drawn,
        deck s = deck s' ++ reverse drawn ∧
        hand c' = hand c ++ drawn ∧
        players s' = <[currentPlayerIndex s := c']> (players s) ∧
        currentPlayerIndex s' = currentPlayerIndex s ∧ finished s' = false ∧
        flagsOk c' ∧ isPlayerDone c' = true ∧
        (busted c' = true ∨ 16 ≤ handScore (hand c')) ∧
        ∀ k, (k < length drawn)%nat → handScore (hand c ++ take k drawn) < 16
  end.
Proof.
  revert s c. induction fuel as [|fuel IH];
    intros s c Hfin Hc Hok Hdone Hfuel; [lia|].
  cbn [botLoop]. destruct (isPlayerDone c) eqn:Hnd; cbn [negb].
  { exists c, []. rewrite !app_nil_r. split_and!; try done.
    - by rewrite list_insert_id.
    - by apply Hdone.
    - intros k Hk. cbn in Hk. lia. }
  case_bool_decide as Hlow.
  - destruct (hit_cases s) as [[E _]|[(_ & E & _)|(c0 & _ & Hc0 & Hcs)]];
      [congruence..|].
    rewrite Hc in Hc0. injection Hc0 as <-.
    destruct Hcs as [[E _]|[(_ & Hempty & ->)|(x & dk & _ & Hdeck & ->)]];
      [congruence| |].
    { split; [done|]. intros k Hk. rewrite Hempty in Hk |- *. cbn in Hk.
      assert (k = 0%nat) as -> by lia. cbn. by rewrite app_nil_r. }
    unfold getPlayer. cbn [players currentPlayerIndex].
    rewrite list_lookup_insert_eq by (by eapply lookup_lt_Some).
    destruct (takeCard_seat c x) as (_ & _ & _ & Hhand).
    match goal with |- match botLoop fuel ?s1 ?c1 with _ => _ end =>
      specialize (IH s1 c1) end.
    cbn [finished currentPlayerIndex players deck] in IH.
    rewrite list_lookup_insert_eq in IH by (by eapply lookup_lt_Some).
    specialize (IH eq_refl eq_refl (takeCard_flagsOk _ x Hok Hnd)).
    assert (isPlayerDone (takeCard c x) = true →
            busted (takeCard c x) = true ∨ 16 ≤ handScore (hand (takeCard c x)))
      as Hdone1.
    { intros Hd1. destruct (takeCard_done c x Hnd Hd1) as [?|E]; [by left|].
      right. rewrite E. lia. }
    assert (length dk + (if isPlayerDone (takeCard c x) then 0 else 1) < fuel)%nat
      as Hfuel1.
    { rewrite Hdeck, length_app in Hfuel. cbn in Hfuel.
      destruct (isPlayerDone (takeCard c x)); lia. }
    specialize (IH Hdone1 Hfuel1).
    destruct (botLoop fuel _ _) as [[s'|e]|]; [| |done].
    + destruct IH as
        (c' & drawn & Hdk & Hh & Hps & Hc' & Hf' & Hok' & Hd' & Hexit & Hpre).
      exists c', (x :: drawn). split_and!; try done.
      * rewrite Hdeck, Hdk, reverse_cons. by rewrite app_assoc.
      * rewrite Hh, Hhand. by rewrite <- app_assoc.
      * rewrite Hps. by rewrite list_insert_insert_eq.
      * intros [|k] Hk; cbn [take]; [by rewrite app_nil_r|].
        cbn [length] in Hk. rewrite cons_middle, app_assoc, <- Hhand.
        apply Hpre. lia.
    + destruct IH as [-> Hall]. split; [done|].
      rewrite Hdeck, reverse_app, reverse_singleton, length_app.
      cbn [length app].
      intros [|k] Hk; cbn [take]; [by rewrite app_nil_r|].
      rewrite cons_middle, app_assoc, <- Hhand. apply Hall. lia.
  - destruct (stand_cases s) as [[E _]|[(_ & E & _)|(c0 & _ & Hc0 & Hcs)]];
      [congruence..|].
    rewrite Hc in Hc0. injection Hc0 as <-.
    destruct Hcs as [[E _]|[_ ->]]; [congruence|].
    unfold getPlayer. cbn [players currentPlayerIndex].
    rewrite list_lookup_insert_eq by (by eapply lookup_lt_Some).
    match goal with |- match botLoop fuel ?s1 ?c1 with _ => _ end =>
      specialize (IH s1 c1) end.
    cbn [finished currentPlayerIndex players deck] in IH.
    rewrite list_lookup_insert_eq in IH by (by eapply lookup_lt_Some).
    specialize (IH eq_refl eq_refl (stood_flagsOk _ Hok)).
    assert (isPlayerDone (stood c) = true) as Hst.
    { unfold isPlayerDone, stood. cbn. by rewrite orb_true_r. }
    rewrite Hst in IH.
    assert (busted (stood c) = true ∨ 16 ≤ handScore (hand (stood c))) as Hexit1
      by (right; cbn; lia).
    specialize (IH (λ _, Hexit1) ltac:(lia)).
    destruct (botLoop fuel _ _) as [[s'|e]|]; [| |done].
    + destruct IH as
        (c' & drawn & Hdk & Hh & Hps & Hc' & Hf' & Hok' & Hd' & Hexit & Hpre).
      exists c', drawn. split_and!; try done.
      rewrite Hps. by rewrite list_insert_insert_eq.
    + destruct IH as [_ Hall]. specialize (Hall 0%nat ltac:(lia)).
      cbn [take stood hand] in Hall. rewrite app_nil_r in Hall. lia.
Qed.

(** X20. The bots' rule.  At the turn of a seat that is not done, in a
    round in progress, [botAutoPlay] ends.  It throws only at a bot's seat
    and only when the deck runs out: then the bot's hand with the whole
    deck drawn onto it, card by card from the top, stays under 16;
    otherwise only that seat has changed, the bot drew cards from the top
    of the deck exactly while its score was under 16, and it is now done:
    bust, or standing with a score from 16 to 21.  At the turn of a human
    or of the dealer it returns the state as it is. *)
Theorem bot_draws_to_16 fuel s current :
  finished s = false → players s !! currentPlayerIndex s = Some current →
  flagsOk current → isPlayerDone current = false →
  (length (deck s) + 1 < fuel)%nat →
  match botAutoPlay fuel s with
  | None => False
  | Some (Throw e) =>
      e = EmptyDeck ∧ isBot current = true ∧ isDealer current = false ∧
      ∀ k, (k ≤ length (deck s))%nat →
           handScore (hand current ++ take k (reverse (deck s))) < 16
  | Some (Ok s') =>
      if negb (isBot current) || isDealer current then s' = s
      else
        finished s' = false ∧ currentPlayerIndex s' = currentPlayerIndex s ∧
        ∃ current' drawn,
          players s' = <[currentPlayerIndex s := current']> (players s) ∧
          deck s = deck s' ++ reverse drawn ∧
          hand current' = hand current ++ drawn ∧
          flagsOk current' ∧
          (busted current' = true ∨
           (standing current' = true ∧ 16 ≤ handScore (hand current') ≤ 21)) ∧
          ∀ k, (k < length drawn)%nat →
               handScore (hand current ++ take k drawn) < 16
  end.
Proof.
  intros Hfin Hc Hok Hnd Hfuel. unfold botAutoPlay, getPlayer. rewrite Hc.
  destruct (negb (isBot current) || isDealer current) eqn:Hrole; [done|].
  apply orb_false_iff in Hrole as [Hbot%negb_false_iff Hdl].
  pose proof (botLoop_spec fuel s current Hfin Hc Hok) as Hloop.
  rewrite Hnd in Hloop. specialize (Hloop ltac:(done) ltac:(lia)).
  destruct (botLoop fuel s current) as [[s'|e]|]; [| |done].
  2: { destruct Hloop as [-> Hall]. by split_and!. }
  destruct Hloop as
    (c' & drawn & Hdeck & Hhand & Hps & Hcur & Hfin' & Hok' & Hd' & Hexit & Hpre).
  split_and!; [done..|]. exists c', drawn. split_and!; try done.
  destruct (busted c') eqn:Hb; [by left|right].
  pose proof (flagsOk_score c' Hok' Hb) as H21.
  destruct Hexit as [?|H16]; [done|]. split; [|lia].
  unfold isPlayerDone in Hd'. rewrite Hb in Hd'. cbn [orb] in Hd'.
  destruct Hok' as (_ & H21' & Hbj & Himp & _).
  destruct (standing c'); [done|]. cbn [orb] in Hd'.
  destruct (hasTwentyOne c'); [by specialize (Himp eq_refl)|]. cbn [orb] in Hd'.
  rewrite Hbj in Hd'. unfold isNaturalBlackjack in Hd'.
  apply andb_true_iff in Hd' as [_ Hs]. by rewrite <- H21' in Hs.
Qed.

Lemma bot_draws_to_16_witness :
  match botAutoPlay 60 exBotTurn with
  | None => False
  | Some (Throw e) =>
      e = EmptyDeck ∧
      isBot (newPlayer "B1" false true [mkCard Clubs R3; mkCard Clubs R2])
        = true ∧
      isDealer (newPlayer "B1" false true [mkCard Clubs R3; mkCard Clubs R2])
        = false ∧
      ∀ k, (k ≤ length (deck exBotTurn))%nat →
           handScore ([mkCard Clubs R3; mkCard Clubs R2]
                      ++ take k (reverse (deck exBotTurn))) < 16
  | Some (Ok s') =>
      finished s' = false ∧ currentPlayerIndex s' = 2%nat ∧
      ∃ current' drawn,
        players s' = <[2%nat := current']> (players exBotTurn) ∧
        deck exBotTurn = deck s' ++ reverse drawn ∧
        hand current' = [mkCard Clubs R3; mkCard Clubs R2] ++ drawn ∧
        flagsOk current' ∧
        (busted current' = true ∨
         (standing current' = true ∧ 16 ≤ handScore (hand current') ≤ 21)) ∧
        ∀ k, (k < length drawn)%nat →
             handScore ([mkCard Clubs R3; mkCard Clubs R2] ++ take k drawn) < 16
  end ∧
  botAutoPlay 60 exFullTable = Some (Throw EmptyDeck) ∧
  deck exFullTable = [mkCard Spades R3; mkCard Spades R2] ∧
  ∀ k, (k ≤ length (deck exFullTable))%nat →
       handScore ([mkCard Hearts R2; mkCard Hearts R3]
                  ++ take k (reverse (deck exFullTable))) < 16.
Proof.
  split.
  - apply (bot_draws_to_16 60 exBotTurn
             (newPlayer "B1" false true [mkCard Clubs R3; mkCard Clubs R2]));
      try (vm_compute; done).
    vm_compute. lia.
  - assert (botAutoPlay 60 exFullTable = Some (Throw EmptyDeck)) as E
      by (vm_compute; reflexivity).
    pose proof (bot_draws_to_16 60 exFullTable
                  (newPlayer "B1" false true
                     [mkCard Hearts R2; mkCard Hearts R3])) as H.
    rewrite E in H. split; [exact E|]. split; [vm_compute; reflexivity|].
    apply H.
    + vm_compute. reflexivity.
    + vm_compute. reflexivity.
    + apply newPlayer_flagsOk.
    + vm_compute. reflexivity.
    + vm_compute. lia.
Defined.

Lemma hit_finished s : finished s = true → hit s = Ok s.
Proof. unfold hit. by intros ->. Qed.

Lemma stand_finished s : finished s = true → stand s = Ok s.
Proof. unfold stand. by intros ->. Qed.

(** [hit] does nothing on a finished round or at the turn of a seat that
    is done. *)
Lemma hit_idle s :
  finished s = true ∨
  (∃ c, players s !! currentPlayerIndex s = Some c ∧ isPlayerDone c = true) →
  hit s = Ok s.
Proof.
  intros [Hfin|(c & Hc & Hdone)]; [by apply hit_finished|].
  unfold hit, getPlayer. rewrite Hc. cbn [mbind Result_bind]. rewrite Hdone.
  by destruct (finished s).
Qed.

(** The dealer's loop spins when [hit] does nothing. *)
Lemma dealerAutoPlay_spins s dealer :
  players s !! 0%nat = Some dealer → isPlayerDone dealer = false →
  handScore (hand dealer) < 17 → hit s = Ok s →
  ∀ fuel, dealerAutoPlay fuel s = None.
Proof.
  intros Hd Hnd Hlow Hhit fuel. unfold dealerAutoPlay, getPlayer.
  rewrite Hd, Hnd.
  assert (dealerLoop fuel s dealer = None) as ->; [|done].
  apply notDone_flags in Hnd as (Hb & _).
  induction fuel as [|fuel IH]; [done|]. cbn [dealerLoop].
  rewrite Hb, (bool_decide_eq_true_2 _ Hlow), Hhit.
  cbn [negb andb]. unfold getPlayer. by rewrite Hd.
Qed.

(** X21. The automatic players rely on [hit] and [stand] to make progress.
    Where [hit] does nothing, on a finished round or when the turn is at a
    seat that is done, [dealerAutoPlay] never returns if the dealer is not
    done and under 17; and on a finished round [botAutoPlay] never returns
    at the turn of a bot that is not done.  Their loops spin whatever the
    number of rounds allowed. *)
Theorem autoplay_spins_without_progress s :
  finished s = true ∨
  (∃ c, players s !! currentPlayerIndex s = Some c ∧ isPlayerDone c = true) →
  (∀ dealer, players s !! 0%nat = Some dealer →
     isPlayerDone dealer = false → handScore (hand dealer) < 17 →
     ∀ fuel, dealerAutoPlay fuel s = None) ∧
  (finished s = true →
   ∀ current, players s !! currentPlayerIndex s = Some current →
     isBot current = true → isDealer current = false →
     isPlayerDone current = false →
     ∀ fuel, botAutoPlay fuel s = None).
Proof.
  intros Hidle. split.
  - intros dealer Hd Hnd Hlow. apply (dealerAutoPlay_spins s dealer); try done.
    by apply hit_idle.
  - intros Hfin current Hc Hbot Hdl Hnd fuel. unfold botAutoPlay, getPlayer.
    rewrite Hc, Hbot, Hdl. cbn [negb orb].
    induction fuel as [|fuel IH]; [done|]. cbn [botLoop].
    rewrite Hnd, (hit_finished s Hfin), (stand_finished s Hfin). cbn [negb].
    destruct (bool_decide _); unfold getPlayer; by rewrite Hc.
Qed.

Lemma autoplay_spins_without_progress_witness :
  played exClosedEarly ∧
  (∀ dealer, players exClosedEarly !! 0%nat = Some dealer →
     isPlayerDone dealer = false → handScore (hand dealer) < 17 →
     ∀ fuel, dealerAutoPlay fuel exClosedEarly = None) ∧
  (finished exClosedEarly = true →
   ∀ current,
     players exClosedEarly !! currentPlayerIndex exClosedEarly = Some current →
     isBot current = true → isDealer current = false →
     isPlayerDone current = false →
     ∀ fuel, botAutoPlay fuel exClosedEarly = None).
Proof.
  split.
  - apply (played_step exDealerTurn).
    + by apply (played_init (λ i, (i * 7)%nat) (mkConfig 0 None None None None)).
    + by apply (step_next 2).
  - apply (autoplay_spins_without_progress exClosedEarly). by left.
Defined.

(** ** The view's driver *)

(** X22. The blackjack view freezes on a table where every player is done
    while the turn is still at a player's seat, as it is right after a deal
    that gave every player 21, if the dealer is not done and under 17:
    [advanceNonHumanTurns] calls [dealerAutoPlay] at once, whose loop then
    never ends. *)
Theorem view_freezes_when_all_are_done s dealer c :
  finished s = false → allNonDealerDone s = true →
  players s !! currentPlayerIndex s = Some c → isPlayerDone c = true →
  players s !! 0%nat = Some dealer → isPlayerDone dealer = false →
  handScore (hand dealer) < 17 →
  ∀ fuel inner, advanceNonHumanTurns fuel inner s = None.
Proof.
  intros Hfin Hall Hc Hdone Hd Hnd Hlow [|fuel] inner; [done|].
  cbn [advanceNonHumanTurns]. rewrite Hfin, Hall.
  apply (dealerAutoPlay_spins s dealer); try done.
  apply hit_idle. right. by exists c.
Qed.

Lemma view_freezes_when_all_are_done_witness :
  initBlackjack
    (λ i, match i with
          | 51 => 4 | 50 => 5 | 49 => 0 | 48 => 12 | _ => i
          end%nat)
    (mkConfig 1 None None None None) = Ok exAllTwentyOne ∧
  ∀ fuel inner, advanceNonHumanTurns fuel inner exAllTwentyOne = None.
Proof.
  split; [by vm_compute|].
  apply (view_freezes_when_all_are_done exAllTwentyOne
           (newPlayer "Dealer" true false [mkCard Spades R5; mkCard Spades R6])
           (newPlayer "H1" false false [mkCard Spades RA; mkCard Spades RK]));
    by vm_compute.
Defined.

Lemma allNonDealerDone_true s :
  allNonDealerDone s = true ↔
  ∀ j p, (1 ≤ j)%nat → players s !! j = Some p → isPlayerDone p = true.
Proof.
  unfold allNonDealerDone. rewrite forallb_forall. split.
  - intros H j p Hj Hp. apply H, list_elem_of_In, list_elem_of_lookup.
    exists (j - 1)%nat. rewrite lookup_drop, <- Hp. f_equal. lia.
  - intros H p [k Hk]%list_elem_of_In%list_elem_of_lookup.
    rewrite lookup_drop in Hk. apply (H (1 + k)%nat p); [lia|done].
Qed.

Lemma roundOk_dealer s i p :
  roundOk s → players s !! i = Some p → isDealer p = bool_decide (i = 0%nat).
Proof.
  intros (_ & _ & Hd) Hp.
  assert ((isDealer <$> players s) !! i = Some (isDealer p)) as H
    by (by rewrite list_lookup_fmap, Hp).
  rewrite Hd in H. destruct i as [|i]; cbn in H.
  - by injection H as <-.
  - by apply lookup_replicate in H as [-> _].
Qed.

Lemma roundOk_has_dealer s : roundOk s → ∃ d, players s !! 0%nat = Some d.
Proof.
  intros (_ & _ & Hd). destruct (players s) as [|d ps]; [done|]. by exists d.
Qed.

Lemma steps_trans s1 s2 s3 : steps s1 s2 → steps s2 s3 → steps s1 s3.
Proof.
  intros H12 H23. induction H23 as [|s2 s3 s4 _ IH Hstep]; [done|].
  eapply steps_step; [by apply IH|done].
Qed.

(** [nextPlayer] after a seat that is done, when the seats before it are
    done too: the turn stays in order. *)
Lemma nextPlayer_in_order inner s c :
  finished s = false →
  (∀ i p, (1 ≤ i < currentPlayerIndex s)%nat → players s !! i = Some p →
          isPlayerDone p = true) →
  players s !! currentPlayerIndex s = Some c → isPlayerDone c = true →
  (1 ≤ currentPlayerIndex s)%nat → (length (players s) < inner)%nat →
  ∃ s', nextPlayer inner s = Some s' ∧
        deck s' = deck s ∧ players s' = players s ∧ finished s' = false ∧
        turnOk s' ∧
        (allNonDealerDone s' = true → currentPlayerIndex s' = 0%nat) ∧
        (currentPlayerIndex s' = 0%nat ∨
         (currentPlayerIndex s < currentPlayerIndex s' < length (players s))%nat).
Proof.
  intros Hfin Hbefore Hc Hdone Hcur Hinner.
  unfold nextPlayer. rewrite Hfin, nextPlayerLoop_spec by lia.
  destruct (list_find _ _) as [[k q]|] eqn:Hfind.
  - apply list_find_Some in Hfind as (Hk & Hq & Hmin). rewrite lookup_drop in Hk.
    eexists. split; [done|].
    cbn [withCurrent deck players finished currentPlayerIndex].
    split_and!; try done.
    + split; cbn [withCurrent players currentPlayerIndex]; [|lia].
      intros i p [Hi1 Hi2] Hp.
      destruct (decide (i < currentPlayerIndex s)%nat) as [Hlt|Hge];
        [by apply (Hbefore i p)|].
      destruct (decide (i = currentPlayerIndex s)) as [->|Hne]; [congruence|].
      specialize (Hmin (i - S (currentPlayerIndex s))%nat p).
      rewrite lookup_drop in Hmin.
      replace (S (currentPlayerIndex s) + (i - S (currentPlayerIndex s)))%nat
        with i in Hmin by lia.
      destruct (isPlayerDone p); [done|]. exfalso. apply Hmin; [done|lia|done].
    + intros Hall. exfalso.
      rewrite allNonDealerDone_true in Hall. cbn [withCurrent players] in Hall.
      specialize (Hall (S (currentPlayerIndex s) + k)%nat q ltac:(lia) Hk).
      congruence.
    + right. split; [lia|]. by eapply lookup_lt_Some.
  - apply list_find_None in Hfind. rewrite bool_decide_eq_false_2 by lia.
    eexists. split; [done|].
    cbn [withCurrent deck players finished currentPlayerIndex].
    split_and!; try done; [|by left].
    split; cbn [withCurrent players currentPlayerIndex]; [intros i p ?; lia|].
    intros _. apply allNonDealerDone_true. cbn [withCurrent players].
    intros j p Hj Hp.
    destruct (decide (j < currentPlayerIndex s)%nat) as [Hlt|Hge];
      [by apply (Hbefore j p)|].
    destruct (decide (j = currentPlayerIndex s)) as [->|Hne]; [congruence|].
    assert (drop (S (currentPlayerIndex s)) (players s)
              !! (j - S (currentPlayerIndex s))%nat = Some p) as Hin.
    { rewrite lookup_drop, <- Hp. f_equal. lia. }
    pose proof (Forall_lookup_1 _ _ _ _ Hfind Hin) as Hp'. simpl in Hp'.
    by destruct (isPlayerDone p).
Qed.

(** [dealerAutoPlay] at the dealer's turn ends the round. *)
Lemma dealerAutoPlay_ends inner s :
  roundOk s → finished s = false → currentPlayerIndex s = 0%nat →
  (length (deck s) < inner)%nat →
  match dealerAutoPlay inner s with
  | None => False
  | Some (Throw e) =>
      e = EmptyDeck ∧
      ∃ d, players s !! 0%nat = Some d ∧
           ∀ k, (k ≤ length (deck s))%nat →
                handScore (hand d ++ take k (reverse (deck s))) < 17
  | Some (Ok s') => finished s' = true
  end.
Proof.
  intros Hok Hfin Hcur Hinner. destruct (roundOk_has_dealer s Hok) as [d Hd].
  assert (flagsOk d) as Hflags.
  { destruct Hok as (_ & Hall & _). by eapply (Forall_lookup_1 _ _ _ _ Hall). }
  unfold dealerAutoPlay, getPlayer. rewrite Hd.
  destruct (isPlayerDone d) eqn:Hnd; [done|].
  pose proof (dealerLoop_spec inner s d Hfin Hcur Hd Hflags) as Hloop.
  specialize (Hloop ltac:(congruence) ltac:(done)).
  destruct (dealerLoop inner s d) as [[[s1 d1]|e]|]; [| |done].
  2: { destruct Hloop as [-> Hall]. split; [done|]. by exists d. }
  destruct Hloop as (drawn & _ & _ & Hps & _).
  destruct (busted d1); cbn [negb]; [done|].
  by rewrite Hps, list_lookup_insert_eq by (by eapply lookup_lt_Some).
Qed.

(** The driver, started with the turn in order. *)
Lemma advanceNonHumanTurns_spec fuel inner s :
  roundOk s → turnOk s → finished s = false →
  (allNonDealerDone s = true → currentPlayerIndex s = 0%nat) →
  ((if decide (currentPlayerIndex s = 0%nat) then 1
    else length (players s) - currentPlayerIndex s + 2) ≤ fuel)%nat →
  (length (players s) < inner)%nat → (length (deck s) + 1 < inner)%nat →
  match advanceNonHumanTurns fuel inner s with
  | None => False
  | Some (Throw e) =>
      e = EmptyDeck ∧
      ∃ s1 c, steps s s1 ∧ finished s1 = false ∧
              players s1 !! currentPlayerIndex s1 = Some c ∧
              (isDealer c = true ∨ isBot c = true) ∧
              ∀ k, (k ≤ length (deck s1))%nat →
                   handScore (hand c ++ take k (reverse (deck s1)))
                   < (if isDealer c then 17 else 16)
  | Some (Ok s') =>
      steps s s' ∧
      (finished s' = true ∨
       ∃ c, players s' !! currentPlayerIndex s' = Some c ∧
            isDealer c = false ∧ isBot c = false ∧ isPlayerDone c = false)
  end.
Proof.
  revert s. induction fuel as [|fuel IH];
    intros s Hok Hturn Hfin Hall Hfuel Hseats Hdeck.
  { destruct (decide _); lia. }
  cbn [advanceNonHumanTurns]. rewrite Hfin.
  destruct (allNonDealerDone s) eqn:Hdone.
  { specialize (Hall eq_refl).
    pose proof (dealerAutoPlay_ends inner s Hok Hfin Hall ltac:(lia)) as Hd.
    destruct (dealerAutoPlay inner s) as [[s'|e]|] eqn:E; [| |done].
    - split; [|by left]. apply (steps_step s s); [constructor|].
      by apply (step_dealer inner).
    - destruct Hd as (-> & d & Hd & Hlow). split; [done|].
      exists s, d. rewrite Hall.
      rewrite (roundOk_dealer s 0%nat d Hok Hd), bool_decide_eq_true_2 by done.
      split_and!; [constructor|done|done|by left|done]. }
  clear Hall. destruct Hturn as [Hbefore Hzero].
  assert (currentPlayerIndex s ≠ 0%nat) as Hcur.
  { intros E. specialize (Hzero E). congruence. }
  assert (∃ j p, (1 ≤ j)%nat ∧ players s !! j = Some p ∧ isPlayerDone p = false)
    as (j & pj & Hj1 & Hpj & Hpjn).
  { destruct (list_find (λ p, isPlayerDone p = false) (drop 1 (players s)))
      as [[k q]|] eqn:Hfind.
    - apply list_find_Some in Hfind as (Hk & Hq & _). rewrite lookup_drop in Hk.
      exists (1 + k)%nat, q. split_and!; [lia|done..].
    - apply list_find_None in Hfind. exfalso.
      assert (allNonDealerDone s = true) as E; [|congruence].
      apply allNonDealerDone_true. intros i p Hi Hp.
      assert (drop 1 (players s) !! (i - 1)%nat = Some p) as Hin.
      { rewrite lookup_drop, <- Hp. f_equal. lia. }
      pose proof (Forall_lookup_1 _ _ _ _ Hfind Hin) as Hp'. simpl in Hp'.
      by destruct (isPlayerDone p). }
  assert (currentPlayerIndex s ≤ j)%nat as Hle.
  { destruct (decide (currentPlayerIndex s ≤ j)%nat) as [|Hgt]; [done|].
    rewrite (Hbefore j pj) in Hpjn; [done|lia|done]. }
  pose proof (lookup_lt_Some _ _ _ Hpj) as Hjlen.
  destruct (players s !! currentPlayerIndex s) as [current|] eqn:Hc.
  2: { apply lookup_ge_None in Hc. lia. }
  rewrite (roundOk_dealer s _ current Hok Hc), bool_decide_eq_false_2 by done.
  rewrite decide_False in Hfuel by done.
  change (busted current || standing current || hasTwentyOne current
          || isBlackjack current) with (isPlayerDone current).
  assert (∀ s1 c1,
            steps s s1 → roundOk s1 → finished s1 = false →
            currentPlayerIndex s1 = currentPlayerIndex s →
            length (players s1) = length (players s) →
            (length (deck s1) ≤ length (deck s))%nat →
            (∀ i p, (1 ≤ i < currentPlayerIndex s)%nat →
                    players s1 !! i = Some p → isPlayerDone p = true) →
            players s1 !! currentPlayerIndex s1 = Some c1 →
            isPlayerDone c1 = true →
            match
              match nextPlayer inner s1 with
              | None => None
              | Some s2 => advanceNonHumanTurns fuel inner s2
              end
            with
            | None => False
            | Some (Throw e) =>
                e = EmptyDeck ∧
                ∃ s1 c, steps s s1 ∧ finished s1 = false ∧
                        players s1 !! currentPlayerIndex s1 = Some c ∧
                        (isDealer c = true ∨ isBot c = true) ∧
                        ∀ k, (k ≤ length (deck s1))%nat →
                             handScore (hand c ++ take k (reverse (deck s1)))
                             < (if isDealer c then 17 else 16)
            | Some (Ok s') =>
                steps s s' ∧
                (finished s' = true ∨
                 ∃ c, players s' !! currentPlayerIndex s' = Some c ∧
                      isDealer c = false ∧ isBot c = false ∧
                      isPlayerDone c = false)
            end) as Hnext.
  { intros s1 c1 Hsteps Hok1 Hfin1 Hcur1 Hlen1 Hdeck1 Hbefore1 Hc1 Hdone1.
    destruct (nextPlayer_in_order inner s1 c1)
      as (s2 & Hnp & Hd2 & Hp2 & Hf2 & Ht2 & Ha2 & Hpos); try done.
    { by rewrite Hcur1. } { lia. } { lia. }
    rewrite Hnp.
    assert (roundOk s2) as Hok2 by (by eapply roundOk_same).
    assert ((if decide (currentPlayerIndex s2 = 0%nat) then 1
             else length (players s2) - currentPlayerIndex s2 + 2) ≤ fuel)%nat
      as Hfuel2.
    { destruct (decide _); rewrite ?Hp2; lia. }
    assert (length (players s2) < inner)%nat as Hseats2 by (rewrite Hp2; lia).
    assert (length (deck s2) + 1 < inner)%nat as Hdeck2 by (rewrite Hd2; lia).
    specialize (IH s2 Hok2 Ht2 Hf2 Ha2 Hfuel2 Hseats2 Hdeck2).
    assert (steps s s2) as Hsteps2.
    { eapply steps_step; [exact Hsteps|]. by apply (step_next inner). }
    destruct (advanceNonHumanTurns fuel inner s2) as [[s'|e]|]; [| |done].
    - destruct IH as [Hst Hres]. split; [|done]. by eapply steps_trans.
    - destruct IH as (-> & s3 & c3 & Hst & Hrest). split; [done|].
      exists s3, c3. split; [by eapply steps_trans|done]. }
  destruct (isBot current) eqn:Hbot; cbn [negb].
  - destruct (isPlayerDone current) eqn:Hcd.
    + apply (Hnext s current); try done. constructor.
    + assert (flagsOk current) as Hflags.
      { destruct Hok as (_ & Hfl & _). by eapply (Forall_lookup_1 _ _ _ _ Hfl). }
      pose proof (botLoop_spec inner s current Hfin Hc Hflags) as Hloop.
      rewrite Hcd in Hloop.
      assert (botAutoPlay inner s = botLoop inner s current) as Hbap.
      { unfold botAutoPlay, getPlayer.
        by rewrite Hc, Hbot, (roundOk_dealer s _ current Hok Hc),
          bool_decide_eq_false_2. }
      rewrite Hbap. specialize (Hloop ltac:(done) ltac:(lia)).
      destruct (botLoop inner s current) as [[s1|e]|] eqn:E; [| |done].
      2: { destruct Hloop as [-> Hlow]. split; [done|].
           exists s, current.
           rewrite (roundOk_dealer s _ current Hok Hc),
             bool_decide_eq_false_2 by done.
           split_and!; [constructor|done|done|by right|done]. }
      destruct Hloop as
        (c' & drawn & Hdk & _ & Hps & Hcur1 & Hfin1 & _ & Hd' & _).
      assert (step s s1) as Hstep by (apply (step_bot inner); congruence).
      assert (steps s s1) as Hsteps
        by (apply (steps_step s s); [constructor|done]).
      assert (roundOk s1) as Hok1 by (by apply (step_roundOk s)).
      assert (length (players s1) = length (players s)) as Hlen1
        by (by rewrite Hps, length_insert).
      assert (length (deck s1) ≤ length (deck s))%nat as Hdeck1
        by (rewrite Hdk, length_app; lia).
      assert (∀ i p, (1 ≤ i < currentPlayerIndex s)%nat →
                     players s1 !! i = Some p → isPlayerDone p = true)
        as Hbefore1.
      { intros i p Hi. rewrite Hps, list_lookup_insert_ne by lia.
        by apply Hbefore. }
      assert (players s1 !! currentPlayerIndex s1 = Some c') as Hc1.
      { rewrite Hcur1, Hps. apply list_lookup_insert_eq.
        by eapply lookup_lt_Some. }
      by apply (Hnext s1 c').
  - destruct (isPlayerDone current) eqn:Hcd.
    + apply (Hnext s current); try done. constructor.
    + split; [constructor|]. right. exists current. split_and!; try done.
      by rewrite (roundOk_dealer s _ current Hok Hc), bool_decide_eq_false_2.
Qed.

(** X23. The view's driver on a round in progress whose turn is in order
    (it is after a deal, [initBlackjack_turnOk], and [nextPlayer] keeps it
    so, [nextPlayer_in_order]), unless every player is done while the turn
    is not the dealer's: it ends; it only uses the engine's operations; it
    stops with the round finished or with the turn at a human who is not
    done; and it throws only when the deck runs out, that is, after steps
    of the engine that bring the turn to the dealer or to a bot whose hand,
    with the whole deck drawn onto it card by card from the top, stays
    under 17 for the dealer and under 16 for a bot. *)
Theorem view_plays_up_to_a_human fuel inner s :
  played s → turnOk s → finished s = false →
  (allNonDealerDone s = true → currentPlayerIndex s = 0%nat) →
  (length (players s) + 2 ≤ fuel)%nat →
  (length (players s) < inner)%nat → (length (deck s) + 1 < inner)%nat →
  match advanceNonHumanTurns fuel inner s with
  | None => False
  | Some (Throw e) =>
      e = EmptyDeck ∧
      ∃ s1 c, steps s s1 ∧ finished s1 = false ∧
              players s1 !! currentPlayerIndex s1 = Some c ∧
              (isDealer c = true ∨ isBot c = true) ∧
              ∀ k, (k ≤ length (deck s1))%nat →
                   handScore (hand c ++ take k (reverse (deck s1)))
                   < (if isDealer c then 17 else 16)
  | Some (Ok s') =>
      steps s s' ∧
      (finished s' = true ∨
       ∃ c, players s' !! currentPlayerIndex s' = Some c ∧
            isDealer c = false ∧ isBot c = false ∧ isPlayerDone c = false)
  end.
Proof.
  intros Hplayed Hturn Hfin Hall Hfuel Hseats Hdeck.
  assert (roundOk s) as Hok.
  { clear -Hplayed. induction Hplayed as [rnd config s Hinit|s s' _ IH Hstep].
    - by apply (initBlackjack_roundOk rnd config).
    - by apply (step_roundOk s). }
  apply advanceNonHumanTurns_spec; try done.
  destruct (decide _); lia.
Qed.

Lemma view_plays_up_to_a_human_witness :
  match advanceNonHumanTurns 5 60 exBotTurn with
  | None => False
  | Some (Throw e) => e = EmptyDeck
  | Some (Ok s') =>
      steps exBotTurn s' ∧
      (finished s' = true ∨
       ∃ c, players s' !! currentPlayerIndex s' = Some c ∧
            isDealer c = false ∧ isBot c = false ∧ isPlayerDone c = false)
  end ∧
  advanceNonHumanTurns 30 60 exFullTable = Some (Throw EmptyDeck) ∧
  ∃ s1 c, steps exFullTable s1 ∧ finished s1 = false ∧
          players s1 !! currentPlayerIndex s1 = Some c ∧
          (isDealer c = true ∨ isBot c = true) ∧
          ∀ k, (k ≤ length (deck s1))%nat →
               handScore (hand c ++ take k (reverse (deck s1)))
               < (if isDealer c then 17 else 16).
Proof.
  split.
  2: { assert (advanceNonHumanTurns 30 60 exFullTable = Some (Throw EmptyDeck))
         as E by (vm_compute; reflexivity).
       pose proof (view_plays_up_to_a_human 30 60 exFullTable) as H.
       rewrite E in H. split; [exact E|].
       destruct H as [_ H]; [..|exact H].
       - by apply (played_init rndLow (mkConfig 0 (Some 24) None None None)).
       - split; [|by vm_compute].
         intros i p Hi. vm_compute in Hi. lia.
       - reflexivity.
       - by vm_compute.
       - vm_compute. lia.
       - vm_compute. lia.
       - vm_compute. lia. }
  apply (view_plays_up_to_a_human 5 60 exBotTurn).
  - apply (played_step (fromOk (stand exRound))); [|by apply (step_next 4)].
    apply (played_step exRound); [|by apply step_stand].
    by apply (played_init (λ i, (i * 7)%nat) (mkConfig 1 (Some 1) None None None)).
  - split.
    + intros i p Hi Hp. assert (i = 1%nat) as -> by (vm_compute in Hi; lia).
      vm_compute in Hp. by injection Hp as <-.
    + by vm_compute.
  - reflexivity.
  - by vm_compute.
  - vm_compute. lia.
  - vm_compute. lia.
  - vm_compute. lia.
Defined.

End BlackjackFacts.
